(** * Masked converter of faceswap: [plugins/convert/masked.py]

    A shallow embedding of the compositing core (classes [Convert] and
    [Mask]) together with the fragment of numpy it relies on, and the
    properties of the compositing pipeline established on it.

    - Pixel buffers are numpy [float32] arrays.  They are modelled with the
      IEEE-754 specification floats of the standard library ([spec_float])
      at precision 24 and maximal exponent 128, so NaN, the infinities,
      signed zeros and rounding are those of the program.  Python floats
      and the arrays of [np.interp] are [float64] (precision 53, maximal
      exponent 1024).
    - A Python exception is a value [Raised e] of the result type; [e]
      names the function whose body raises it.
    - numpy updates buffers in place.  Where the buffer is local to the
      call the update is a rebinding; the one buffer that outlives the call,
      the aligned crop of the detected face, is threaded through
      [get_new_image] and [patch_image] explicitly.
    - OpenCV, the synthesis model and the aligner are parameters.
    - Log messages are left out. *)

From Stdlib Require Import String ZArith List Bool Lia.
From Stdlib Require Import Floats.SpecFloat.
Import ListNotations.

Local Open Scope string_scope.
Local Open Scope list_scope.
Local Open Scope Z_scope.

(** ** IEEE-754 formats *)

(** [numpy.float32]. *)
Module F32.
Definition prec := 24.
Definition emax := 128.

Definition add := SFadd prec emax.
Definition sub := SFsub prec emax.
Definition mul := SFmul prec emax.
Definition div := SFdiv prec emax.
Definition sqrt := SFsqrt prec emax.
Definition valid := valid_binary prec emax.

  (** Conversion of an integer (to nearest even when it does not fit). *)
Definition of_Z (n : Z) : spec_float := binary_normalize prec emax n 0 false.

  (** Rounding of a finite binary number into the format. *)
Definition round (x : spec_float) : spec_float :=
    match x with
    | S754_finite s m e => binary_round prec emax s m e
    | _ => x
    end.

Definition zero := S754_zero false.
Definition one := Eval cbv in of_Z 1.
Definition max_float := Eval cbv in SFmax_float prec emax.
Definition min_float := Eval cbv in SFopp max_float.
End F32.

(** Python [float] and [numpy.float64]. *)
Module F64.
Definition prec := 53.
Definition emax := 1024.

Definition add := SFadd prec emax.
Definition sub := SFsub prec emax.
Definition mul := SFmul prec emax.
Definition div := SFdiv prec emax.
Definition sqrt := SFsqrt prec emax.
Definition valid := valid_binary prec emax.

Definition of_Z (n : Z) : spec_float := binary_normalize prec emax n 0 false.

Definition round (x : spec_float) : spec_float :=
    match x with
    | S754_finite s m e => binary_round prec emax s m e
    | _ => x
    end.

Definition zero := S754_zero false.
Definition one := Eval cbv in of_Z 1.
End F64.

Abbreviation f32 := spec_float.
Abbreviation f64 := spec_float.

Definition is_nan (x : spec_float) : bool :=
  match x with S754_nan => true | _ => false end.

Definition is_finite (x : spec_float) : bool :=
  match x with S754_zero _ | S754_finite _ _ _ => true | _ => false end.

(** [x != 0] as numpy evaluates it: false on both zeros, true on NaN. *)
Definition nonzero (x : spec_float) : bool :=
  match x with S754_zero _ => false | _ => true end.

(** [float32 -> float64] is exact, [float64 -> float32] rounds. *)
Definition f32_to_f64 (x : f32) : f64 := F64.round x.
Definition f64_to_f32 (x : f64) : f32 := F32.round x.

(** Integer nearest to [n / d], ties to even ([d > 0], [n >= 0]). *)
Definition round_half_even (n d : Z) : Z :=
  let q := n / d in
  let r := n mod d in
  match 2 * r ?= d with
  | Lt => q
  | Gt => q + 1
  | Eq => if Z.even q then q else q + 1
  end.

(** Truncation toward zero of a finite float, as a signed integer. *)
Definition trunc (x : spec_float) : Z :=
  match x with
  | S754_finite s m e =>
      cond_Zopp s (if 0 <=? e then Zpos m * 2 ^ e else Zpos m / 2 ^ (- e))
  | _ => 0
  end.


(** ** Python exceptions *)

Inductive exn_class :=
  TypeError | ValueError | IndexError | AttributeError | OverflowError | CvError.

(** An exception, with the function whose body raises it. *)
Record exn := Exn { exn_type : exn_class; raised_in : string }.

Inductive result (A : Type) :=
| Ok (a : A)
| Raised (e : exn).
Arguments Ok {A} a.
Arguments Raised {A} e.

Definition bind {A B} (r : result A) (k : A -> result B) : result B :=
  match r with
  | Ok a => k a
  | Raised e => Raised e
  end.

Notation "x <- c ;; k" := (bind c (fun x => k))
  (at level 61, c at next level, right associativity).
Notation "' p <- c ;; k" := (bind c (fun x => let 'p := x in k))
  (at level 61, p pattern, c at next level, right associativity).

Definition raise {A} (c : exn_class) (f : string) : result A := Raised (Exn c f).

Definition is_ok {A} (r : result A) : bool :=
  match r with Ok _ => true | Raised _ => false end.

(** ** numpy arrays

    An array of rank 1, 2 or 3 is a nested list in C (row-major) order:
    an image is indexed [y], [x], channel. *)

Abbreviation arr1 A := (list A).
Abbreviation arr2 A := (list (list A)).
Abbreviation arr3 A := (list (list (list A))).

Abbreviation pixels := (arr3 f32).

Section Elementwise.
Context {A B C : Type}.

Definition map3 (f : A -> B) (a : arr3 A) : arr3 B := map (map (map f)) a.

Fixpoint zip_with (f : A -> B -> C) (l1 : list A) (l2 : list B) : list C :=
    match l1, l2 with
    | a :: l1', b :: l2' => f a b :: zip_with f l1' l2'
    | _, _ => []
    end.
End Elementwise.

Definition zip_with3 {A B C} (f : A -> B -> C) (a : arr3 A) (b : arr3 B) : arr3 C :=
  zip_with (zip_with (zip_with f)) a b.

(** The shape of an image as the list of its pixels' channel counts;
    two buffers have the same shape when these lists agree. *)
Definition shape3 {A} (a : arr3 A) : list (list nat) := map (map (@List.length A)) a.

Definition same_shape {A B} (a : arr3 A) (b : arr3 B) : bool :=
  if list_eq_dec (list_eq_dec Nat.eq_dec) (shape3 a) (shape3 b) then true else false.

(** An arithmetic operator on two arrays.  The buffers of [apply_fixes] have
    one shape; numpy raises [ValueError] on shapes that it cannot broadcast
    (broadcasting of an axis of length one is not part of this model). *)
Definition elementwise (f : f32 -> f32 -> f32) (a b : pixels) : result pixels :=
  if same_shape a b then Ok (zip_with3 f a b)
  else raise ValueError "numpy.ufunc".

(** [np.clip(a, lo, hi, out=a)] for a float array and scalar bounds: the
    comparisons are false on NaN, which is therefore kept. *)
Definition clip1 (lo hi x : f32) : f32 :=
  if SFltb x lo then lo else if SFltb hi x then hi else x.

Definition np_clip (a : pixels) (lo hi : f32) : pixels := map3 (clip1 lo hi) a.

(** [np.rint]: nearest integer, ties to even, in the same float type. *)
Definition rint1 (x : f32) : f32 :=
  match x with
  | S754_finite s m e =>
      if 0 <=? e then x
      else
        let q := round_half_even (Zpos m) (2 ^ (- e)) in
        if q =? 0 then S754_zero s else F32.of_Z (cond_Zopp s q)
  | _ => x
  end.

Definition np_rint (a : pixels) : pixels := map3 rint1 a.

(** [astype('uint8')]: C conversion of a float to an unsigned byte.  It
    truncates; the outcome for NaN and the infinities is not defined by the
    language and is the platform's [nan_byte] (0 on x86-64). *)
Definition to_uint8 (nan_byte : Z) (x : f32) : Z :=
  if is_finite x then trunc x mod 256 else nan_byte.

Definition astype_uint8 (nan_byte : Z) (a : pixels) : arr3 Z := map3 (to_uint8 nan_byte) a.

(** [np.nan_to_num(a, copy=False)]: NaN becomes 0, an infinity becomes the
    finite float of largest magnitude of its sign. *)
Definition nan_to_num1 (x : f32) : f32 :=
  match x with
  | S754_nan => F32.zero
  | S754_infinity false => F32.max_float
  | S754_infinity true => F32.min_float
  | _ => x
  end.

Definition np_nan_to_num (a : pixels) : pixels := map3 nan_to_num1 a.

(** *** Indexing *)

Fixpoint update {A} (l : list A) (i : nat) (v : A) : list A :=
  match l, i with
  | [], _ => []
  | _ :: l', O => v :: l'
  | a :: l', S i' => a :: update l' i' v
  end.

(** [a[:, :, c]] and the assignment [a[:, :, c] = ch]. *)
Definition channel (c : nat) (a : pixels) : arr2 f32 :=
  map (map (fun px => nth c px F32.zero)) a.

Definition set_channel (c : nat) (a : pixels) (ch : arr2 f32) : pixels :=
  zip_with (zip_with (fun px v => update px c v)) a ch.

(** Number of channels of an image (of its first pixel). *)
Definition channels (a : pixels) : nat :=
  match a with
  | (px :: _) :: _ => List.length px
  | _ => O
  end.

(** Bounds of the Python slice [lo:hi] on a sequence of length [n]: a
    negative index counts from the end, and both are clamped to [0, n]. *)
Definition py_index (n i : Z) : Z :=
  if i <? 0 then Z.max 0 (n + i) else Z.min i n.

Definition slice_bounds (n : nat) (s : Z * Z) : Z * Z :=
  (py_index (Z.of_nat n) (fst s), py_index (Z.of_nat n) (snd s)).

(** [a[lo:hi]]. *)
Definition py_slice {A} (s : Z * Z) (l : list A) : list A :=
  let '(a, b) := slice_bounds (List.length l) s in
  firstn (Z.to_nat (b - a)) (skipn (Z.to_nat a) l).

(** [a[ys, xs]] (and [a[ys, xs, :]]) for two slices. *)
Definition crop2 {A} (ys xs : Z * Z) (a : list (list A)) : list (list A) :=
  map (py_slice xs) (py_slice ys a).

(** Maps that know the position of each element. *)
Fixpoint mapi {A B} (f : nat -> A -> B) (i : nat) (l : list A) : list B :=
  match l with
  | [] => []
  | a :: l' => f i a :: mapi f (S i) l'
  end.

Fixpoint flat_mapi {A B} (f : nat -> A -> list B) (i : nat) (l : list A) : list B :=
  match l with
  | [] => []
  | a :: l' => f i a ++ flat_mapi f (S i) l'
  end.

(** [np.nonzero] of a 2-d array: the row and column indices of the
    non-zero entries, in C order. *)
Definition np_nonzero2 (m : arr2 f32) : list (nat * nat) :=
  flat_mapi (fun y row =>
               flat_mapi (fun x v => if nonzero v then [(y, x)] else []) O row)
            O m.

(** [np.nonzero] of a 3-d array: (y, x, channel) of the non-zero entries. *)
Definition np_nonzero3 (m : pixels) : list (nat * nat * nat) :=
  flat_mapi (fun y row =>
               flat_mapi (fun x px =>
                            flat_mapi (fun c v => if nonzero v then [(y, x, c)] else [])
                                      O px)
                         O row)
            O m.

(** [np.min] and [np.max] of an integer array; an empty array has no
    minimum: the reduction raises [ValueError]. *)
Definition np_min (l : list Z) : result Z :=
  match l with
  | [] => raise ValueError "numpy.amin"
  | a :: l' => Ok (fold_left Z.min l' a)
  end.

Definition np_max (l : list Z) : result Z :=
  match l with
  | [] => raise ValueError "numpy.amax"
  | a :: l' => Ok (fold_left Z.max l' a)
  end.

(** [np.sum(a, axis=(0, 1))]: one float32 sum per channel. *)
Definition sum_f32 (l : list f32) : f32 := fold_left F32.add l F32.zero.

Definition np_sum01 (a : pixels) : list f32 :=
  map (fun c => sum_f32 (concat (channel c a))) (seq 0 (channels a)).

(** [np.sum(a)] over all entries. *)
Definition np_sum (a : pixels) : f32 := sum_f32 (concat (concat a)).

(** [np.pad(a, ((h, h), (w, w), (0, 0)), 'constant')]. *)
Definition np_pad {A} (zero : A) (h w : Z) (a : arr3 A) : arr3 A :=
  let width := match a with r :: _ => List.length r | [] => O end in
  let chans := match a with (px :: _) :: _ => List.length px | _ => O end in
  let zpx := repeat zero chans in
  let zrow := repeat zpx (Z.to_nat w + width + Z.to_nat w) in
  let side := repeat zpx (Z.to_nat w) in
  repeat zrow (Z.to_nat h) ++ map (fun r => side ++ r ++ side) a ++ repeat zrow (Z.to_nat h).

(** [np.full((h, w, c), v)] and [np.zeros((h, w, c))]. *)
Definition np_full {A} (h w c : Z) (v : A) : arr3 A :=
  repeat (repeat (repeat v (Z.to_nat c)) (Z.to_nat w)) (Z.to_nat h).

Definition np_zeros (h w c : Z) : pixels := np_full h w c F32.zero.

(** *** Calls with keyword arguments

    Binding of the arguments of a call to the parameters of a function:
    more positional arguments than parameters, a keyword that names no
    parameter, and a keyword that names a parameter already bound by
    position are each a [TypeError], raised before the body runs. *)
Definition mem_string (k : string) (l : list string) : bool :=
  existsb (String.eqb k) l.

Definition bind_args {A B} (fname : string) (params : list string)
           (positional : list A) (keywords : list (string * B)) : result unit :=
  if (List.length params <? List.length positional)%nat then raise TypeError fname
  else if existsb (fun kv => mem_string (fst kv) (firstn (List.length positional) params))
                  keywords
  then raise TypeError fname
  else if existsb (fun kv => negb (mem_string (fst kv) params)) keywords
  then raise TypeError fname
  else Ok tt.

(** Arguments that [apply_fixes] hands to numpy: an array, or a tuple of
    arrays. *)
Inductive pyobj :=
| PyArray (a : pixels)
| PyTuple (l : list pixels).

(** Joining two buffers along the channel axis: [H] and [W] must agree. *)
Definition append_channels (a b : pixels) : result pixels :=
  if list_eq_dec Nat.eq_dec (map (@List.length _) a) (map (@List.length _) b)
  then Ok (zip_with (zip_with (@app f32)) a b)
  else raise ValueError "numpy.concatenate".

(** [np.concatenate(arrays, axis=0, out=None)].  The converter only joins
    along [axis=2]; that is the case given a body here. *)
Definition np_concatenate (positional : list pyobj) (keywords : list (string * Z))
  : result pixels :=
  _ <- bind_args "numpy.concatenate" ["arrays"; "axis"; "out"] positional keywords ;;
  match positional, keywords with
  | [PyTuple (a :: rest)], [(_, 2)] =>
      fold_left (fun acc b => acc' <- acc ;; append_channels acc' b) rest (Ok a)
  | _, _ => raise ValueError "numpy.concatenate"
  end.

(** *** [np.unique], [np.cumsum], [np.interp], [ndarray.put] *)

(** Order of numpy's sort on floats: NaN sorts last. *)
Definition sort_lt (a b : f32) : bool :=
  SFltb a b || (is_nan b && negb (is_nan a)).

(** Stable insertion of an indexed value. *)
Fixpoint insert_sorted (x : f32 * nat) (l : list (f32 * nat)) : list (f32 * nat) :=
  match l with
  | [] => [x]
  | y :: l' => if sort_lt (fst y) (fst x) then y :: insert_sorted x l' else x :: l
  end.

(** [argsort(kind='mergesort')]: the values with their positions, sorted. *)
Definition argsort (l : list f32) : list (f32 * nat) :=
  fold_right insert_sorted [] (combine l (seq 0 (List.length l))).

(** [a != b] on floats: true when one of them is NaN. *)
Definition np_ne (a b : f32) : bool := negb (SFeqb a b).

(** The runs of equal values of a sorted array: each run as its first
    value and the positions (in the unsorted array) of its members. *)
Fixpoint runs (l : list (f32 * nat)) : list (f32 * list nat) :=
  match l with
  | [] => []
  | (v, i) :: l' =>
      match runs l' with
      | (v', ps) :: rs => if np_ne v' v then (v, [i]) :: (v', ps) :: rs
                          else (v, i :: ps) :: rs
      | [] => [(v, [i])]
      end
  end.

(** Index of the run that holds position [i]. *)
Fixpoint run_of (i : nat) (rs : list (f32 * list nat)) : nat :=
  match rs with
  | [] => O
  | (_, ps) :: rs' => if existsb (Nat.eqb i) ps then O else S (run_of i rs')
  end.

(** [np.unique(a, return_inverse=True, return_counts=True)]: the sorted
    distinct values, for each entry of [a] the index of its value, and the
    number of occurrences of each value. *)
Definition np_unique (a : list f32) : list f32 * list nat * list Z :=
  let rs := runs (argsort a) in
  (map fst rs,
   map (fun i => run_of i rs) (seq 0 (List.length a)),
   map (fun r => Z.of_nat (List.length (snd r))) rs).

(** [np.cumsum(counts, dtype='float32')]. *)
Fixpoint cumsum_from (acc : f32) (l : list Z) : list f32 :=
  match l with
  | [] => []
  | c :: l' => let acc' := F32.add acc (F32.of_Z c) in acc' :: cumsum_from acc' l'
  end.

Definition np_cumsum (counts : list Z) : list f32 :=
  match counts with
  | [] => []
  | c :: l' => F32.of_Z c :: cumsum_from (F32.of_Z c) l'
  end.

(** [q /= q[-1]]. *)
Definition divide_by_last (q : list f32) : result (list f32) :=
  match rev q with
  | [] => raise IndexError "numpy.ndarray.__getitem__"
  | d :: _ => Ok (map (fun x => F32.div x d) q)
  end.

(** Index [j] with [xp[j] <= key < xp[j+1]] ([xp] increasing), [-1] below
    the first abscissa and [len xp] above the last one. *)
Definition search_interval (key : f64) (xp : list f64) : Z :=
  match xp, rev xp with
  | first :: _, last :: _ =>
      if SFltb last key then Z.of_nat (List.length xp)
      else if SFltb key first then -1
      else Z.of_nat (List.length (filter (fun v => SFleb v key) xp)) - 1
  | _, _ => -1
  end.

(** [np.interp(x, xp, fp)]: piecewise-linear interpolation in float64,
    constant outside of [xp]. *)
Definition interp1 (xp fp : list f64) (x : f64) : f64 :=
  let at_ (l : list f64) (j : Z) := nth (Z.to_nat j) l S754_nan in
  let n := Z.of_nat (List.length xp) in
  if is_nan x then x
  else if n =? 1 then
    if SFltb x (at_ xp 0) then at_ fp 0
    else if SFltb (at_ xp 0) x then at_ fp (n - 1)
    else at_ fp 0
  else
    let j := search_interval x xp in
    if j =? -1 then at_ fp 0
    else if j =? n then at_ fp (n - 1)
    else if j =? n - 1 then at_ fp j
    else
      let slope := F64.div (F64.sub (at_ fp (j + 1)) (at_ fp j))
                           (F64.sub (at_ xp (j + 1)) (at_ xp j)) in
      F64.add (F64.mul slope (F64.sub x (at_ xp j))) (at_ fp j).

Definition np_interp (x xp fp : list f32) : result (list f64) :=
  match xp with
  | [] => raise ValueError "numpy.interp"
  | _ =>
      if (List.length xp =? List.length fp)%nat
      then Ok (map (interp1 (map f32_to_f64 xp) (map f32_to_f64 fp))
                   (map f32_to_f64 x))
      else raise ValueError "numpy.interp"
  end.

(** [a[idx]] for an index array. *)
Definition take {A} (fname : string) (a : list A) (idx : list nat) : result (list A) :=
  fold_right (fun i acc =>
                acc' <- acc ;;
                match nth_error a i with
                | Some v => Ok (v :: acc')
                | None => raise IndexError fname
                end) (Ok []) idx.

(** [a[rows, cols]] for the pair of index arrays of [np.nonzero]. *)
Definition take2 {A} (a : arr2 A) (idx : list (nat * nat)) : result (list A) :=
  fold_right (fun yx acc =>
                acc' <- acc ;;
                match nth_error a (fst yx) with
                | Some row =>
                    match nth_error row (snd yx) with
                    | Some v => Ok (v :: acc')
                    | None => raise IndexError "numpy.ndarray.__getitem__"
                    end
                | None => raise IndexError "numpy.ndarray.__getitem__"
                end) (Ok []) idx.

(** The rows of [flat], cut with the row lengths of [like]. *)
Fixpoint reshape_like {A B} (like : arr2 A) (flat : list B) : arr2 B :=
  match like with
  | [] => []
  | row :: like' =>
      firstn (List.length row) flat :: reshape_like like' (skipn (List.length row) flat)
  end.

(** [a.put(indices, values)]: [a.flat[indices[i]] = values[i % len(values)]]
    for each [i] in turn.  [indices] is first made a flat integer array: a
    tuple of two index arrays of length [n] becomes the [2n] integers of the
    first array followed by those of the second.  The values are cast to the
    type of [a]. *)
Fixpoint put_flat (flat : list f32) (indices : list nat) (values : list f32) (i : nat)
  : result (list f32) :=
  match indices with
  | [] => Ok flat
  | k :: indices' =>
      if (k <? List.length flat)%nat
      then put_flat (update flat k (nth (Nat.modulo i (List.length values)) values F32.zero))
                    indices' values (S i)
      else raise IndexError "numpy.ndarray.put"
  end.

Definition ndarray_put (a : arr2 f32) (indices : list nat * list nat) (values : list f64)
  : result (arr2 f32) :=
  let ind := fst indices ++ snd indices in
  match ind, values with
  | _ :: _, [] => raise IndexError "numpy.ndarray.put"
  | _, _ =>
      flat <- put_flat (concat a) ind (map f64_to_f32 values) O ;;
      Ok (reshape_like a flat)
  end.

(** ** External collaborators

    OpenCV, the synthesis model, the aligner and the mask geometry of
    [lib.model.masks] are not part of the converter; they are taken as they
    are called, as total functions of their arguments.  A field is the
    value of the call when the call returns: the errors that OpenCV raises
    on arguments it refuses (an empty source image for [seamlessClone],
    fewer than five points for [fitEllipse]) have no counterpart here.  A
    statement that a function of the converter returns is therefore to be
    read for the frames on which its OpenCV calls return. *)

Abbreviation matrix := (arr2 f64).
Abbreviation points := (list (Z * Z)).
Definition rotated_rect := ((f64 * f64) * (f64 * f64) * f64)%type.

Inductive border_mode :=
| BORDER_TRANSPARENT
| BORDER_CONSTANT (value : f64).

Definition INTER_CUBIC := 2.
Definition WARP_INVERSE_MAP := 16.
Definition MORPH_ELLIPSE := 2.
Definition NORMAL_CLONE := 1.
Definition LINE_AA := 16.

Class OpenCV := {
  cv2_resize : pixels -> Z * Z -> Z -> pixels;
  (* src, M, dsize, dst, flags, border: the content of [dst] afterwards *)
  cv2_warpAffine : pixels -> matrix -> Z * Z -> pixels -> Z -> border_mode -> pixels;
  cv2_GaussianBlur : pixels -> Z * Z -> f64 -> pixels;
  cv2_filter2D : pixels -> arr2 f64 -> pixels;
  cv2_addWeighted : pixels -> f64 -> pixels -> f64 -> f64 -> pixels;
  cv2_getStructuringElement : Z -> Z * Z -> arr2 Z;
  cv2_erode : pixels -> arr2 Z -> Z -> pixels;
  cv2_dilate : pixels -> arr2 Z -> Z -> pixels;
  cv2_blur : pixels -> Z * Z -> pixels;
  (* src, dst, mask, center, flags *)
  cv2_seamlessClone : arr3 Z -> arr3 Z -> arr3 Z -> Z * Z -> Z -> arr3 Z;
  cv2_convexHull : points -> points;
  (* img, hull, colour, line type: the content of [img] afterwards *)
  cv2_fillConvexPoly : pixels -> points -> f32 * f32 * f32 -> Z -> pixels;
  cv2_fitEllipse : points -> rotated_rect;
  (* img, box, colour, thickness: the content of [img] afterwards *)
  cv2_ellipse : pixels -> rotated_rect -> f32 * f32 * f32 -> Z -> pixels
}.

(** ** Data of the converter *)

(** [DetectedFace], as far as the converter reads and writes it:
    [aligned["matrix"]], [aligned["face"]], [landmarks_as_xy] and
    [frame_dims] (height, width). *)
Record DetectedFace := {
  aligned_matrix : matrix;
  aligned_face : pixels;
  landmarks_as_xy : points;
  frame_dims : Z * Z
}.

Class Collaborators := {
  (* the model: a list of input batches to a list of output batches *)
  encoder : list (list pixels) -> list (list pixels);
  (* lib.aligner.get_matrix_scaling *)
  get_matrix_scaling : matrix -> Z * Z;
  (* lib.model.masks.dfl_full(landmarks, dummy, channels=3) *)
  dfl_full : points -> pixels -> Z -> pixels;
  (* DetectedFace.load_aligned(image, size, align_eyes) *)
  load_aligned : pixels -> Z -> bool -> DetectedFace -> DetectedFace;
  (* what the platform's float-to-byte conversion makes of NaN *)
  nan_byte : Z
}.

(** The options of the command line that the converter reads. *)
Record Arguments := {
  mask_type : string;
  erosion_size : Z;
  blur_size : Z;
  sharpen_image : option string;
  avg_color_adjust : bool;
  match_histogram : bool;
  seamless_clone : bool;
  draw_transparent : bool
}.

(** The state of a [Mask] object. *)
Record MaskState := {
  mask_training_size : Z;
  mask_padding : Z;
  mask_mask_type : string;
  mask_crop : Z * Z
}.

(** The keyword arguments that [get_mask] hands to every mask function. *)
Record mask_kwargs := {
  kw_matrix : matrix;
  kw_interpolators : Z * Z;
  kw_landmarks : points;
  kw_image_size : Z * Z
}.

(** Is position [i] of a sequence of length [n] inside the slice? *)
Definition in_slice (n : nat) (s : Z * Z) (i : nat) : bool :=
  let '(a, b) := slice_bounds n s in
  (a <=? Z.of_nat i) && (Z.of_nat i <? b).

(** [a[crop, crop] = v] for a scalar [v]. *)
Definition fill_crop (crop : Z * Z) (v : f32) (a : pixels) : pixels :=
  mapi (fun y row =>
          mapi (fun x px =>
                  if in_slice (List.length a) crop y && in_slice (List.length row) crop x
                  then map (fun _ => v) px else px)
               O row)
       O a.

(** [a[crop, crop] = patch] for an array [patch]: the pixel at (y, x)
    inside the region becomes the pixel of the patch at the same offset
    from the corner of the region.  The patch must have the shape of the
    region (broadcasting of an axis of length one is not part of this
    model), otherwise numpy raises [ValueError]. *)
Definition assign_crop (crop : Z * Z) (patch a : pixels) : result pixels :=
  if same_shape (crop2 crop crop a) patch
  then
    Ok (mapi (fun y row =>
                mapi (fun x px =>
                        if in_slice (List.length a) crop y
                           && in_slice (List.length row) crop x
                        then
                          nth (x - Z.to_nat (fst (slice_bounds (List.length row) crop)))
                              (nth (y - Z.to_nat (fst (slice_bounds (List.length a) crop)))
                                   patch [])
                              px
                        else px)
                     O row)
             O a)
  else raise ValueError "numpy.ndarray.__setitem__".

(** ** class Mask *)

Module Mask.
Section Methods.
Context {cv : OpenCV} {ext : Collaborators}.
Variable self : MaskState.

(** [Mask.finalize_mask]. *)
Definition finalize_mask (mask : pixels) : pixels :=
  let mask := np_nan_to_num mask in
  np_clip mask F32.zero F32.one.

Definition rect (kw : mask_kwargs) : pixels :=
  let interpolator := snd (kw_interpolators kw) in
  let ones := np_zeros (mask_training_size self) (mask_training_size self) 3 in
  let mask := np_zeros (snd (kw_image_size kw)) (fst (kw_image_size kw)) 3 in
  let ones := fill_crop (mask_crop self) F32.one ones in
  cv2_warpAffine ones (kw_matrix kw) (kw_image_size kw) mask
                 (Z.lor WARP_INVERSE_MAP interpolator) (BORDER_CONSTANT F64.zero).

Definition smoothed (kw : mask_kwargs) : pixels :=
  let interpolator := snd (kw_interpolators kw) in
  let ones := np_zeros (mask_training_size self) (mask_training_size self) 3 in
  let ones := fill_crop (mask_crop self) F32.one ones in
  let ones := cv2_GaussianBlur ones (25, 25) (F64.of_Z 10) in
  let mask := np_zeros (snd (kw_image_size kw)) (fst (kw_image_size kw)) 3 in
  cv2_warpAffine ones (kw_matrix kw) (kw_image_size kw) mask
                 (Z.lor WARP_INVERSE_MAP interpolator) (BORDER_CONSTANT F64.zero).

Definition dfl (kw : mask_kwargs) : pixels :=
  let dummy := np_zeros (snd (kw_image_size kw)) (fst (kw_image_size kw)) 3 in
  dfl_full (kw_landmarks kw) dummy 3.

Definition facehull (kw : mask_kwargs) : pixels :=
  let mask := np_zeros (snd (kw_image_size kw)) (fst (kw_image_size kw)) 3 in
  let hull := cv2_convexHull (kw_landmarks kw) in
  cv2_fillConvexPoly mask hull (F32.one, F32.one, F32.one) LINE_AA.

(** [mask *= hull_mask]. *)
Definition facehull_rect (kw : mask_kwargs) : result pixels :=
  let mask := rect kw in
  let hull_mask := facehull kw in
  elementwise F32.mul mask hull_mask.

Definition ellipse (kw : mask_kwargs) : pixels :=
  let mask := np_zeros (snd (kw_image_size kw)) (fst (kw_image_size kw)) 3 in
  let ell := cv2_fitEllipse (kw_landmarks kw) in
  cv2_ellipse mask ell (F32.one, F32.one, F32.one) (-1).

(** The mask model is not incorporated: the hull is used instead. *)
Definition cnn (kw : mask_kwargs) : pixels := facehull kw.

(** [getattr(self, self.mask_type)] called with the keyword arguments:
    the seven mask functions by name.  Any other name fails: no such
    attribute, or an attribute that does not take these keywords. *)
Definition dispatch (name : string) (kw : mask_kwargs) : result pixels :=
  if String.eqb name "cnn" then Ok (cnn kw)
  else if String.eqb name "smoothed" then Ok (smoothed kw)
  else if String.eqb name "rect" then Ok (rect kw)
  else if String.eqb name "dfl" then Ok (dfl kw)
  else if String.eqb name "facehull" then Ok (facehull kw)
  else if String.eqb name "facehull_rect" then facehull_rect kw
  else if String.eqb name "ellipse" then Ok (ellipse kw)
  else raise AttributeError "getattr".

(** [Mask.get_mask]. *)
Definition get_mask (matrix : matrix) (interpolators : Z * Z)
           (detected_face : DetectedFace) : result pixels :=
  let image_size := (snd (frame_dims detected_face), fst (frame_dims detected_face)) in
  let kwargs := {| kw_matrix := matrix;
                   kw_interpolators := interpolators;
                   kw_landmarks := landmarks_as_xy detected_face;
                   kw_image_size := image_size |} in
  mask <- dispatch (mask_mask_type self) kwargs ;;
  Ok (finalize_mask mask).
End Methods.
End Mask.

(** ** class Convert *)

(** The state of a [Convert] object; [crop] and [mask] are [None] until the
    first image is patched. *)
Record ConvertState := {
  args : Arguments;
  input_size : Z;
  training_size : Z;
  training_coverage_ratio : f64;
  input_mask_shape : option (Z * Z * Z);
  crop : option (Z * Z);
  mask : option MaskState
}.

Definition set_crop (self : ConvertState) (c : Z * Z) : ConvertState :=
  {| args := args self; input_size := input_size self;
     training_size := training_size self;
     training_coverage_ratio := training_coverage_ratio self;
     input_mask_shape := input_mask_shape self;
     crop := Some c; mask := mask self |}.

Definition set_mask (self : ConvertState) (m : MaskState) : ConvertState :=
  {| args := args self; input_size := input_size self;
     training_size := training_size self;
     training_coverage_ratio := training_coverage_ratio self;
     input_mask_shape := input_mask_shape self;
     crop := crop self; mask := Some m |}.

Definition set_aligned_face (face : DetectedFace) (a : pixels) : DetectedFace :=
  {| aligned_matrix := aligned_matrix face; aligned_face := a;
     landmarks_as_xy := landmarks_as_xy face; frame_dims := frame_dims face |}.

(** [int(x)] of a Python float. *)
Definition py_int (x : f64) : result Z :=
  match x with
  | S754_nan => raise ValueError "int"
  | S754_infinity _ => raise OverflowError "int"
  | _ => Ok (trunc x)
  end.

Definition f32_255 := Eval cbv in F32.of_Z 255.

Module Convert.
Section Methods.
Context {cv : OpenCV} {ext : Collaborators}.

(** Lines 37 and 38 of [patch_image]:
    [coverage = int(self.training_coverage_ratio * self.training_size)] and
    [padding = (self.training_size - coverage) // 2]. *)
Definition coverage_of (self : ConvertState) : result Z :=
  py_int (F64.mul (training_coverage_ratio self) (F64.of_Z (training_size self))).

Definition padding_of (self : ConvertState) (coverage : Z) : Z :=
  (training_size self - coverage) / 2.

(** [Convert.hist_match], on one channel. *)
Definition hist_match (new frame image_mask : arr2 f32) : result (arr2 f32) :=
  let mask_indices := np_nonzero2 image_mask in
  if (List.length mask_indices =? 0)%nat then Ok new
  else
    m_new <- take2 new mask_indices ;;
    m_frame <- take2 frame mask_indices ;;
    let '(s_values, bin_idx, s_counts) := np_unique m_new in
    let '(t_values, _, t_counts) := np_unique m_frame in
    let s_quants := np_cumsum s_counts in
    let t_quants := np_cumsum t_counts in
    s_quants <- divide_by_last s_quants ;;
    t_quants <- divide_by_last t_quants ;;
    interp_s_values <- np_interp s_quants t_quants t_values ;;
    values <- take "numpy.ndarray.__getitem__" interp_s_values bin_idx ;;
    ndarray_put new (map fst mask_indices, map snd mask_indices) values.

(** [a[:, :, c]]; every pixel must have the channel. *)
Definition get_channel (c : nat) (a : pixels) : result (arr2 f32) :=
  if forallb (forallb (fun px => (c <? List.length px)%nat)) a
  then Ok (channel c a)
  else raise IndexError "numpy.ndarray.__getitem__".

(** [Convert.color_hist_match]. *)
Definition color_hist_match (new frame image_mask : pixels) : result pixels :=
  fold_left
    (fun acc c =>
       new <- acc ;;
       nc <- get_channel c new ;;
       fc <- get_channel c frame ;;
       mc <- get_channel c image_mask ;;
       matched <- hist_match nc fc mc ;;
       Ok (set_channel c new matched))
    [0; 1; 2]%nat (Ok new).

(** [masked + adjustment]: the offsets, one per channel, are broadcast to
    every pixel. *)
Definition add_per_channel (a : pixels) (adjustment : list f32) : pixels :=
  map (map (fun px => zip_with F32.add px adjustment)) a.

(** The body of the loop [for _ in [0, 1]] of [apply_fixes] (average
    colour adjustment). *)
Definition avg_color_round (frame image_mask masked : pixels) : result pixels :=
  let masked := np_clip masked F32.zero f32_255 in
  diff <- elementwise F32.sub frame masked ;;
  weighted <- elementwise F32.mul diff image_mask ;;
  let avg_diff := np_sum01 weighted in
  let adjustment := zip_with F32.div avg_diff (np_sum01 image_mask) in
  Ok (add_per_channel masked adjustment).

(** The block [if self.args.sharpen_image is not None] of [apply_fixes]. *)
Definition sharpen (mode : option string) (masked : pixels) : pixels :=
  match mode with
  | None => masked
  | Some name =>
      let masked := np_clip masked F32.zero f32_255 in
      if String.eqb name "box_filter" then
        let m1 := F64.of_Z (-1) in
        let kernel := [[m1; m1; m1]; [m1; F64.of_Z 9; m1]; [m1; m1; m1]] in
        cv2_filter2D masked kernel
      else if String.eqb name "gaussian_filter" then
        let blur := cv2_GaussianBlur masked (0, 0) (F64.of_Z 3) in
        cv2_addWeighted masked (F64.div (F64.of_Z 3) (F64.of_Z 2))
                        blur (F64.div (F64.of_Z (-1)) (F64.of_Z 2)) F64.zero
      else masked
  end.

(** The blocks [if self.args.avg_color_adjust] and
    [if self.args.match_histogram] of [apply_fixes]: the value of [masked]
    when the blend starts. *)
Definition color_correct (a : Arguments) (frame image_mask masked : pixels)
  : result pixels :=
  masked <- (if avg_color_adjust a then
               masked <- avg_color_round frame image_mask masked ;;
               avg_color_round frame image_mask masked
             else Ok masked) ;;
  if match_histogram a then
    color_hist_match (np_clip masked F32.zero f32_255) frame image_mask
  else Ok masked.

(** The buffer [blended] of [apply_fixes]: 8-bit out of the seamless
    clone, float32 out of the linear blend. *)
Inductive blended_buffer :=
| Bytes (b : arr3 Z)
| Floats (b : pixels).

(** The branch [if self.args.seamless_clone and not
    self.args.draw_transparent] of [apply_fixes].  The centre is
    [int(np.rint((max + min) / 2) + h)]: the indices are small integers, on
    which the float64 arithmetic is exact. *)
Definition seamless (frame image_mask masked : pixels) : result blended_buffer :=
  let h := Z.of_nat (List.length frame) / 2 in
  let w := Z.of_nat (List.length (hd [] frame)) / 2 in
  let idx := np_nonzero3 image_mask in
  let y_indices := map (fun i => Z.of_nat (fst (fst i))) idx in
  let x_indices := map (fun i => Z.of_nat (snd (fst i))) idx in
  y_min <- np_min y_indices ;;
  y_max <- np_max y_indices ;;
  x_min <- np_min x_indices ;;
  x_max <- np_max x_indices ;;
  let y_crop := (y_min, y_max) in
  let x_crop := (x_min, x_max) in
  let y_center := round_half_even (y_max + y_min) 2 + h in
  let x_center := round_half_even (x_max + x_min) 2 + w in
  let insertion := astype_uint8 nan_byte (np_rint (crop2 y_crop x_crop masked)) in
  let insertion_mask :=
    astype_uint8 nan_byte
      (map3 (fun v => if nonzero v then f32_255 else v)
            (crop2 y_crop x_crop image_mask)) in
  let prior := astype_uint8 nan_byte (np_pad F32.zero h w frame) in
  let blended := cv2_seamlessClone insertion prior insertion_mask
                                   (x_center, y_center) NORMAL_CLONE in
  Ok (Bytes (crop2 (h, - h) (w, - w) blended)).

(** The [else] branch of [apply_fixes]: the linear blend. *)
Definition linear_blend (frame image_mask masked : pixels) : result blended_buffer :=
  foreground <- elementwise F32.mul masked image_mask ;;
  background <- elementwise F32.mul frame (map3 (F32.sub F32.one) image_mask) ;;
  blended <- elementwise F32.add foreground background ;;
  Ok (Floats blended).

(** [np.clip(blended, 0.0, 255.0, out=blended)] and
    [np.rint(blended).astype('uint8')]; both leave 8-bit values as they
    are. *)
Definition to_frame (b : blended_buffer) : arr3 Z :=
  match b with
  | Bytes b => b
  | Floats b => astype_uint8 nan_byte (np_rint (np_clip b F32.zero f32_255))
  end.

(** [apply_fixes] up to the value of [blended].  [masked] is bound to the
    three-channel [new_image] before the alpha channel is appended. *)
Definition apply_fixes_blended (a : Arguments) (frame new_image image_mask : pixels)
           (image_size : Z * Z) : result blended_buffer :=
  let masked := new_image in
  '(new_image, image_mask, frame) <-
    (if draw_transparent a then
       let alpha := np_full (snd image_size) (fst image_size) 1 f32_255 in
       new_image <- np_concatenate [PyArray new_image; PyArray alpha] [("axis", 2)] ;;
       image_mask <- np_concatenate [PyArray image_mask; PyArray alpha] [("axis", 2)] ;;
       frame <- np_concatenate [PyArray frame; PyArray alpha] [("axis", 2)] ;;
       Ok (new_image, image_mask, frame)
     else Ok (new_image, image_mask, frame)) ;;
  let masked := sharpen (sharpen_image a) masked in
  masked <- color_correct a frame image_mask masked ;;
  if seamless_clone a && negb (draw_transparent a)
  then seamless frame image_mask masked
  else linear_blend frame image_mask masked.

(** [Convert.apply_fixes]. *)
Definition apply_fixes (a : Arguments) (frame new_image image_mask : pixels)
           (image_size : Z * Z) : result (arr3 Z) :=
  blended <- apply_fixes_blended a frame new_image image_mask image_size ;;
  Ok (to_frame blended).

(** [np.sqrt(np.sum(mask)) / 2]: the sum and the root are float32, the
    quotient by the Python integer is float64. *)
Definition mask_radius (mask : pixels) : f64 :=
  F64.div (f32_to_f64 (F32.sqrt (np_sum mask))) (F64.of_Z 2).

(** [Convert.set_erosion_kernel]. *)
Definition set_erosion_kernel (self : ConvertState) (mask : pixels) : result (arr2 Z) :=
  let erosion_ratio := F64.div (F64.of_Z (erosion_size (args self))) (F64.of_Z 100) in
  n <- py_int (SFabs (F64.mul erosion_ratio (mask_radius mask))) ;;
  let percent_erode := Z.max 1 n in
  Ok (cv2_getStructuringElement MORPH_ELLIPSE (percent_erode, percent_erode)).

(** [Convert.set_blur_size]. *)
Definition set_blur_size (self : ConvertState) (mask : pixels) : result Z :=
  let blur_ratio := F64.div (F64.of_Z (blur_size (args self))) (F64.of_Z 100) in
  n <- py_int (F64.mul blur_ratio (mask_radius mask)) ;;
  Ok (Z.max 1 n).

(** [Convert.get_image_mask]. *)
Definition get_image_mask (self : ConvertState) (mat : matrix) (interpolators : Z * Z)
           (landmarks : DetectedFace) : result pixels :=
  match mask self with
  | None => raise AttributeError "Convert.get_image_mask"
  | Some m =>
      mask <- Mask.get_mask m mat interpolators landmarks ;;
      mask <- (if erosion_size (args self) =? 0 then Ok mask
               else
                 kernel <- set_erosion_kernel self mask ;;
                 if 0 <? erosion_size (args self)
                 then Ok (cv2_erode mask kernel 1)
                 else Ok (cv2_dilate mask kernel 1)) ;;
      mask <- (if blur_size (args self) =? 0 then Ok mask
               else
                 blur_size <- set_blur_size self mask ;;
                 Ok (cv2_blur mask (blur_size, blur_size))) ;;
      Ok (np_clip mask F32.zero F32.one)
  end.

(** The first part of [get_new_image], up to
    [np.clip(new_face * 255.0, 0.0, 255.0, out=new_face)]: the patch that is
    written back.  [self.encoder(feed)[0].squeeze()] is the one image of the
    first output batch. *)
Definition synthesize (self : ConvertState) (c : Z * Z) (src_face : pixels)
           (interpolators : Z * Z) (coverage : Z) : result pixels :=
  let coverage_face := crop2 c c src_face in
  let coverage_face :=
    cv2_resize coverage_face (input_size self, input_size self) (fst interpolators) in
  let coverage_face :=
    map3 (fun v => clip1 F32.zero F32.one (F32.div v f32_255)) coverage_face in
  let feed :=
    match input_mask_shape self with
    | Some (mh, mw, mc) => [[coverage_face]; [np_zeros mh mw mc]]
    | None => [[coverage_face]]
    end in
  match encoder feed with
  | [] => raise IndexError "list.__getitem__"
  | [new_face] :: _ =>
      let new_face := cv2_resize new_face (coverage, coverage) INTER_CUBIC in
      Ok (map3 (fun v => clip1 F32.zero f32_255 (F32.mul v f32_255)) new_face)
  | _ :: _ => raise CvError "cv2.resize"
  end.

(** [Convert.get_new_image].  [src_face] is the buffer
    [detected_face.aligned["face"]] itself, and the assignment
    [src_face[self.crop, self.crop] = new_face] writes into it: the
    function returns the face as it is left, and the new image. *)
Definition get_new_image (self : ConvertState) (image : pixels)
           (detected_face : DetectedFace) (mat : matrix) (interpolators : Z * Z)
           (coverage : Z) : DetectedFace * result pixels :=
  let src_face := aligned_face detected_face in
  match crop self with
  | None => (detected_face, raise CvError "cv2.resize")
  | Some c =>
      match new_face <- synthesize self c src_face interpolators coverage ;;
            assign_crop c new_face src_face with
      | Raised e => (detected_face, Raised e)
      | Ok src_face =>
          let background := image in
          let dims := frame_dims detected_face in
          (set_aligned_face detected_face src_face,
           Ok (cv2_warpAffine src_face mat (snd dims, fst dims) background
                              (Z.lor WARP_INVERSE_MAP (snd interpolators))
                              BORDER_TRANSPARENT))
      end
  end.

(** [matrix = aligned["matrix"] * scale; matrix[:, 2] += padding]: a new
    array, the matrix of the face is not written. *)
Definition scale_matrix (m : matrix) (scale padding : Z) : result matrix :=
  let scaled := map (map (fun v => F64.mul v (F64.of_Z scale))) m in
  if forallb (fun row => (2 <? List.length row)%nat) scaled
  then Ok (map (fun row => update row 2 (F64.add (nth 2 row F64.zero) (F64.of_Z padding)))
               scaled)
  else raise IndexError "numpy.ndarray.__getitem__".

(** [Convert.patch_image]: the converter and the face as they are left,
    and the patched frame.  [image] is the frame already as float32
    ([image.astype('float32')]); the log messages are left out. *)
Definition patch_image (self : ConvertState) (image : pixels) (face_detected : DetectedFace)
  : ConvertState * DetectedFace * result (arr3 Z) :=
  match coverage_of self with
  | Raised e => (self, face_detected, Raised e)
  | Ok coverage =>
      let padding := padding_of self coverage in
      let c := (padding, training_size self - padding) in
      let self := set_crop self c in
      let self :=
        match mask self with
        | None => set_mask self {| mask_training_size := training_size self;
                                   mask_padding := padding;
                                   mask_mask_type := mask_type (args self);
                                   mask_crop := c |}
        | Some _ => self
        end in
      let face_detected := load_aligned image (training_size self) false face_detected in
      match scale_matrix (aligned_matrix face_detected)
                         (training_size self - 2 * padding) padding with
      | Raised e => (self, face_detected, Raised e)
      | Ok matrix =>
          let interpolators := get_matrix_scaling matrix in
          let '(face_detected, new_image) :=
            get_new_image self image face_detected matrix interpolators coverage in
          (self, face_detected,
           new_image <- new_image ;;
           image_mask <- get_image_mask self matrix interpolators face_detected ;;
           apply_fixes (args self) image new_image image_mask
                       (snd (frame_dims face_detected), fst (frame_dims face_detected)))
      end
  end.
End Methods.
End Convert.

(** ** Concrete collaborators

    An OpenCV whose image operations return their input buffer (for the
    warps and the drawing functions: the destination buffer) unchanged, and
    a model that answers every input patch with a white patch.  They serve
    to run the converter on concrete frames. *)

#[local] Instance still_cv : OpenCV := {
  cv2_resize := fun a _ _ => a;
  cv2_warpAffine := fun _ _ _ dst _ _ => dst;
  cv2_GaussianBlur := fun a _ _ => a;
  cv2_filter2D := fun a _ => a;
  cv2_addWeighted := fun a _ _ _ _ => a;
  cv2_getStructuringElement := fun _ _ => [[1]];
  cv2_erode := fun a _ _ => a;
  cv2_dilate := fun a _ _ => a;
  cv2_blur := fun a _ => a;
  cv2_seamlessClone := fun _ dst _ _ _ => dst;
  cv2_convexHull := fun p => p;
  cv2_fillConvexPoly := fun a _ _ _ => a;
  cv2_fitEllipse := fun _ => ((F64.zero, F64.zero), (F64.zero, F64.zero), F64.zero);
  cv2_ellipse := fun a _ _ _ => a
}.

Definition white_model (nan : Z) : Collaborators := {|
  encoder := map (map (map3 (fun _ => F32.one)));
  get_matrix_scaling := fun _ => (INTER_CUBIC, 3);
  dfl_full := fun _ dummy _ => dummy;
  load_aligned := fun _ _ _ face => face;
  nan_byte := nan
|}.

(** Buffers of one colour. *)
Definition gray (h w c : Z) (v : Z) : pixels := np_full h w c (F32.of_Z v).

Definition plain_args : Arguments := {|
  mask_type := "rect"; erosion_size := 0; blur_size := 0; sharpen_image := None;
  avg_color_adjust := false; match_histogram := false;
  seamless_clone := false; draw_transparent := false
|}.

(** ** Vocabulary of the statements *)

(** No entry of the array is non-zero. *)
Definition all_zero2 (m : arr2 f32) : Prop := Forall (Forall (fun v => nonzero v = false)) m.

Definition all_zero3 (m : pixels) : Prop := Forall all_zero2 m.

(** An error that a check of [apply_fixes] itself would report. *)
Definition rejected_by_apply_fixes {A} (r : result A) : Prop :=
  exists e, r = Raised e /\ raised_in e = "Convert.apply_fixes".

(** A finite value between 0 and 1. *)
Definition in_unit (v : f32) : Prop :=
  is_finite v = true /\ SFleb F32.zero v = true /\ SFleb v F32.one = true.

(** The buffer has shape [(h, w, c)]. *)
Definition has_shape {A} (h w c : nat) (a : arr3 A) : Prop :=
  List.length a = h /\
  Forall (fun row => List.length row = w /\ Forall (fun px => List.length px = c) row) a.

(** The entry at row [y], column [x], channel [c]. *)
Definition get2 {A} (a : list (list A)) (y x : nat) : option A :=
  match nth_error a y with
  | Some row => nth_error row x
  | None => None
  end.

Definition get3 {A} (a : arr3 A) (y x c : nat) : option A :=
  match get2 a y x with
  | Some px => nth_error px c
  | None => None
  end.

(** A zero of either sign, or NaN. *)
Definition zero_or_nan (v : f32) : Prop :=
  match v with
  | S754_zero _ | S754_nan => True
  | _ => False
  end.

(** The mask has no non-zero pixel in channel [c]. *)
Definition channel_empty (c : nat) (image_mask : pixels) : Prop :=
  all_zero2 (channel c image_mask).

(** Channel [c] is NaN at every pixel. *)
Definition nan_channel (c : nat) (a : pixels) : Prop :=
  Forall (Forall (fun px => nth_error px c = Some S754_nan)) a.

(** The blend of one entry, and its conversion to a byte. *)
Definition blend1 (s m f : f32) : f32 :=
  F32.add (F32.mul s m) (F32.mul f (F32.sub F32.one m)).

Definition quantize (nan : Z) (v : f32) : Z :=
  to_uint8 nan (rint1 (clip1 F32.zero f32_255 v)).

(** [round(x)] of a Python float: the nearest integer, ties to even. *)
Definition py_round (x : f64) : Z :=
  match x with
  | S754_finite s m e =>
      cond_Zopp s (if 0 <=? e then Zpos m * 2 ^ e
                   else round_half_even (Zpos m) (2 ^ (- e)))
  | _ => 0
  end.

(** A value of a mask: a float32 between 0 and 1. *)
Definition unit_value (v : f32) : Prop := F32.valid v = true /\ in_unit v.

(** Finalization of one value. *)
Definition finalize1 (v : f32) : f32 := clip1 F32.zero F32.one (nan_to_num1 v).

(** A value of the rectangle against a value of the hull: both are mask
    values, or the hull value is 0 or 1 and the other is any float32. *)
Definition mask_pair (r f : f32) : Prop :=
  (unit_value r /\ unit_value f)
  \/ (F32.valid r = true /\ (f = F32.zero \/ f = F32.one)).

(** The mask object with another algorithm selected. *)
Definition with_mask_type (self : MaskState) (name : string) : MaskState :=
  {| mask_training_size := mask_training_size self;
     mask_padding := mask_padding self;
     mask_mask_type := name;
     mask_crop := mask_crop self |}.

(** Normal form of a rounded mantissa [m2 <= 2 ^ prec] at exponent [e1]. *)
Definition normal_form (prec emax : Z) (s : bool) (m2 e1 : Z) : spec_float :=
  if m2 =? 0 then S754_zero s
  else if m2 <? 2 ^ prec then
    if e1 <=? emax - prec then S754_finite s (Z.to_pos m2) e1 else S754_infinity s
  else
    if e1 + 1 <=? emax - prec then S754_finite s (Z.to_pos (m2 / 2)) (e1 + 1)
    else S754_infinity s.

(** ** Concrete inputs *)

(** Channels of 2x2 pixels. *)
Definition channel_1234 : arr2 f32 :=
  [[F32.of_Z 1; F32.of_Z 2]; [F32.of_Z 3; F32.of_Z 4]].

Definition channel_9876 : arr2 f32 :=
  [[F32.of_Z 9; F32.of_Z 8]; [F32.of_Z 7; F32.of_Z 6]].

Definition zeros_2x2 : arr2 f32 := [[F32.zero; F32.zero]; [S754_zero true; F32.zero]].

Definition ones_2x2 : arr2 f32 := [[F32.one; F32.one]; [F32.one; F32.one]].

Definition clone_args : Arguments := {|
  mask_type := "rect"; erosion_size := 0; blur_size := 0; sharpen_image := None;
  avg_color_adjust := false; match_histogram := false;
  seamless_clone := true; draw_transparent := false
|}.

Definition avg_args : Arguments := {|
  mask_type := "rect"; erosion_size := 0; blur_size := 0; sharpen_image := None;
  avg_color_adjust := true; match_histogram := false;
  seamless_clone := false; draw_transparent := false
|}.

(** A 1x2 frame whose mask is empty in the first channel only. *)
Definition mask_without_red : pixels :=
  [[[F32.zero; F32.one; F32.one]; [F32.zero; F32.one; F32.one]]].

Definition half_mask : pixels := [[[F32.one]; [F32.zero]]].

Definition convert_of (size : Z) (ratio : f64) : ConvertState := {|
  args := plain_args; input_size := size; training_size := size;
  training_coverage_ratio := ratio; input_mask_shape := None;
  crop := None; mask := None
|}.

(** 0.625, the ratio of the reference scenario. *)
Definition ratio_0625 : f64 := Eval cbv in F64.div (F64.of_Z 5) (F64.of_Z 8).

(** 0.7 and 1/128 as Python reads them. *)
Definition ratio_07 : f64 := Eval cbv in F64.div (F64.of_Z 7) (F64.of_Z 10).

Definition ratio_128th : f64 := Eval cbv in F64.div (F64.of_Z 1) (F64.of_Z 128).

(** An OpenCV that paints its destination buffer with one value: 1/2 for
    the warp of the rectangle and 3/4 for the hull. *)
Definition f32_half : f32 := Eval cbv in F32.div (F32.of_Z 1) (F32.of_Z 2).

Definition f32_three_quarters : f32 := Eval cbv in F32.div (F32.of_Z 3) (F32.of_Z 4).

Definition painting_cv : OpenCV := {|
  cv2_resize := fun a _ _ => a;
  cv2_warpAffine := fun _ _ _ dst _ _ => map3 (fun _ => f32_half) dst;
  cv2_GaussianBlur := fun a _ _ => a;
  cv2_filter2D := fun a _ => a;
  cv2_addWeighted := fun a _ _ _ _ => a;
  cv2_getStructuringElement := fun _ _ => [[1]];
  cv2_erode := fun a _ _ => a;
  cv2_dilate := fun a _ _ => a;
  cv2_blur := fun a _ => a;
  cv2_seamlessClone := fun _ dst _ _ _ => dst;
  cv2_convexHull := fun p => p;
  cv2_fillConvexPoly := fun a _ _ _ => map3 (fun _ => f32_three_quarters) a;
  cv2_fitEllipse := fun _ => ((F64.zero, F64.zero), (F64.zero, F64.zero), F64.zero);
  cv2_ellipse := fun a _ _ _ => a
|}.

Definition identity_matrix : matrix :=
  [[F64.one; F64.zero; F64.zero]; [F64.zero; F64.one; F64.zero]].

Definition small_face : DetectedFace := {|
  aligned_matrix := identity_matrix;
  aligned_face := gray 4 4 3 10;
  landmarks_as_xy := [(0, 0); (3, 0); (3, 3); (0, 3)];
  frame_dims := (1, 2)
|}.

Definition small_mask : MaskState := {|
  mask_training_size := 4; mask_padding := 1;
  mask_mask_type := "facehull_rect"; mask_crop := (1, 3)
|}.

(** A 4x4 aligned crop of value 10 in a 4x4 frame of value 20, a model
    trained at size 4 with coverage ratio 1/2. *)
Definition face_4x4 : DetectedFace := {|
  aligned_matrix := identity_matrix;
  aligned_face := gray 4 4 3 10;
  landmarks_as_xy := [(0, 0); (3, 0); (3, 3); (0, 3)];
  frame_dims := (4, 4)
|}.

Definition convert_4x4 : ConvertState := {|
  args := plain_args; input_size := 2; training_size := 4;
  training_coverage_ratio := f32_to_f64 f32_half; input_mask_shape := None;
  crop := None; mask := None
|}.

Definition patched_4x4 :=
  Convert.patch_image (cv := still_cv) (ext := white_model 0)
                      convert_4x4 (gray 4 4 3 20) face_4x4.

(** ** Further vocabulary and inputs *)

(** NaN, or a value between [lo] and [hi]. *)
Definition nan_or_between (lo hi v : f32) : Prop :=
  is_nan v = true \/ (SFleb lo v = true /\ SFleb v hi = true).

(** Half the height and half the width of a frame, as [apply_fixes]
    computes them for the padding of the seamless clone. *)
Definition half_height (frame : pixels) : Z := Z.of_nat (List.length frame) / 2.

Definition half_width (frame : pixels) : Z := Z.of_nat (List.length (hd [] frame)) / 2.

(** An OpenCV whose [resize] returns an image of the size that is asked
    for, of three channels, filled with the value 1; the other operations
    are those of [still_cv]. *)
Definition sizing_cv : OpenCV := {|
  cv2_resize := fun _ dsize _ => np_full (snd dsize) (fst dsize) 3 F32.one;
  cv2_warpAffine := fun _ _ _ dst _ _ => dst;
  cv2_GaussianBlur := fun a _ _ => a;
  cv2_filter2D := fun a _ => a;
  cv2_addWeighted := fun a _ _ _ _ => a;
  cv2_getStructuringElement := fun _ _ => [[1]];
  cv2_erode := fun a _ _ => a;
  cv2_dilate := fun a _ _ => a;
  cv2_blur := fun a _ => a;
  cv2_seamlessClone := fun _ dst _ _ _ => dst;
  cv2_convexHull := fun p => p;
  cv2_fillConvexPoly := fun a _ _ _ => a;
  cv2_fitEllipse := fun _ => ((F64.zero, F64.zero), (F64.zero, F64.zero), F64.zero);
  cv2_ellipse := fun a _ _ _ => a
|}.

(** A model trained at size 5 with coverage ratio 1/2: the coverage is 2
    and the margin 5 - 2 is odd. *)
Definition face_5x5 : DetectedFace := {|
  aligned_matrix := identity_matrix;
  aligned_face := gray 5 5 3 10;
  landmarks_as_xy := [(0, 0); (4, 0); (4, 4); (0, 4)];
  frame_dims := (5, 5)
|}.

Definition convert_5x5 : ConvertState := {|
  args := plain_args; input_size := 2; training_size := 5;
  training_coverage_ratio := f32_to_f64 f32_half; input_mask_shape := None;
  crop := None; mask := None
|}.

(** A converter that has a mask object, with erosion and blur off. *)
Definition convert_with_mask : ConvertState := set_mask convert_4x4 small_mask.

(** Every pixel has at least [n] channels. *)
Definition has_channels (n : nat) (a : pixels) : Prop :=
  Forall (Forall (fun px => (n <= List.length px)%nat)) a.

(** A 2x2 channel mask whose only non-zero entry is the last one. *)
Definition corner_mask : arr2 f32 := [[F32.zero; F32.zero]; [F32.zero; F32.one]].

(** The channel has [h] rows of [w] entries. *)
Definition has_shape2 {A} (h w : nat) (a : arr2 A) : Prop :=
  List.length a = h /\ Forall (fun row => List.length row = w) a.

(** Both colour corrections switched on. *)
Definition correcting_args : Arguments := {|
  mask_type := "rect"; erosion_size := 0; blur_size := 0; sharpen_image := None;
  avg_color_adjust := true; match_histogram := true;
  seamless_clone := false; draw_transparent := false
|}.

(** The non-zero entries of the mask lie in the rows [y0] to [y1] and in
    the columns [x0] to [x1], and each of the four bounds is reached. *)
Definition bounding_box (image_mask : pixels) (y0 y1 x0 x1 : nat) : Prop :=
  (forall y x c v, get3 image_mask y x c = Some v -> nonzero v = true ->
                   (y0 <= y <= y1)%nat /\ (x0 <= x <= x1)%nat)
  /\ (exists x c v, get3 image_mask y0 x c = Some v /\ nonzero v = true)
  /\ (exists x c v, get3 image_mask y1 x c = Some v /\ nonzero v = true)
  /\ (exists y c v, get3 image_mask y x0 c = Some v /\ nonzero v = true)
  /\ (exists y c v, get3 image_mask y x1 c = Some v /\ nonzero v = true).

(** A 5x5 mask of three channels that is 1 on the 3x3 pixels of its centre
    and 0 on its border. *)
Definition centred_mask : pixels := np_pad F32.zero 1 1 (np_full 3 3 3 F32.one).

(** A 3x3 mask of one channel whose non-zero entries fill the rows 0 and 1
    of the columns 1 and 2. *)
Definition block_mask : pixels :=
  [[[F32.zero]; [F32.one]; [F32.one]];
   [[F32.zero]; [F32.one]; [F32.one]];
   [[F32.zero]; [F32.zero]; [F32.zero]]].

(** A float that is not above zero: NaN, a zero, or a float with the sign
    bit set; and a float that is not below zero. *)
Definition not_positive (x : spec_float) : Prop :=
  match x with
  | S754_nan | S754_zero _ => True
  | S754_infinity s | S754_finite s _ _ => s = true
  end.

Definition not_negative (x : spec_float) : Prop :=
  match x with
  | S754_nan | S754_zero _ => True
  | S754_infinity s | S754_finite s _ _ => s = false
  end.

(** A converter with the erosion size [e] and the blur size [b]. *)
Definition convert_sized (e b : Z) : ConvertState := {|
  args := {| mask_type := "rect"; erosion_size := e; blur_size := b;
             sharpen_image := None; avg_color_adjust := false;
             match_histogram := false; seamless_clone := false;
             draw_transparent := false |};
  input_size := 2; training_size := 4;
  training_coverage_ratio := f32_to_f64 f32_half; input_mask_shape := None;
  crop := None; mask := None
|}.

(** An OpenCV whose structuring element shows the side it is asked for;
    the other operations are those of [still_cv]. *)
Definition measuring_cv : OpenCV := {|
  cv2_resize := fun a _ _ => a;
  cv2_warpAffine := fun _ _ _ dst _ _ => dst;
  cv2_GaussianBlur := fun a _ _ => a;
  cv2_filter2D := fun a _ => a;
  cv2_addWeighted := fun a _ _ _ _ => a;
  cv2_getStructuringElement := fun _ ksize => [[fst ksize; snd ksize]];
  cv2_erode := fun a _ _ => a;
  cv2_dilate := fun a _ _ => a;
  cv2_blur := fun a _ => a;
  cv2_seamlessClone := fun _ dst _ _ _ => dst;
  cv2_convexHull := fun p => p;
  cv2_fillConvexPoly := fun a _ _ _ => a;
  cv2_fitEllipse := fun _ => ((F64.zero, F64.zero), (F64.zero, F64.zero), F64.zero);
  cv2_ellipse := fun a _ _ _ => a
|}.

(** * Properties *)

(** ** The empty mask *)

Lemma flat_mapi_nil {A B} (f : nat -> A -> list B) (l : list A) :
  Forall (fun a => forall i, f i a = []) l -> forall i, flat_mapi f i l = [].
Proof.
  induction 1 as [|a l Ha _ IH]; intros i; simpl.
  - reflexivity.
  - now rewrite Ha, IH.
Qed.

Lemma np_nonzero2_zero m : all_zero2 m -> np_nonzero2 m = [].
Proof.
  intros H. apply flat_mapi_nil.
  eapply Forall_impl; [|exact H]. intros row Hrow y.
  apply flat_mapi_nil.
  eapply Forall_impl; [|exact Hrow]. intros v Hv x. now rewrite Hv.
Qed.

Lemma np_nonzero3_zero m : all_zero3 m -> np_nonzero3 m = [].
Proof.
  intros H. apply flat_mapi_nil.
  eapply Forall_impl; [|exact H]. intros row Hrow y.
  apply flat_mapi_nil.
  eapply Forall_impl; [|exact Hrow]. intros px Hpx x.
  apply flat_mapi_nil.
  eapply Forall_impl; [|exact Hpx]. intros v Hv c. now rewrite Hv.
Qed.

(** [hist_match] returns at once when [np.nonzero] finds nothing. *)
Lemma hist_match_early_return (new frame image_mask : arr2 f32) :
  np_nonzero2 image_mask = [] ->
  Convert.hist_match new frame image_mask = Ok new.
Proof. intros H. unfold Convert.hist_match. now rewrite H. Qed.

(** C8.  A channel whose mask has no non-zero pixel is returned by
    [hist_match] as it came in: the call is a no-op, not an error. *)
Theorem hist_match_empty_mask_noop (new frame image_mask : arr2 f32) :
  all_zero2 image_mask ->
  Convert.hist_match new frame image_mask = Ok new.
Proof.
  intros H. apply hist_match_early_return. now apply np_nonzero2_zero.
Qed.

Lemma hist_match_empty_mask_noop_witness :
  all_zero2 zeros_2x2
  /\ Convert.hist_match channel_1234 channel_9876 zeros_2x2 = Ok channel_1234.
Proof.
  assert (H : all_zero2 zeros_2x2) by (repeat constructor).
  split; [exact H | exact (hist_match_empty_mask_noop channel_1234 channel_9876 _ H)].
Defined.

(** ** The transparent background *)

(** C7.  With [draw_transparent] enabled [apply_fixes] appends no alpha
    channel: the first call [np.concatenate(new_image, alpha, axis=2)]
    binds [axis] twice and raises [TypeError], whatever the other options
    and the buffers are. *)
Theorem apply_fixes_draw_transparent_raises
        {cv : OpenCV} {ext : Collaborators}
        (mt : string) (es bs : Z) (sharpen : option string) (avg hist clone : bool)
        (frame new_image image_mask : pixels) (image_size : Z * Z) :
  Convert.apply_fixes
    {| mask_type := mt; erosion_size := es; blur_size := bs; sharpen_image := sharpen;
       avg_color_adjust := avg; match_histogram := hist;
       seamless_clone := clone; draw_transparent := true |}
    frame new_image image_mask image_size
  = Raised (Exn TypeError "numpy.concatenate").
Proof. reflexivity. Qed.

(** The call as it should have been written joins the two buffers. *)
Example np_concatenate_tuple :
  np_concatenate [PyTuple [gray 1 1 3 7; np_full 1 1 1 f32_255]] [("axis", 2)]
  = Ok [[[F32.of_Z 7; F32.of_Z 7; F32.of_Z 7; f32_255]]].
Proof. reflexivity. Qed.

(** ** The seamless clone on an empty mask *)

Section EmptyMaskClone.
Context {cv : OpenCV} {ext : Collaborators}.

Lemma seamless_empty_mask (frame image_mask masked : pixels) :
  all_zero3 image_mask ->
  Convert.seamless frame image_mask masked = Raised (Exn ValueError "numpy.amin").
Proof.
  intros H. unfold Convert.seamless. rewrite (np_nonzero3_zero _ H). reflexivity.
Qed.

(** C1 (as the code has it).  With [seamless_clone] on, [draw_transparent]
    off and a mask without non-zero pixel, [apply_fixes] is the colour
    correction followed by the [ValueError] that [np.min] raises on the
    empty index array, in the computation of the bounding box: the frame
    fails before [cv2.seamlessClone] is called, and no check of
    [apply_fixes] is involved. *)
Theorem apply_fixes_empty_mask_clone
        (a : Arguments) (frame new_image image_mask : pixels) (image_size : Z * Z) :
  seamless_clone a = true ->
  draw_transparent a = false ->
  all_zero3 image_mask ->
  Convert.apply_fixes a frame new_image image_mask image_size
  = (_ <- Convert.color_correct a frame image_mask
                                (Convert.sharpen (sharpen_image a) new_image) ;;
     Raised (Exn ValueError "numpy.amin")).
Proof.
  intros Hs Hd Hz.
  unfold Convert.apply_fixes, Convert.apply_fixes_blended.
  rewrite Hs, Hd. simpl.
  destruct (Convert.color_correct a frame image_mask
              (Convert.sharpen (sharpen_image a) new_image)) as [masked|e]; simpl.
  - now rewrite (seamless_empty_mask frame image_mask masked Hz).
  - reflexivity.
Qed.
End EmptyMaskClone.

Lemma apply_fixes_empty_mask_clone_witness :
  all_zero3 (np_zeros 2 2 3) /\
  Convert.apply_fixes (cv := still_cv) (ext := white_model 0) clone_args
                      (gray 2 2 3 5) (gray 2 2 3 9) (np_zeros 2 2 3) (2, 2)
  = Raised (Exn ValueError "numpy.amin").
Proof.
  assert (H : all_zero3 (np_zeros 2 2 3)) by (repeat constructor).
  split; [exact H|].
  exact (apply_fixes_empty_mask_clone (cv := still_cv) (ext := white_model 0) clone_args
           (gray 2 2 3 5) (gray 2 2 3 9) (np_zeros 2 2 3) (2, 2) eq_refl eq_refl H).
Defined.

(** C1 (as stated) fails: the error of an empty mask comes out of
    [np.min], not out of a check of [apply_fixes]. *)
Lemma apply_fixes_empty_mask_not_checked :
  ~ rejected_by_apply_fixes
      (Convert.apply_fixes (cv := still_cv) (ext := white_model 0) clone_args
                           (gray 2 2 3 5) (gray 2 2 3 9) (np_zeros 2 2 3) (2, 2)).
Proof.
  intros [e [He Hin]]. vm_compute in He. inversion He; subst e. discriminate Hin.
Qed.

(** ** Histogram matching of an image with itself *)

(** C3 (failing input).  The same 2x2 channel on both sides and a full
    mask: the distributions are identical, yet [hist_match] returns
    [[3, 4], [3, 4]] for [[1, 2], [3, 4]].  [put] takes its indices as
    positions in the flattened array, so the row numbers and the column
    numbers of the masked pixels are what is written to. *)
Theorem hist_match_same_image_not_identity :
  Convert.hist_match channel_1234 channel_1234 ones_2x2
  = Ok [[F32.of_Z 3; F32.of_Z 4]; [F32.of_Z 3; F32.of_Z 4]]
  /\ Convert.hist_match channel_1234 channel_1234 ones_2x2 <> Ok channel_1234.
Proof.
  split; [vm_compute; reflexivity | vm_compute; discriminate].
Qed.

(** ** Order on floats *)

Lemma CompOpp_compare_cont (m1 m2 : positive) :
  Pos.compare_cont Eq m2 m1 = CompOpp (Pos.compare_cont Eq m1 m2).
Proof. exact (Pos.compare_antisym m1 m2). Qed.

(** Swapping the operands of a comparison reverses its outcome. *)
Lemma SFcompare_swap (x y : spec_float) :
  SFcompare y x = option_map CompOpp (SFcompare x y).
Proof.
  destruct x as [sx|sx| |sx mx ex], y as [sy|sy| |sy my ey]; simpl;
    try reflexivity;
    try (destruct sx; reflexivity); try (destruct sy; reflexivity);
    try (destruct sx, sy; reflexivity).
  destruct sx, sy; simpl; try reflexivity;
    rewrite (Z.compare_antisym ex ey); destruct (ex ?= ey)%Z; simpl;
    try reflexivity; rewrite CompOpp_compare_cont;
    destruct (Pos.compare_cont Eq mx my); reflexivity.
Qed.

Lemma SFltb_false_SFleb (x y : spec_float) :
  is_nan x = false -> is_nan y = false -> SFltb x y = false -> SFleb y x = true.
Proof.
  unfold SFltb, SFleb. rewrite (SFcompare_swap x y).
  destruct x as [sx|sx| |sx mx ex], y as [sy|sy| |sy my ey]; try discriminate;
    intros _ _; destruct (SFcompare _ _) as [[]|] eqn:E; simpl;
    try reflexivity; try discriminate; simpl in E;
    repeat match goal with
           | s : bool |- _ => destruct s; try discriminate
           end.
Qed.

(** ** Finalization of a mask *)

Lemma nan_to_num1_finite (v : f32) : is_finite (nan_to_num1 v) = true.
Proof. destruct v as [s|[]| |s m e]; reflexivity. Qed.

Lemma clip1_unit (v : f32) :
  is_finite v = true -> in_unit (clip1 F32.zero F32.one v).
Proof.
  intros Hf. unfold clip1.
  destruct (SFltb v F32.zero) eqn:Hlo.
  - repeat split.
  - destruct (SFltb F32.one v) eqn:Hhi.
    + repeat split.
    + assert (Hn : is_nan v = false) by (destruct v; try reflexivity; discriminate).
      repeat split; [exact Hf| |].
      * apply SFltb_false_SFleb; auto.
      * apply SFltb_false_SFleb; auto.
Qed.

Lemma finalize_mask_pointwise (mask : pixels) :
  Mask.finalize_mask mask
  = map3 (fun v => clip1 F32.zero F32.one (nan_to_num1 v)) mask.
Proof.
  unfold Mask.finalize_mask, np_clip, np_nan_to_num, map3.
  rewrite map_map. apply map_ext; intros row.
  rewrite map_map. apply map_ext; intros px.
  now rewrite map_map.
Qed.



(** ** Shapes and entries of buffers *)

Section ListFacts.
Context {A B C : Type}.

Lemma zip_with_length (f : A -> B -> C) l1 l2 :
  List.length l1 = List.length l2 ->
  List.length (zip_with f l1 l2) = List.length l1.
Proof.
  revert l2; induction l1 as [|a l1 IH]; intros [|b l2]; simpl; try discriminate; auto.
Qed.

Lemma nth_error_zip_with (f : A -> B -> C) l1 l2 i :
  nth_error (zip_with f l1 l2) i
  = match nth_error l1 i, nth_error l2 i with
    | Some a, Some b => Some (f a b)
    | _, _ => None
    end.
Proof.
  revert l2 i; induction l1 as [|a l1 IH]; intros [|b l2] [|i]; simpl; auto.
  - destruct (nth_error l1 i); reflexivity.
Qed.

Lemma Forall_zip_with (P : A -> Prop) (Q : B -> Prop) (R : C -> Prop)
      (f : A -> B -> C) l1 l2 :
  (forall a b, P a -> Q b -> R (f a b)) ->
  Forall P l1 -> Forall Q l2 -> Forall R (zip_with f l1 l2).
Proof.
  intros Hf H1; revert l2; induction H1 as [|a l1 Ha _ IH]; intros l2 H2; simpl.
  - constructor.
  - destruct H2 as [|b l2 Hb H2]; constructor; auto.
Qed.

Lemma zip_with_map_r (f : A -> B -> C) (g : A -> B) l :
  zip_with f l (map g l) = map (fun a => f a (g a)) l.
Proof. induction l as [|a l IH]; simpl; [reflexivity | now rewrite IH]. Qed.

Lemma nth_error_update (l : list A) i j v :
  nth_error (update l i v) j
  = if (i =? j)%nat then match nth_error l j with Some _ => Some v | None => None end
    else nth_error l j.
Proof.
  revert i j; induction l as [|a l IH]; intros [|i] [|j]; simpl; auto.
  - destruct (i =? j)%nat; reflexivity.
Qed.

Lemma update_length (l : list A) i v : List.length (update l i v) = List.length l.
Proof. revert i; induction l as [|a l IH]; intros [|i]; simpl; auto. Qed.
End ListFacts.

Lemma get2_map {A B} (f : A -> B) (a : list (list A)) y x :
  get2 (map (map f) a) y x = option_map f (get2 a y x).
Proof.
  unfold get2. rewrite nth_error_map. destruct (nth_error a y) as [row|]; simpl; auto.
  apply nth_error_map.
Qed.

Lemma get3_map3 {A B} (f : A -> B) (a : arr3 A) y x c :
  get3 (map3 f a) y x c = option_map f (get3 a y x c).
Proof.
  unfold get3, map3. rewrite get2_map. destruct (get2 a y x) as [px|]; simpl; auto.
  apply nth_error_map.
Qed.

Lemma get2_zip_with {A B C} (f : A -> B -> C) (a : list (list A)) (b : list (list B)) y x :
  get2 (zip_with (zip_with f) a b) y x
  = match get2 a y x, get2 b y x with
    | Some u, Some v => Some (f u v)
    | _, _ => None
    end.
Proof.
  unfold get2. rewrite nth_error_zip_with.
  destruct (nth_error a y) as [ra|], (nth_error b y) as [rb|]; auto.
  - apply nth_error_zip_with.
  - destruct (nth_error ra x); reflexivity.
Qed.

Lemma get3_zip_with3 {A B C} (f : A -> B -> C) (a : arr3 A) (b : arr3 B) y x c :
  get3 (zip_with3 f a b) y x c
  = match get3 a y x c, get3 b y x c with
    | Some u, Some v => Some (f u v)
    | _, _ => None
    end.
Proof.
  unfold get3, zip_with3. rewrite get2_zip_with.
  destruct (get2 a y x) as [pa|], (get2 b y x) as [pb|]; auto.
  - apply nth_error_zip_with.
  - destruct (nth_error pa c); reflexivity.
Qed.

(** Inside a buffer of shape [(h, w, c)] every entry exists. *)
Lemma has_shape_get2 {A} h w c (a : arr3 A) y x :
  has_shape h w c a -> (y < h)%nat -> (x < w)%nat ->
  exists px, get2 a y x = Some px /\ List.length px = c.
Proof.
  intros [Hl Hr] Hy Hx. unfold get2.
  destruct (nth_error a y) as [row|] eqn:Ey.
  - assert (Hin : In row a) by (eapply nth_error_In; eauto).
    rewrite Forall_forall in Hr. destruct (Hr row Hin) as [Hw Hpx].
    destruct (nth_error row x) as [px|] eqn:Ex.
    + exists px; split; auto. rewrite Forall_forall in Hpx. apply Hpx.
      eapply nth_error_In; eauto.
    + apply nth_error_None in Ex. lia.
  - apply nth_error_None in Ey. lia.
Qed.

Lemma has_shape_get3 {A} h w c (a : arr3 A) y x k :
  has_shape h w c a -> (y < h)%nat -> (x < w)%nat -> (k < c)%nat ->
  exists v, get3 a y x k = Some v.
Proof.
  intros Ha Hy Hx Hk. destruct (has_shape_get2 h w c a y x Ha Hy Hx) as [px [E L]].
  unfold get3. rewrite E. destruct (nth_error px k) as [v|] eqn:Ek; eauto.
  apply nth_error_None in Ek. lia.
Qed.

Lemma shape3_has_shape {A} h w c (a : arr3 A) :
  has_shape h w c a -> shape3 a = repeat (repeat c w) h.
Proof.
  intros [Hl Hr]. subst h. unfold shape3.
  induction Hr as [|row a [Hw Hpx] _ IH]; simpl; [reflexivity|].
  f_equal; auto. subst w. clear -Hpx.
  induction Hpx as [|px row Hp _ IH]; simpl; [reflexivity|]. now f_equal.
Qed.

Lemma same_shape_has_shape {A B} h w c (a : arr3 A) (b : arr3 B) :
  has_shape h w c a -> has_shape h w c b -> same_shape a b = true.
Proof.
  intros Ha Hb. unfold same_shape.
  rewrite (shape3_has_shape _ _ _ _ Ha), (shape3_has_shape _ _ _ _ Hb).
  destruct (list_eq_dec _ _ _); congruence.
Qed.

Lemma has_shape_map3 {A B} (f : A -> B) h w c (a : arr3 A) :
  has_shape h w c a -> has_shape h w c (map3 f a).
Proof.
  intros [Hl Hr]. split; [unfold map3; now rewrite length_map|].
  unfold map3. apply Forall_map. eapply Forall_impl; [|exact Hr].
  intros row [Hw Hpx]. split; [now rewrite length_map|].
  apply Forall_map. eapply Forall_impl; [|exact Hpx].
  intros px Hp. now rewrite length_map.
Qed.

Lemma has_shape_zip_with3 {A B C} (f : A -> B -> C) h w c (a : arr3 A) (b : arr3 B) :
  has_shape h w c a -> has_shape h w c b -> has_shape h w c (zip_with3 f a b).
Proof.
  intros [Hla Hra] [Hlb Hrb]. split.
  - unfold zip_with3. rewrite zip_with_length; congruence.
  - unfold zip_with3.
    eapply Forall_zip_with; [|exact Hra|exact Hrb].
    intros ra rb [Hwa Hpa] [Hwb Hpb]. split.
    + rewrite zip_with_length; congruence.
    + eapply Forall_zip_with; [|exact Hpa|exact Hpb].
      intros pa pb La Lb. rewrite zip_with_length; congruence.
Qed.

Lemma elementwise_ok f h w c (a b : pixels) :
  has_shape h w c a -> has_shape h w c b ->
  elementwise f a b = Ok (zip_with3 f a b).
Proof.
  intros Ha Hb. unfold elementwise. now rewrite (same_shape_has_shape h w c a b Ha Hb).
Qed.

(** ** Average colour adjustment on an empty mask channel *)

Lemma mul_zero_r (d m : f32) : nonzero m = false -> zero_or_nan (F32.mul d m).
Proof. destruct m; try discriminate. intros _. destruct d; exact I. Qed.

Lemma add_zero_or_nan (a b : f32) :
  zero_or_nan a -> zero_or_nan b -> zero_or_nan (F32.add a b).
Proof.
  destruct a as [sa|sa| |sa ma ea], b as [sb|sb| |sb mb eb]; simpl; try tauto.
  destruct sa, sb; exact (fun _ _ => I).
Qed.

Lemma add_zero (a b : f32) :
  nonzero a = false -> nonzero b = false -> nonzero (F32.add a b) = false.
Proof.
  destruct a as [sa|sa| |sa ma ea], b as [sb|sb| |sb mb eb]; try discriminate.
  destruct sa, sb; reflexivity.
Qed.

Lemma div_by_zero (a b : f32) :
  zero_or_nan a -> nonzero b = false -> F32.div a b = S754_nan.
Proof.
  destruct a as [sa|sa| |sa ma ea], b as [sb|sb| |sb mb eb]; simpl;
    try tauto; try discriminate; reflexivity.
Qed.

Lemma add_nan_r (v : f32) : F32.add v S754_nan = S754_nan.
Proof. destruct v; reflexivity. Qed.

Lemma mul_nan_l (v : f32) : F32.mul S754_nan v = S754_nan.
Proof. reflexivity. Qed.

Lemma add_nan_l (v : f32) : F32.add S754_nan v = S754_nan.
Proof. reflexivity. Qed.

Lemma sum_zero_or_nan (l : list f32) (acc : f32) :
  Forall zero_or_nan l -> zero_or_nan acc -> zero_or_nan (fold_left F32.add l acc).
Proof.
  intros H; revert acc; induction H as [|v l Hv _ IH]; intros acc Ha; simpl; auto.
  apply IH, add_zero_or_nan; auto.
Qed.

Lemma sum_zero (l : list f32) (acc : f32) :
  Forall (fun v => nonzero v = false) l -> nonzero acc = false ->
  nonzero (fold_left F32.add l acc) = false.
Proof.
  intros H; revert acc; induction H as [|v l Hv _ IH]; intros acc Ha; simpl; auto.
  apply IH, add_zero; auto.
Qed.

Lemma Forall_concat {A} (P : A -> Prop) (l : list (list A)) :
  Forall (Forall P) l -> Forall P (concat l).
Proof.
  induction 1 as [|a l Ha _ IH]; simpl; [constructor | apply Forall_app; auto].
Qed.

Lemma Forall_trivial {A} (l : list A) : Forall (fun _ => True) l.
Proof. induction l; constructor; auto. Qed.

Lemma channel_empty_pixels c image_mask :
  channel_empty c image_mask ->
  Forall (Forall (fun px => nonzero (nth c px F32.zero) = false)) image_mask.
Proof.
  unfold channel_empty, all_zero2, channel. intros H.
  rewrite Forall_map in H. eapply Forall_impl; [|exact H].
  intros row Hrow. now rewrite Forall_map in Hrow.
Qed.

Lemma nth_zip_mul_zero c (pd pm : list f32) :
  nonzero (nth c pm F32.zero) = false ->
  zero_or_nan (nth c (zip_with F32.mul pd pm) F32.zero).
Proof.
  revert c pm; induction pd as [|d pd IH]; intros [|c] [|m pm]; simpl; auto.
  apply mul_zero_r.
Qed.

Lemma np_sum01_nth (a : pixels) c :
  (c < channels a)%nat ->
  nth_error (np_sum01 a) c = Some (sum_f32 (concat (channel c a))).
Proof.
  intros H. unfold np_sum01.
  rewrite nth_error_map, nth_error_seq.
  destruct (Nat.ltb_spec c (channels a)); [reflexivity | lia].
Qed.

Lemma channels_has_shape {A} h w k (a : arr3 A) :
  has_shape h w k a -> (0 < h)%nat -> (0 < w)%nat ->
  match a with (px :: _) :: _ => List.length px | _ => O end = k.
Proof.
  intros [Hl Hr] Hh Hw. destruct a as [|row a]; simpl in *; [lia|].
  inversion Hr as [|? ? [Hrow Hpx] _]; subst.
  destruct row as [|px row]; simpl in *; [lia|].
  now inversion Hpx.
Qed.

Section AverageColour.
Context {cv : OpenCV} {ext : Collaborators}.
Variables (h w k c : nat).
Variables (frame image_mask : pixels).
Hypothesis Hh : (0 < h)%nat.
Hypothesis Hw : (0 < w)%nat.
Hypothesis Hc : (c < k)%nat.
Hypothesis Hframe : has_shape h w k frame.
Hypothesis Hmask : has_shape h w k image_mask.
Hypothesis Hempty : channel_empty c image_mask.

Lemma adjustment_nan (weighted_by : pixels) :
  has_shape h w k weighted_by ->
  nth_error (zip_with F32.div
               (np_sum01 (zip_with3 F32.mul weighted_by image_mask))
               (np_sum01 image_mask)) c = Some S754_nan.
Proof.
  intros Hd.
  assert (Hz : has_shape h w k (zip_with3 F32.mul weighted_by image_mask))
    by (apply has_shape_zip_with3; auto).
  assert (C1 : channels (zip_with3 F32.mul weighted_by image_mask) = k)
    by (apply (channels_has_shape h w k _ Hz); auto).
  assert (C2 : channels image_mask = k)
    by (apply (channels_has_shape h w k _ Hmask); auto).
  rewrite nth_error_zip_with, !np_sum01_nth by lia.
  f_equal. apply div_by_zero.
  - apply sum_zero_or_nan; [|exact I].
    apply Forall_concat. unfold channel, zip_with3.
    apply Forall_map.
    eapply Forall_zip_with;
      [|apply Forall_trivial|exact (channel_empty_pixels _ _ Hempty)].
    intros rd rm _ Hrm. apply Forall_map.
    eapply Forall_zip_with; [|apply Forall_trivial|exact Hrm].
    intros pd pm _ Hpm. now apply nth_zip_mul_zero.
  - apply sum_zero; [|reflexivity].
    apply Forall_concat. exact Hempty.
Qed.

Lemma add_per_channel_nan (a : pixels) (adjustment : list f32) :
  has_shape h w k a -> List.length adjustment = k ->
  nth_error adjustment c = Some S754_nan ->
  has_shape h w k (Convert.add_per_channel a adjustment)
  /\ nan_channel c (Convert.add_per_channel a adjustment).
Proof.
  intros [Hl Hr] Hlen Hadj. unfold Convert.add_per_channel. split; [split|].
  - now rewrite length_map.
  - apply Forall_map. eapply Forall_impl; [|exact Hr].
    intros row [Hrow Hpx]. split; [now rewrite length_map|].
    apply Forall_map. eapply Forall_impl; [|exact Hpx].
    intros px Hp. cbv beta in Hp. rewrite zip_with_length; congruence.
  - apply Forall_map. eapply Forall_impl; [|exact Hr].
    intros row [Hrow Hpx]. apply Forall_map. eapply Forall_impl; [|exact Hpx].
    intros px Hp. cbv beta in Hp. rewrite nth_error_zip_with, Hadj.
    destruct (nth_error px c) as [v|] eqn:E.
    + now rewrite add_nan_r.
    + apply nth_error_None in E. lia.
Qed.

Lemma np_sum01_length (a : pixels) : List.length (np_sum01 a) = channels a.
Proof. unfold np_sum01. now rewrite length_map, length_seq. Qed.

(** One round leaves NaN in the whole of channel [c]. *)
Lemma avg_color_round_nan (masked : pixels) :
  has_shape h w k masked ->
  exists masked',
    Convert.avg_color_round frame image_mask masked = Ok masked'
    /\ has_shape h w k masked' /\ nan_channel c masked'.
Proof.
  intros Hm. unfold Convert.avg_color_round.
  set (clipped := np_clip masked F32.zero f32_255).
  assert (Hcl : has_shape h w k clipped) by (apply has_shape_map3; auto).
  rewrite (elementwise_ok F32.sub h w k frame clipped Hframe Hcl). simpl.
  assert (Hd : has_shape h w k (zip_with3 F32.sub frame clipped))
    by (apply has_shape_zip_with3; auto).
  rewrite (elementwise_ok F32.mul h w k _ image_mask Hd Hmask). simpl.
  eexists; split; [reflexivity|].
  apply add_per_channel_nan; auto.
  - assert (Hz : has_shape h w k (zip_with3 F32.mul (zip_with3 F32.sub frame clipped)
                                            image_mask))
      by (apply has_shape_zip_with3; auto).
    assert (C1 : channels (zip_with3 F32.mul (zip_with3 F32.sub frame clipped)
                                     image_mask) = k)
      by (apply (channels_has_shape h w k _ Hz); auto).
    assert (C2 : channels image_mask = k)
      by (apply (channels_has_shape h w k _ Hmask); auto).
    rewrite zip_with_length; rewrite !np_sum01_length; congruence.
  - now apply adjustment_nan.
Qed.
End AverageColour.

Lemma has_shape_of_shape3 {A} h w k (a : arr3 A) :
  shape3 a = repeat (repeat k w) h -> has_shape h w k a.
Proof.
  unfold shape3. revert h; induction a as [|row a IH]; intros [|h] E; simpl in E;
    try discriminate.
  - split; [reflexivity | constructor].
  - injection E as Erow Ea. destruct (IH h Ea) as [Hl Hr].
    split; [simpl; congruence|]. constructor; auto. clear -Erow.
    revert w Erow; induction row as [|px row IH]; intros [|w] E; simpl in E;
      try discriminate.
    + split; [reflexivity | constructor].
    + injection E as Epx Er. destruct (IH w Er) as [Hw Hp].
      split; [simpl; congruence | constructor; auto].
Qed.

Lemma has_shape_of_same_shape {A B} h w k (a : arr3 A) (b : arr3 B) :
  same_shape a b = true -> has_shape h w k b -> has_shape h w k a.
Proof.
  unfold same_shape. destruct (list_eq_dec _ _ _) as [E|]; [|discriminate].
  intros _ Hb. apply has_shape_of_shape3.
  now rewrite E, (shape3_has_shape _ _ _ _ Hb).
Qed.

Section NaNChannel.
Context {cv : OpenCV} {ext : Collaborators}.
Variables (h w k c : nat).

Lemma nan_channel_get (a : pixels) y x :
  nan_channel c a -> has_shape h w k a -> (y < h)%nat -> (x < w)%nat ->
  get3 a y x c = Some S754_nan.
Proof.
  intros Hn Ha Hy Hx.
  destruct (has_shape_get2 h w k a y x Ha Hy Hx) as [px [E _]].
  unfold get3. rewrite E. unfold get2 in E.
  destruct (nth_error a y) as [row|] eqn:Ey; [|discriminate].
  unfold nan_channel in Hn. rewrite Forall_forall in Hn.
  specialize (Hn row (nth_error_In _ _ Ey)). rewrite Forall_forall in Hn.
  exact (Hn px (nth_error_In _ _ E)).
Qed.

Lemma nan_channel_map3 (f : f32 -> f32) (a : pixels) :
  f S754_nan = S754_nan -> nan_channel c a -> nan_channel c (map3 f a).
Proof.
  intros Hf Hn. unfold nan_channel, map3.
  apply Forall_map. eapply Forall_impl; [|exact Hn].
  intros row Hrow. apply Forall_map. eapply Forall_impl; [|exact Hrow].
  intros px Hp. cbv beta in Hp. rewrite nth_error_map, Hp. simpl. now rewrite Hf.
Qed.

(** Histogram matching of one channel leaves the NaN of channel [c]. *)
Lemma hist_channel_keeps_nan (j : nat) (new frame image_mask new' : pixels) :
  channel_empty c image_mask -> nan_channel c new ->
  (nc <- Convert.get_channel j new ;;
   fc <- Convert.get_channel j frame ;;
   mc <- Convert.get_channel j image_mask ;;
   matched <- Convert.hist_match nc fc mc ;;
   Ok (set_channel j new matched)) = Ok new' ->
  nan_channel c new'.
Proof.
  intros He Hn. unfold Convert.get_channel.
  destruct (forallb _ new); [|discriminate].
  destruct (forallb _ frame); [|discriminate].
  destruct (forallb _ image_mask); [|discriminate]. simpl.
  destruct (Nat.eq_dec j c) as [->|Hj].
  - rewrite (hist_match_early_return _ _ _ (np_nonzero2_zero _ He)). simpl.
    intros [= <-].
    unfold set_channel, channel. rewrite zip_with_map_r.
    apply Forall_map. eapply Forall_impl; [|exact Hn].
    intros row Hrow. rewrite zip_with_map_r.
    apply Forall_map. eapply Forall_impl; [|exact Hrow].
    intros px Hp. cbv beta in Hp. rewrite nth_error_update, Nat.eqb_refl, Hp.
    f_equal. now rewrite (nth_error_nth _ _ _ Hp).
  - destruct (Convert.hist_match _ _ _) as [matched|]; [|discriminate]. simpl.
    intros [= <-].
    unfold set_channel.
    eapply Forall_zip_with; [|exact Hn|apply (Forall_trivial matched)].
    intros row mrow Hrow _.
    eapply Forall_zip_with; [|exact Hrow|apply (Forall_trivial mrow)].
    intros px v Hp _. cbv beta in Hp. rewrite nth_error_update.
    destruct (Nat.eqb_spec j c); [contradiction | exact Hp].
Qed.

Lemma color_hist_match_keeps_nan (new frame image_mask new' : pixels) :
  channel_empty c image_mask -> nan_channel c new ->
  Convert.color_hist_match new frame image_mask = Ok new' ->
  nan_channel c new'.
Proof.
  intros He Hn. unfold Convert.color_hist_match. simpl.
  set (step := fun (j : nat) (new : pixels) =>
                 nc <- Convert.get_channel j new ;;
                 fc <- Convert.get_channel j frame ;;
                 mc <- Convert.get_channel j image_mask ;;
                 matched <- Convert.hist_match nc fc mc ;;
                 Ok (set_channel j new matched)).
  change (bind (bind (bind (Ok new) (step 0%nat)) (step 1%nat)) (step 2%nat) = Ok new'
          -> nan_channel c new').
  simpl. destruct (step 0%nat new) as [n0|] eqn:E0; [|discriminate]. simpl.
  destruct (step 1%nat n0) as [n1|] eqn:E1; [|discriminate]. simpl.
  intros E2.
  apply (hist_channel_keeps_nan 2 n1 frame image_mask new' He); auto.
  apply (hist_channel_keeps_nan 1 n0 frame image_mask n1 He); auto.
  apply (hist_channel_keeps_nan 0 new frame image_mask n0 He); auto.
Qed.

Lemma linear_blend_nan (frame image_mask masked b : pixels) :
  has_shape h w k frame -> has_shape h w k image_mask -> nan_channel c masked ->
  Convert.linear_blend frame image_mask masked = Ok (Convert.Floats b) ->
  forall y x, (y < h)%nat -> (x < w)%nat -> get3 b y x c = Some S754_nan.
Proof.
  intros Hf Hm Hn. unfold Convert.linear_blend, elementwise.
  destruct (same_shape masked image_mask) eqn:Es; [|discriminate]. simpl.
  destruct (same_shape frame _); [|discriminate]. simpl.
  destruct (same_shape (zip_with3 _ _ _) _); [|discriminate]. simpl.
  intros [= <-]. intros y x Hy Hx.
  assert (Hs : has_shape h w k masked) by (eapply has_shape_of_same_shape; eauto).
  rewrite !get3_zip_with3, (nan_channel_get masked y x Hn Hs Hy Hx).
  assert (Hc : (c < k)%nat).
  { pose proof (nan_channel_get masked y x Hn Hs Hy Hx) as G.
    destruct (has_shape_get2 h w k masked y x Hs Hy Hx) as [px [E L]].
    unfold get3 in G. rewrite E in G.
    assert (nth_error px c <> None) by congruence.
    apply nth_error_Some in H. lia. }
  destruct (has_shape_get3 h w k image_mask y x c Hm Hy Hx Hc) as [m ->].
  destruct (has_shape_get3 h w k frame y x c Hf Hy Hx Hc) as [f ->].
  rewrite get3_map3.
  destruct (has_shape_get3 h w k image_mask y x c Hm Hy Hx Hc) as [m' ->].
  reflexivity.
Qed.
End NaNChannel.

Lemma to_uint8_nan (nan : Z) :
  to_uint8 nan (rint1 (clip1 F32.zero f32_255 S754_nan)) = nan.
Proof. reflexivity. Qed.



(** ** Rounding to nearest *)

Lemma digits2_pos_bounds (m : positive) :
  2 ^ (Zpos (digits2_pos m) - 1) <= Zpos m < 2 ^ Zpos (digits2_pos m).
Proof.
  induction m as [m IH|m IH|]; simpl digits2_pos.
  - rewrite Pos2Z.inj_succ, Z.pow_succ_r by lia.
    replace (Z.succ (Zpos (digits2_pos m)) - 1) with (Z.succ (Zpos (digits2_pos m) - 1)) by lia.
    rewrite Z.pow_succ_r by lia. lia.
  - rewrite Pos2Z.inj_succ, Z.pow_succ_r by lia.
    replace (Z.succ (Zpos (digits2_pos m)) - 1) with (Z.succ (Zpos (digits2_pos m) - 1)) by lia.
    rewrite Z.pow_succ_r by lia. lia.
  - simpl. lia.
Qed.

(** The number of digits is determined by the binade. *)
Lemma digits2_pos_unique (m : positive) (d : Z) :
  2 ^ (d - 1) <= Zpos m < 2 ^ d -> Zpos (digits2_pos m) = d.
Proof.
  intros [Hlo Hhi]. pose proof (digits2_pos_bounds m) as [Dlo Dhi].
  set (d' := Zpos (digits2_pos m)) in *.
  assert (0 < d') by (unfold d'; lia).
  assert (0 < d).
  { destruct (Z.lt_ge_cases 0 d); auto.
    assert (2 ^ d <= 2 ^ 0) by (destruct (Z.lt_ge_cases d 0);
      [rewrite Z.pow_neg_r by lia; simpl; lia | apply Z.pow_le_mono_r; lia]).
    simpl in *. lia. }
  destruct (Z.lt_trichotomy d d') as [Hl|[He|Hg]]; auto.
  - assert (2 ^ d <= 2 ^ (d' - 1)) by (apply Z.pow_le_mono_r; lia). lia.
  - assert (2 ^ d' <= 2 ^ (d - 1)) by (apply Z.pow_le_mono_r; lia). lia.
Qed.

Lemma iter_pos_nat {A} (f : A -> A) (p : positive) (x : A) :
  iter_pos f p x = Nat.iter (Pos.to_nat p) f x.
Proof.
  revert x; induction p as [p IH|p IH|]; intros x; cbn [iter_pos].
  - rewrite !IH, Pos2Nat.inj_xI.
    replace (S (2 * Pos.to_nat p)) with (Pos.to_nat p + S (Pos.to_nat p))%nat by lia.
    rewrite Nat.iter_add, Nat.iter_succ_r. reflexivity.
  - rewrite !IH, Pos2Nat.inj_xO.
    replace (2 * Pos.to_nat p)%nat with (Pos.to_nat p + Pos.to_nat p)%nat by lia.
    now rewrite Nat.iter_add.
  - reflexivity.
Qed.

(** One step of the shift halves the mantissa; the dropped bit and the
    bits dropped before are remembered. *)
Lemma shr_1_spec (r : shr_record) :
  0 <= shr_m r ->
  shr_m (shr_1 r) = shr_m r / 2
  /\ shr_r (shr_1 r) = Z.odd (shr_m r)
  /\ shr_s (shr_1 r) = shr_r r || shr_s r.
Proof.
  destruct r as [m r s]. simpl. intros Hm.
  destruct m as [|[p|p|]|p]; simpl; try lia; repeat split.
  - rewrite Pos2Z.inj_xI. apply (Z.div_unique _ 2 _ 1); lia.
  - rewrite Pos2Z.inj_xO. apply (Z.div_unique _ 2 _ 0); lia.
Qed.

(** [n] steps divide by [2 ^ n]; nothing is remembered when the division
    is exact. *)
Lemma shr_iter_spec (n : nat) (m : Z) :
  0 <= m ->
  let r := Nat.iter n shr_1 (Build_shr_record m false false) in
  shr_m r = m / 2 ^ Z.of_nat n
  /\ (m mod 2 ^ Z.of_nat n = 0 -> shr_r r = false /\ shr_s r = false).
Proof.
  intros Hm. induction n as [|n IH]; cbv zeta in *.
  - simpl. rewrite Z.div_1_r. auto.
  - rewrite Nat.iter_succ. destruct IH as [IHm IHe].
    set (r := Nat.iter n shr_1 (Build_shr_record m false false)) in *.
    assert (Hr : 0 <= shr_m r) by (rewrite IHm; apply Z.div_pos; lia).
    destruct (shr_1_spec r Hr) as [Em [Er Es]].
    assert (Hp : 0 < 2 ^ Z.of_nat n) by (apply Z.pow_pos_nonneg; lia).
    rewrite Nat2Z.inj_succ, Z.pow_succ_r by lia.
    split.
    + rewrite Em, IHm, Z.div_div by lia. f_equal. lia.
    + intros Hmod.
      assert (Hmod' : m mod 2 ^ Z.of_nat n = 0).
      { apply Z.mod_divide in Hmod; [|lia]. apply Z.mod_divide; [lia|].
        destruct Hmod as [q Hq]. exists (q * 2). lia. }
      destruct (IHe Hmod') as [Rr Rs].
      rewrite Er, Es, Rr, Rs, IHm. split; [|reflexivity].
      apply Z.mod_divide in Hmod; [|lia]. destruct Hmod as [q Hq].
      replace (m / 2 ^ Z.of_nat n) with (q * 2).
      * rewrite Z.odd_mul. simpl. apply andb_false_r.
      * apply (Z.div_unique _ _ _ 0); lia.
Qed.

Lemma pos_iter_xO (m d : positive) : Zpos (Pos.iter xO m d) = Zpos m * 2 ^ Zpos d.
Proof.
  induction d as [|d IH] using Pos.peano_ind.
  - simpl. lia.
  - rewrite Pos.iter_succ, Pos2Z.inj_xO, IH, Pos2Z.inj_succ, Z.pow_succ_r by lia. ring.
Qed.

Section Rounding.
Variables prec emax : Z.
Hypothesis Hprec : 1 < prec.
Hypothesis Hemax : prec < emax.

Let fexp := SpecFloat.fexp prec emax.
Let emin := SpecFloat.emin prec emax.

Lemma fexp_ge_emin e : emin <= fexp e.
Proof. unfold fexp, SpecFloat.fexp, emin. lia. Qed.

Lemma fexp_monotone e e' : e <= e' -> fexp e <= fexp e'.
Proof. unfold fexp, SpecFloat.fexp. lia. Qed.

(** The shift of an exact mantissa by [n] binary places. *)
Lemma shr_spec (m e n : Z) :
  0 <= m ->
  let k := Z.max 0 n in
  let res := shr (Build_shr_record m false false) e n in
  shr_m (fst res) = m / 2 ^ k
  /\ snd res = e + k
  /\ (m mod 2 ^ k = 0 -> loc_of_shr_record (fst res) = loc_Exact).
Proof.
  intros Hm. destruct n as [|p|p]; cbv zeta; simpl shr; simpl fst; simpl snd.
  - rewrite Z.max_l by lia. simpl. rewrite Z.div_1_r. repeat split; lia.
  - rewrite Z.max_r by lia. rewrite iter_pos_nat.
    destruct (shr_iter_spec (Pos.to_nat p) m Hm) as [E X].
    rewrite positive_nat_Z in E, X. repeat split; auto.
    intros Hmod. destruct (X Hmod) as [Hr Hs].
    destruct (Nat.iter _ _ _) as [m' r' s']. simpl in Hr, Hs. now subst.
  - rewrite Z.max_l by lia. simpl. rewrite Z.div_1_r. repeat split; lia.
Qed.

Lemma round_nearest_even_bounds (m : Z) (l : location) :
  m <= round_nearest_even m l <= m + 1
  /\ (l = loc_Exact -> round_nearest_even m l = m).
Proof.
  destruct l as [|[]]; simpl; try destruct (Z.even m); split; try lia; auto;
    discriminate.
Qed.

Lemma renormalize (s : bool) (m2 e1 : Z) :
  0 <= m2 <= 2 ^ prec -> emin <= e1 ->
  (let '(mrs, e2) := shr_fexp prec emax m2 e1 loc_Exact in
   match shr_m mrs with
   | Z0 => S754_zero s
   | Zpos m => if e2 <=? emax - prec then S754_finite s m e2 else S754_infinity s
   | Zneg _ => S754_nan
   end) = normal_form prec emax s m2 e1.
Proof.
  intros [H0 Hle] He. unfold normal_form, shr_fexp.
  assert (Hpow : 0 < 2 ^ prec) by (apply Z.pow_pos_nonneg; lia).
  destruct m2 as [|p|p]; [| |lia].
  - simpl Zdigits2. simpl shr_record_of_loc.
    replace (SpecFloat.fexp prec emax (0 + e1) - e1) with
      (fexp e1 - e1) by (f_equal; f_equal; lia).
    assert (fexp e1 - e1 <= 0) by (unfold fexp, SpecFloat.fexp; fold emin; lia).
    destruct (fexp e1 - e1) as [|q|q] eqn:E; try lia; reflexivity.
  - simpl Zdigits2. simpl shr_record_of_loc.
    pose proof (digits2_pos_bounds p) as [Dlo Dhi].
    set (d := Zpos (digits2_pos p)) in *.
    change (SpecFloat.fexp prec emax (d + e1)) with (fexp (d + e1)).
    destruct (Z.ltb_spec (Zpos p) (2 ^ prec)) as [Hlt|Hge]; simpl (Z.pos p =? 0).
    + assert (d <= prec).
      { destruct (Z.le_gt_cases d prec); auto.
        assert (2 ^ prec <= 2 ^ (d - 1)) by (apply Z.pow_le_mono_r; lia). lia. }
      assert (fexp (d + e1) - e1 <= 0) by (unfold fexp, SpecFloat.fexp; fold emin; lia).
      destruct (fexp (d + e1) - e1) as [|q|q] eqn:E; try lia; reflexivity.
    + assert (Heq : Zpos p = 2 ^ prec) by lia.
      assert (d = prec + 1).
      { apply digits2_pos_unique. rewrite Heq.
        replace (prec + 1 - 1) with prec by lia.
        rewrite Z.pow_add_r by lia. simpl. lia. }
      assert (E : fexp (d + e1) - e1 = 1) by (unfold fexp, SpecFloat.fexp; fold emin; lia).
      rewrite E. unfold shr. cbn [iter_pos].
      destruct (shr_1_spec (Build_shr_record (Zpos p) false false)) as [Em _];
        [simpl; lia|].
      simpl shr_m in Em at 2. rewrite Em.
      assert (Hhalf : Zpos p / 2 = 2 ^ (prec - 1)).
      { rewrite Heq. replace prec with (Z.succ (prec - 1)) at 1 by lia.
        rewrite Z.pow_succ_r by lia. rewrite Z.mul_comm, Z.div_mul; lia. }
      assert (0 < 2 ^ (prec - 1)) by (apply Z.pow_pos_nonneg; lia).
      destruct (Zpos p / 2) as [|q|q] eqn:Eh; try lia.
      replace (e1 + 1) with (e1 + 1) by lia.
      simpl Z.to_pos. reflexivity.
Qed.

(** What rounding an exact product or sum yields: the mantissa is cut at
    the exponent of its binade, moved to a neighbour, and renormalized. *)
Lemma binary_round_aux_spec (s : bool) (m : positive) (e : Z) :
  let e1 := fexp (Zpos (digits2_pos m) + e) in
  e <= e1 ->
  exists m2,
    Zpos m / 2 ^ (e1 - e) <= m2 <= Zpos m / 2 ^ (e1 - e) + 1
    /\ (Zpos m mod 2 ^ (e1 - e) = 0 -> m2 = Zpos m / 2 ^ (e1 - e))
    /\ m2 <= 2 ^ prec
    /\ binary_round_aux prec emax s (Zpos m) e loc_Exact = normal_form prec emax s m2 e1.
Proof.
  intros e1 He. unfold binary_round_aux.
  pose proof (digits2_pos_bounds m) as [Dlo Dhi].
  set (d := Zpos (digits2_pos m)) in *.
  assert (Hn : Z.max 0 (e1 - e) = e1 - e) by lia.
  destruct (shr_spec (Zpos m) e (e1 - e)) as [Hm1 [He1 Hex]]; [lia|].
  rewrite Hn in Hm1, He1, Hex.
  unfold shr_fexp at 1. simpl Zdigits2. simpl shr_record_of_loc.
  fold d. change (SpecFloat.fexp prec emax (d + e)) with e1.
  destruct (shr (Build_shr_record (Zpos m) false false) e (e1 - e)) as [mrs e'].
  simpl fst in *; simpl snd in *. subst e'.
  replace (e + (e1 - e)) with e1 by lia.
  destruct (round_nearest_even_bounds (shr_m mrs) (loc_of_shr_record mrs)) as [Hb Hx].
  set (m2 := round_nearest_even (shr_m mrs) (loc_of_shr_record mrs)) in *.
  assert (Hpn : 0 < 2 ^ (e1 - e)) by (apply Z.pow_pos_nonneg; lia).
  assert (Hm1pos : 0 <= Zpos m / 2 ^ (e1 - e)) by (apply Z.div_pos; lia).
  assert (Hm1lt : Zpos m / 2 ^ (e1 - e) < 2 ^ prec).
  { apply Z.div_lt_upper_bound; [lia|].
    rewrite <- Z.pow_add_r by lia.
    eapply Z.lt_le_trans; [exact Dhi|].
    apply Z.pow_le_mono_r; [lia|].
    unfold e1, fexp, SpecFloat.fexp. lia. }
  exists m2. rewrite Hm1 in Hb. repeat split; try lia.
  - intros Hmod. rewrite (Hx (Hex Hmod)). exact Hm1.
  - apply renormalize; [lia|]. apply fexp_ge_emin.
Qed.

(** Rounding a mantissa that fits is exact. *)
Lemma binary_round_aux_exact (s : bool) (m m0 : positive) (e n : Z) :
  0 <= n -> Zpos m = Zpos m0 * 2 ^ n ->
  bounded prec emax m0 (e + n) = true ->
  binary_round_aux prec emax s (Zpos m) e loc_Exact = S754_finite s m0 (e + n).
Proof.
  intros Hn Hm Hb. unfold bounded, canonical_mantissa in Hb.
  apply andb_true_iff in Hb. destruct Hb as [Hc He].
  apply Z.eqb_eq in Hc. apply Z.leb_le in He.
  pose proof (digits2_pos_bounds m0) as [Dlo Dhi].
  set (d0 := Zpos (digits2_pos m0)) in *.
  assert (Hpn : 0 < 2 ^ n) by (apply Z.pow_pos_nonneg; lia).
  assert (Hd : Zpos (digits2_pos m) = d0 + n).
  { apply digits2_pos_unique. rewrite Hm.
    replace (d0 + n - 1) with (d0 - 1 + n) by lia.
    rewrite !Z.pow_add_r by lia. split.
    - apply Z.mul_le_mono_nonneg_r; lia.
    - apply Z.mul_lt_mono_pos_r; lia. }
  assert (He1 : fexp (Zpos (digits2_pos m) + e) = e + n).
  { rewrite Hd. replace (d0 + n + e) with (d0 + (e + n)) by lia. exact Hc. }
  destruct (binary_round_aux_spec s m e) as [m2 [Hb [Hx [_ Hr]]]];
    [rewrite He1; lia|].
  rewrite He1 in *. replace (e + n - e) with n in * by lia.
  assert (Hdiv : Zpos m / 2 ^ n = Zpos m0) by (rewrite Hm; apply Z.div_mul; lia).
  assert (Hmod : Zpos m mod 2 ^ n = 0) by (rewrite Hm; apply Z.mod_mul; lia).
  rewrite (Hx Hmod), Hdiv in Hr. rewrite Hr. unfold normal_form.
  assert (Hlt : Zpos m0 < 2 ^ prec).
  { eapply Z.lt_le_trans; [exact Dhi|]. apply Z.pow_le_mono_r; [lia|].
    unfold fexp, SpecFloat.fexp in Hc. lia. }
  simpl (Z.pos m0 =? 0).
  destruct (Z.ltb_spec (Zpos m0) (2 ^ prec)); [|lia].
  destruct (Z.leb_spec (e + n) (emax - prec)); [|lia].
  reflexivity.
Qed.

(** Multiplication by a power of two that is written [2 ^ n * 2 ^ - n],
    by one for instance, returns the other factor. *)
Lemma SFmul_one_r (x : spec_float) (n : Z) (p : positive) :
  0 <= n -> Zpos p = 2 ^ n ->
  valid_binary prec emax x = true ->
  SFmul prec emax x (S754_finite false p (- n)) = x.
Proof.
  intros Hn Hp Hv. destruct x as [s|s| |s m e]; unfold SFmul;
    rewrite ?xorb_false_r; try reflexivity.
  replace e with (e + - n + n) at 2 by lia.
  apply binary_round_aux_exact; auto.
  - rewrite Pos2Z.inj_mul, Hp. reflexivity.
  - replace (e + - n + n) with e by lia. exact Hv.
Qed.

(** The exponent of an exact product of two floats is not above the
    exponent its binade calls for. *)
Lemma product_exponent (mx my : positive) (ex ey : Z) :
  bounded prec emax mx ex = true -> bounded prec emax my ey = true ->
  ex + ey <= fexp (Zpos (digits2_pos (mx * my)) + (ex + ey)).
Proof.
  unfold bounded, canonical_mantissa. intros Hx Hy.
  apply andb_true_iff in Hx, Hy. destruct Hx as [Hx _], Hy as [Hy _].
  apply Z.eqb_eq in Hx, Hy.
  pose proof (digits2_pos_bounds mx) as [Xlo Xhi].
  pose proof (digits2_pos_bounds my) as [Ylo Yhi].
  pose proof (digits2_pos_bounds (mx * my)) as [Plo Phi].
  set (dx := Zpos (digits2_pos mx)) in *.
  set (dy := Zpos (digits2_pos my)) in *.
  set (d := Zpos (digits2_pos (mx * my))) in *.
  assert (0 < dx) by (unfold dx; lia). assert (0 < dy) by (unfold dy; lia).
  assert (Hd : dx + dy - 2 < d).
  { apply (Z.pow_lt_mono_r_iff 2); [lia | unfold d; lia |].
    eapply Z.le_lt_trans; [|exact Phi].
    replace (dx + dy - 2) with ((dx - 1) + (dy - 1)) by lia.
    rewrite Z.pow_add_r, Pos2Z.inj_mul by lia.
    apply Z.mul_le_mono_nonneg; try lia; apply Z.pow_nonneg; lia. }
  unfold fexp, SpecFloat.fexp in *. unfold SpecFloat.emin in *. lia.
Qed.

(** An upper bound that is a float bounds the rounded product too. *)
Lemma binary_round_aux_le (s : bool) (m M : positive) (e E : Z) :
  e <= fexp (Zpos (digits2_pos m) + e) ->
  bounded prec emax M E = true ->
  e <= E ->
  Zpos m <= Zpos M * 2 ^ (E - e) ->
  binary_round_aux prec emax s (Zpos m) e loc_Exact = S754_zero s
  \/ exists mf ef,
       binary_round_aux prec emax s (Zpos m) e loc_Exact = S754_finite s mf ef
       /\ e <= ef <= E
       /\ Zpos mf * 2 ^ (ef - e) <= Zpos M * 2 ^ (E - e).
Proof.
  intros He HB HeE Hle.
  unfold bounded, canonical_mantissa in HB.
  apply andb_true_iff in HB. destruct HB as [HBc HBe].
  apply Z.eqb_eq in HBc. apply Z.leb_le in HBe.
  pose proof (digits2_pos_bounds m) as [Dlo Dhi].
  pose proof (digits2_pos_bounds M) as [Blo Bhi].
  set (d := Zpos (digits2_pos m)) in *.
  set (D := Zpos (digits2_pos M)) in *.
  set (e1 := fexp (d + e)) in *.
  assert (0 < d) by (unfold d; lia). assert (0 < D) by (unfold D; lia).
  assert (HpE : 0 < 2 ^ (E - e)) by (apply Z.pow_pos_nonneg; lia).
  (* the binade of the product is not above the one of the bound *)
  assert (Hd : d + e <= D + E).
  { assert (d - 1 < D + (E - e)); [|lia].
    apply (Z.pow_lt_mono_r_iff 2); [lia | lia |].
    rewrite Z.pow_add_r by lia.
    eapply Z.le_lt_trans; [exact Dlo|]. eapply Z.le_lt_trans; [exact Hle|].
    apply Z.mul_lt_mono_pos_r; lia. }
  assert (He1E : e1 <= E).
  { unfold e1. rewrite <- HBc. apply fexp_monotone. exact Hd. }
  destruct (binary_round_aux_spec s m e He) as [m2 [Hb [Hx [Hm2 Hr]]]].
  fold d in Hb, Hx, Hr. fold e1 in Hb, Hx, Hr.
  set (n := e1 - e) in *.
  assert (Hpn : 0 < 2 ^ n) by (apply Z.pow_pos_nonneg; lia).
  assert (HpK : 0 < 2 ^ (E - e1)) by (apply Z.pow_pos_nonneg; lia).
  assert (Hsplit : 2 ^ (E - e) = 2 ^ (E - e1) * 2 ^ n).
  { rewrite <- Z.pow_add_r by lia. f_equal. lia. }
  (* the rounded mantissa is below the bound, at the exponent [e1] *)
  assert (HK : m2 <= Zpos M * 2 ^ (E - e1)).
  { pose proof (Z.div_mod (Zpos m) (2 ^ n)) as Hdm.
    pose proof (Z.mod_pos_bound (Zpos m) (2 ^ n) Hpn) as Hmb.
    destruct (Z.eq_dec (Zpos m mod 2 ^ n) 0) as [Hz|Hnz].
    - rewrite (Hx Hz). apply Z.div_le_upper_bound; [lia|].
      rewrite Hsplit in Hle. lia.
    - assert (Zpos m / 2 ^ n < Zpos M * 2 ^ (E - e1)); [|lia].
      apply Z.div_lt_upper_bound; [lia|].
      assert (Zpos m <= (Zpos M * 2 ^ (E - e1)) * 2 ^ n) by (rewrite Hsplit in Hle; lia).
      destruct (Z.le_gt_cases (2 ^ n * (Zpos M * 2 ^ (E - e1))) (Zpos m)); [|lia].
      exfalso. apply Hnz.
      assert (Hmul : Zpos m = (Zpos M * 2 ^ (E - e1)) * 2 ^ n) by lia.
      rewrite Hmul. apply Z.mod_mul. lia. }
  rewrite Hr. unfold normal_form.
  assert (0 <= m2).
  { assert (0 <= Zpos m / 2 ^ n) by (apply Z.div_pos; lia). lia. }
  destruct (Z.eqb_spec m2 0) as [|Hm0]; [now left|]. right.
  assert (Hval : m2 * 2 ^ n <= Zpos M * 2 ^ (E - e)).
  { rewrite Hsplit, Z.mul_assoc. apply Z.mul_le_mono_nonneg_r; lia. }
  destruct (Z.ltb_spec m2 (2 ^ prec)) as [Hlt|Hge].
  - destruct (Z.leb_spec e1 (emax - prec)); [|lia].
    exists (Z.to_pos m2), e1. split; [reflexivity|].
    split; [lia|]. rewrite Z2Pos.id by lia. exact Hval.
  - assert (Heq : m2 = 2 ^ prec) by lia.
    assert (Hlt1 : e1 < E).
    { destruct (Z.le_gt_cases E e1); [|lia]. exfalso.
      replace (E - e1) with 0 in HK by lia. simpl in HK.
      assert (Zpos M < 2 ^ prec); [|lia].
      eapply Z.lt_le_trans; [exact Bhi|]. apply Z.pow_le_mono_r; [lia|].
      unfold fexp, SpecFloat.fexp in HBc. lia. }
    destruct (Z.leb_spec (e1 + 1) (emax - prec)); [|lia].
    assert (Hhalf : m2 / 2 = 2 ^ (prec - 1)).
    { rewrite Heq. replace prec with (Z.succ (prec - 1)) at 1 by lia.
      rewrite Z.pow_succ_r by lia. rewrite Z.mul_comm, Z.div_mul; lia. }
    assert (0 < 2 ^ (prec - 1)) by (apply Z.pow_pos_nonneg; lia).
    exists (Z.to_pos (m2 / 2)), (e1 + 1). split; [reflexivity|].
    split; [lia|]. rewrite Z2Pos.id by lia.
    replace (e1 + 1 - e) with (Z.succ n) by lia.
    rewrite Z.pow_succ_r by lia.
    replace (m2 / 2 * (2 * 2 ^ n)) with (m2 * 2 ^ n); [exact Hval|].
    rewrite Hhalf, Heq. replace prec with (Z.succ (prec - 1)) at 1 by lia.
    rewrite Z.pow_succ_r by lia. ring.
Qed.

(** An integer below [2 ^ prec] is converted exactly. *)
Lemma of_Z_exact (n : positive) :
  Zpos n < 2 ^ prec ->
  exists M E,
    binary_normalize prec emax (Zpos n) 0 false = S754_finite false M E
    /\ bounded prec emax M E = true
    /\ E <= 0
    /\ Zpos M = Zpos n * 2 ^ (- E).
Proof.
  intros Hn. unfold binary_normalize, binary_round.
  pose proof (digits2_pos_bounds n) as [Dlo Dhi].
  set (d := Zpos (digits2_pos n)) in *.
  assert (Hd0 : 0 < d) by (unfold d; lia).
  assert (Hd : d <= prec).
  { destruct (Z.le_gt_cases d prec); auto.
    assert (2 ^ prec <= 2 ^ (d - 1)) by (apply Z.pow_le_mono_r; lia). lia. }
  assert (Hf : SpecFloat.fexp prec emax (d + 0) = d - prec).
  { unfold SpecFloat.fexp, SpecFloat.emin. lia. }
  rewrite Hf. unfold shl_align.
  assert (Hex : exists mz, (match d - prec - 0 with
                            | Zneg q => (Pos.iter xO n q, d - prec)
                            | _ => (n, 0)
                            end) = (mz, d - prec)
                           /\ Zpos mz = Zpos n * 2 ^ (prec - d)).
  { destruct (d - prec - 0) as [|q|q] eqn:Eq; try lia.
    - exists n. replace (d - prec) with 0 by lia. replace (prec - d) with 0 by lia.
      split; [reflexivity | simpl; lia].
    - exists (Pos.iter xO n q). split; [reflexivity|].
      rewrite pos_iter_xO. f_equal. f_equal. lia. }
  destruct Hex as [mz [-> Hmz]].
  assert (Hp : 0 < 2 ^ (prec - d)) by (apply Z.pow_pos_nonneg; lia).
  assert (Hdz : Zpos (digits2_pos mz) = prec).
  { apply digits2_pos_unique. rewrite Hmz. split.
    - replace (prec - 1) with ((d - 1) + (prec - d)) by lia.
      rewrite Z.pow_add_r by lia. apply Z.mul_le_mono_nonneg_r; lia.
    - replace prec with (d + (prec - d)) at 2 by lia.
      rewrite Z.pow_add_r by lia. apply Z.mul_lt_mono_pos_r; lia. }
  assert (Hb : bounded prec emax mz (d - prec) = true).
  { unfold bounded, canonical_mantissa. rewrite Hdz.
    apply andb_true_iff. split; [apply Z.eqb_eq | apply Z.leb_le; lia].
    unfold SpecFloat.fexp, SpecFloat.emin. lia. }
  exists mz, (d - prec). repeat split; auto; try lia.
  - replace (d - prec) with (d - prec + 0) at 2 by lia.
    apply binary_round_aux_exact; try lia.
    now replace (d - prec + 0) with (d - prec) by lia.
  - rewrite Hmz. f_equal. f_equal. lia.
Qed.

(** A positive float that compares below one has a value at most one. *)
Lemma le_one_value (m p1 : positive) (e : Z) :
  Zpos p1 = 2 ^ (prec - 1) ->
  bounded prec emax m e = true ->
  SFleb (S754_finite false m e) (S754_finite false p1 (1 - prec)) = true ->
  e < 0 /\ Zpos m <= 2 ^ (- e).
Proof.
  intros Hp Hb Hle. unfold bounded, canonical_mantissa in Hb.
  apply andb_true_iff in Hb. destruct Hb as [Hc _]. apply Z.eqb_eq in Hc.
  pose proof (digits2_pos_bounds m) as [Dlo Dhi].
  set (d := Zpos (digits2_pos m)) in *.
  assert (Hd : d <= prec) by (unfold SpecFloat.fexp in Hc; lia).
  assert (Hm : Zpos m < 2 ^ prec).
  { eapply Z.lt_le_trans; [exact Dhi|]. apply Z.pow_le_mono_r; lia. }
  unfold SFleb, SFcompare in Hle.
  destruct (Z.compare_spec e (1 - prec)) as [He|He|He]; try discriminate.
  - subst e. split; [lia|]. replace (- (1 - prec)) with (prec - 1) by lia.
    rewrite <- Hp.
    change (Pos.compare_cont Eq m p1) with (Pos.compare m p1) in Hle.
    destruct (Pos.compare_spec m p1); try discriminate; lia.
  - split; [lia|].
    assert (2 ^ prec <= 2 ^ (- e)) by (apply Z.pow_le_mono_r; lia). lia.
Qed.

(** The product of two positive floats, one of them at most one, is zero
    or a float that is not above the other factor. *)
Lemma SFmul_le_r (mx my : positive) (ex ey : Z) :
  bounded prec emax mx ex = true -> bounded prec emax my ey = true ->
  ex <= 0 -> Zpos mx <= 2 ^ (- ex) ->
  SFmul prec emax (S754_finite false mx ex) (S754_finite false my ey) = S754_zero false
  \/ exists mf ef,
       SFmul prec emax (S754_finite false mx ex) (S754_finite false my ey)
       = S754_finite false mf ef
       /\ ex + ey <= ef <= ey
       /\ Zpos mf * 2 ^ (ef - (ex + ey)) <= Zpos my * 2 ^ (- ex).
Proof.
  intros Hx Hy He Hm. unfold SFmul. simpl xorb.
  replace (- ex) with (ey - (ex + ey)) by lia.
  apply binary_round_aux_le; auto; try lia.
  - now apply product_exponent.
  - replace (ey - (ex + ey)) with (- ex) by lia.
    rewrite Pos2Z.inj_mul, (Z.mul_comm (Zpos mx)). apply Z.mul_le_mono_nonneg_l; lia.
Qed.

Lemma SFmul_le_l (mx my : positive) (ex ey : Z) :
  bounded prec emax mx ex = true -> bounded prec emax my ey = true ->
  ey <= 0 -> Zpos my <= 2 ^ (- ey) ->
  SFmul prec emax (S754_finite false mx ex) (S754_finite false my ey) = S754_zero false
  \/ exists mf ef,
       SFmul prec emax (S754_finite false mx ex) (S754_finite false my ey)
       = S754_finite false mf ef
       /\ ex + ey <= ef <= ex
       /\ Zpos mf * 2 ^ (ef - (ex + ey)) <= Zpos mx * 2 ^ (- ey).
Proof.
  intros Hx Hy He Hm. unfold SFmul. simpl xorb.
  replace (- ey) with (ex - (ex + ey)) by lia.
  apply binary_round_aux_le; auto; try lia.
  - now apply product_exponent.
  - replace (ex - (ex + ey)) with (- ey) by lia.
    rewrite Pos2Z.inj_mul. apply Z.mul_le_mono_nonneg_l; lia.
Qed.

End Rounding.

(** Comparison of two positive floats from their exponents and values. *)
Lemma SFleb_of_value (mf M : positive) (ef E e : Z) :
  e <= ef <= E ->
  Zpos mf * 2 ^ (ef - e) <= Zpos M * 2 ^ (E - e) ->
  SFleb (S754_finite false mf ef) (S754_finite false M E) = true.
Proof.
  intros He Hv. unfold SFleb, SFcompare.
  destruct (Z.compare_spec ef E) as [Heq|Hlt|Hgt]; try reflexivity; [|lia].
  subst E. assert (0 < 2 ^ (ef - e)) by (apply Z.pow_pos_nonneg; lia).
  assert (Zpos mf <= Zpos M) by (apply (Z.mul_le_mono_pos_r _ _ (2 ^ (ef - e))); lia).
  change (Pos.compare_cont Eq mf M) with (Pos.compare mf M).
  destruct (Pos.compare_spec mf M); try reflexivity. lia.
Qed.

(** ** The linear blend *)

Lemma f32_mul_one (x : f32) : F32.valid x = true -> F32.mul x F32.one = x.
Proof.
  intros Hv. apply (SFmul_one_r F32.prec F32.emax) with (n := 23); auto;
    unfold F32.prec, F32.emax; lia.
Qed.

Lemma quantize_zero nan (v : f32) : nonzero v = false -> quantize nan v = 0.
Proof. destruct v; try discriminate. reflexivity. Qed.

Lemma add_zero_r_quantize nan (s z : f32) :
  nonzero z = false -> quantize nan (F32.add s z) = quantize nan s.
Proof.
  destruct z as [sz| | |]; try discriminate. intros _.
  destruct s as [ss|ss| |ss ms es]; try reflexivity.
  destruct ss, sz; reflexivity.
Qed.

Lemma add_zero_l_quantize nan (z f : f32) :
  nonzero z = false -> quantize nan (F32.add z f) = quantize nan f.
Proof.
  destruct z as [sz| | |]; try discriminate. intros _.
  destruct f as [sf|sf| |sf mf ef]; try reflexivity.
  destruct sz, sf; reflexivity.
Qed.

Lemma mul_finite_zero (f z : f32) :
  is_finite f = true -> nonzero z = false -> nonzero (F32.mul f z) = false.
Proof.
  destruct z; try discriminate. destruct f; try discriminate; reflexivity.
Qed.

Lemma mul_zero_finite (z f : f32) :
  nonzero z = false -> is_finite f = true -> nonzero (F32.mul z f) = false.
Proof.
  destruct z; try discriminate. destruct f; try discriminate; reflexivity.
Qed.

Lemma blend1_mask_one nan (s f : f32) :
  F32.valid s = true -> is_finite f = true ->
  quantize nan (blend1 s F32.one f) = quantize nan s.
Proof.
  intros Hs Hf. unfold blend1. rewrite (f32_mul_one s Hs).
  apply add_zero_r_quantize. now apply mul_finite_zero.
Qed.

Lemma blend1_mask_zero nan (s m f : f32) :
  nonzero m = false -> is_finite s = true -> F32.valid f = true ->
  quantize nan (blend1 s m f) = quantize nan f.
Proof.
  intros Hm Hs Hf. unfold blend1.
  assert (E : F32.sub F32.one m = F32.one) by (destruct m; try discriminate; reflexivity).
  rewrite E, (f32_mul_one f Hf).
  apply add_zero_l_quantize. now apply mul_finite_zero.
Qed.

(** C2 (as the code has it).  Without seamless clone, on buffers of one
    shape, [apply_fixes] returns a frame whose every entry is the byte of
    [synthesized * mask + frame * (1 - mask)], computed in float32 from the
    colour-corrected image, clamped to [0, 255] and rounded.  Where the mask
    is 1 and the frame value is finite the entry is the byte of the
    synthesized value; where the mask is 0 and the synthesized value is
    finite it is the byte of the frame value. *)
Theorem apply_fixes_linear_blend
        {cv : OpenCV} {ext : Collaborators}
        (a : Arguments) (frame new_image image_mask masked : pixels)
        (image_size : Z * Z) (h w k : nat) :
  seamless_clone a = false ->
  draw_transparent a = false ->
  Convert.color_correct a frame image_mask
                        (Convert.sharpen (sharpen_image a) new_image) = Ok masked ->
  has_shape h w k frame ->
  has_shape h w k image_mask ->
  has_shape h w k masked ->
  exists out,
    Convert.apply_fixes a frame new_image image_mask image_size = Ok out
    /\ forall y x c, (y < h)%nat -> (x < w)%nat -> (c < k)%nat ->
       exists s m f,
         get3 masked y x c = Some s
         /\ get3 image_mask y x c = Some m
         /\ get3 frame y x c = Some f
         /\ get3 out y x c = Some (quantize nan_byte (blend1 s m f))
         /\ (m = F32.one -> F32.valid s = true -> is_finite f = true ->
             get3 out y x c = Some (quantize nan_byte s))
         /\ (nonzero m = false -> is_finite s = true -> F32.valid f = true ->
             get3 out y x c = Some (quantize nan_byte f)).
Proof.
  intros Hclone Htr Hcc Hf Hm Hs.
  unfold Convert.apply_fixes, Convert.apply_fixes_blended.
  rewrite Htr, Hclone. simpl. rewrite Hcc. simpl.
  unfold Convert.linear_blend.
  rewrite (elementwise_ok F32.mul h w k masked image_mask Hs Hm). simpl.
  rewrite (elementwise_ok F32.mul h w k frame _ Hf (has_shape_map3 _ h w k _ Hm)).
  simpl.
  rewrite (elementwise_ok F32.add h w k);
    [|now apply has_shape_zip_with3
     |apply has_shape_zip_with3; auto; now apply has_shape_map3].
  simpl. eexists; split; [reflexivity|].
  intros y x c Hy Hx Hc.
  destruct (has_shape_get3 h w k masked y x c Hs Hy Hx Hc) as [s Es].
  destruct (has_shape_get3 h w k image_mask y x c Hm Hy Hx Hc) as [m Em].
  destruct (has_shape_get3 h w k frame y x c Hf Hy Hx Hc) as [f Ef].
  exists s, m, f.
  assert (Eout : get3 (astype_uint8 nan_byte
                         (np_rint (np_clip
                            (zip_with3 F32.add (zip_with3 F32.mul masked image_mask)
                               (zip_with3 F32.mul frame
                                  (map3 (F32.sub F32.one) image_mask)))
                            F32.zero f32_255))) y x c
                 = Some (quantize nan_byte (blend1 s m f))).
  { unfold astype_uint8, np_rint, np_clip.
    rewrite !get3_map3, !get3_zip_with3, get3_map3, Es, Em, Ef. reflexivity. }
  repeat split; auto.
  - intros -> Hvs Hff. rewrite Eout. f_equal. now apply blend1_mask_one.
  - intros Hz Hfs Hvf. rewrite Eout. f_equal. now apply blend1_mask_zero.
Qed.

Lemma apply_fixes_linear_blend_witness :
  Convert.apply_fixes (cv := still_cv) (ext := white_model 0) plain_args
                      (gray 1 2 1 5) (gray 1 2 1 9) half_mask (2, 1)
  = Ok [[[9]; [5]]].
Proof.
  assert (Hf : has_shape 1 2 1 (gray 1 2 1 5)) by (repeat constructor).
  assert (Hm : has_shape 1 2 1 half_mask) by (repeat constructor).
  assert (Hs : has_shape 1 2 1 (gray 1 2 1 9)) by (repeat constructor).
  destruct (apply_fixes_linear_blend (cv := still_cv) (ext := white_model 0)
              plain_args (gray 1 2 1 5) (gray 1 2 1 9) half_mask (gray 1 2 1 9)
              (2, 1) 1 2 1 eq_refl eq_refl eq_refl Hf Hm Hs) as [out [E _]].
  rewrite E. vm_compute in E. symmetry. exact E.
Defined.

(** C2 (as stated) fails on a synthesized image that is not finite: with
    the average colour adjustment on and a mask that is 0 everywhere the
    corrected image is NaN, and the output is not the frame, whatever byte
    the platform makes of NaN. *)
Lemma apply_fixes_zero_mask_not_frame :
  ~ exists nan : Z,
      Convert.apply_fixes (cv := still_cv) (ext := white_model nan) avg_args
                          [[[F32.of_Z 5]]; [[F32.of_Z 9]]] (gray 2 1 1 7)
                          (np_zeros 2 1 1) (1, 2)
      = Ok [[[5]]; [[9]]].
Proof.
  intros [nan H]. vm_compute in H. injection H as H5 H9. lia.
Qed.

(** ** Coverage and padding *)

Lemma f64_of_Z_exact (n : Z) :
  0 < n < 2 ^ 53 ->
  exists M E,
    F64.of_Z n = S754_finite false M E
    /\ bounded F64.prec F64.emax M E = true
    /\ E <= 0
    /\ Zpos M = n * 2 ^ (- E).
Proof.
  intros [H0 Hn]. destruct n as [|p|p]; try lia.
  apply (of_Z_exact F64.prec F64.emax); unfold F64.prec, F64.emax; lia.
Qed.

(** A ratio in (0, 1] scales an integer size to a float between 0 and the
    size: its truncation is an integer between 0 and the size. *)
Lemma scaled_size_bounds (ratio : f64) (n : Z) :
  F64.valid ratio = true ->
  SFltb F64.zero ratio = true ->
  SFleb ratio F64.one = true ->
  0 < n < 2 ^ 53 ->
  exists c, py_int (F64.mul ratio (F64.of_Z n)) = Ok c /\ 0 <= c <= n.
Proof.
  intros Hv Hpos Hle Hn.
  destruct (f64_of_Z_exact n Hn) as [M [E [HM [HB [HE HMn]]]]]. rewrite HM.
  destruct ratio as [s|s| |s mr er]; try discriminate;
    try (destruct s; discriminate).
  destruct s; [discriminate|].
  destruct (le_one_value F64.prec F64.emax ltac:(unfold F64.prec; lia)
              mr 4503599627370496 er ltac:(reflexivity) Hv Hle) as [Her Hmr].
  destruct (SFmul_le_r F64.prec F64.emax ltac:(unfold F64.prec; lia)
              ltac:(unfold F64.prec, F64.emax; lia) mr M er E Hv HB
              ltac:(lia) Hmr) as [Hz|[mf [ef [Hf [Hef Hval]]]]];
    unfold F64.mul.
  - rewrite Hz. exists 0. split; [reflexivity | lia].
  - rewrite Hf. simpl py_int. eexists; split; [reflexivity|].
    unfold trunc, cond_Zopp.
    assert (Hp1 : 0 < 2 ^ (ef - (er + E))) by (apply Z.pow_pos_nonneg; lia).
    assert (Hp2 : 0 < 2 ^ (- ef)) by (apply Z.pow_pos_nonneg; lia).
    assert (Hbound : Zpos mf <= n * 2 ^ (- ef)).
    { apply (Z.mul_le_mono_pos_r _ _ (2 ^ (ef - (er + E)))); [lia|].
      eapply Z.le_trans; [exact Hval|]. rewrite HMn.
      rewrite <- !Z.mul_assoc, <- !Z.pow_add_r by lia.
      replace (- E + - er) with (- ef + (ef - (er + E))) by lia. lia. }
    destruct (Z.leb_spec 0 ef).
    + assert (ef = 0) by lia. subst ef. simpl in *. lia.
    + split; [apply Z.div_pos; lia|].
      apply Z.div_le_upper_bound; lia.
Qed.

(** C6 (as the code has it).  For a training size below [2 ^ 53] and a
    coverage ratio in (0, 1], the coverage is the truncation
    [int(ratio * training_size)] and lies between 0 and the training size;
    the padding is the floor of half the remainder, so that
    [0 <= padding <= training_size / 2], the crop
    [padding : training_size - padding] holds [coverage] or [coverage + 1]
    pixels, and [padding < training_size / 2] as soon as the coverage is
    not 0. *)
Theorem coverage_padding_bounds (self : ConvertState) :
  0 < training_size self < 2 ^ 53 ->
  F64.valid (training_coverage_ratio self) = true ->
  SFltb F64.zero (training_coverage_ratio self) = true ->
  SFleb (training_coverage_ratio self) F64.one = true ->
  exists coverage,
    Convert.coverage_of self = Ok coverage
    /\ coverage = trunc (F64.mul (training_coverage_ratio self)
                                 (F64.of_Z (training_size self)))
    /\ 0 <= coverage <= training_size self
    /\ 0 <= 2 * Convert.padding_of self coverage <= training_size self
    /\ (training_size self - 2 * Convert.padding_of self coverage = coverage
        \/ training_size self - 2 * Convert.padding_of self coverage = coverage + 1)
    /\ (0 < coverage -> 2 * Convert.padding_of self coverage < training_size self).
Proof.
  intros Hn Hv Hpos Hle.
  destruct (scaled_size_bounds _ _ Hv Hpos Hle Hn) as [c [Hc Hb]].
  exists c. unfold Convert.coverage_of. rewrite Hc.
  split; [reflexivity|]. split.
  - unfold py_int in Hc.
    destruct (F64.mul _ _); try discriminate; now injection Hc as <-.
  - unfold Convert.padding_of.
    pose proof (Z.div_mod (training_size self - c) 2 ltac:(lia)) as Hd.
    pose proof (Z.mod_pos_bound (training_size self - c) 2 ltac:(lia)) as Hm.
    repeat split; lia.
Qed.

Lemma coverage_padding_bounds_witness :
  Convert.coverage_of (convert_of 64 ratio_0625) = Ok 40
  /\ Convert.padding_of (convert_of 64 ratio_0625) 40 = 12.
Proof.
  destruct (coverage_padding_bounds (convert_of 64 ratio_0625))
    as [c [Hc _]]; [simpl; lia | reflexivity | reflexivity | reflexivity |].
  vm_compute in Hc. injection Hc as <-. split; reflexivity.
Defined.

(** C6 (as stated) fails twice.  The coverage is truncated, not rounded:
    0.7 x 64 = 44.8 gives 44, not 45.  And the padding reaches half the
    training size when the coverage is 0: 1/128 x 64 = 0.5 gives coverage 0
    and padding 32 = 64 / 2. *)
Lemma coverage_is_truncated_not_rounded :
  Convert.coverage_of (convert_of 64 ratio_07) = Ok 44
  /\ py_round (F64.mul ratio_07 (F64.of_Z 64)) = 45
  /\ Convert.coverage_of (convert_of 64 ratio_128th) = Ok 0
  /\ Convert.padding_of (convert_of 64 ratio_128th) 0 = 32
  /\ ~ (2 * Convert.padding_of (convert_of 64 ratio_128th) 0 < 64).
Proof.
  repeat split; try reflexivity. vm_compute. discriminate.
Qed.

(** ** The intersection of the rectangle and the hull *)

Lemma SFleb_SFltb (a b : spec_float) : SFleb a b = true -> SFltb b a = false.
Proof.
  unfold SFleb, SFltb. rewrite (SFcompare_swap a b).
  destruct (SFcompare a b) as [[]|]; simpl; congruence.
Qed.

Lemma SFleb_pos_trans (m1 m2 m3 : positive) (e1 e2 e3 : Z) :
  SFleb (S754_finite false m1 e1) (S754_finite false m2 e2) = true ->
  SFleb (S754_finite false m2 e2) (S754_finite false m3 e3) = true ->
  SFleb (S754_finite false m1 e1) (S754_finite false m3 e3) = true.
Proof.
  unfold SFleb, SFcompare.
  change (Pos.compare_cont Eq m1 m2) with (Pos.compare m1 m2).
  change (Pos.compare_cont Eq m2 m3) with (Pos.compare m2 m3).
  change (Pos.compare_cont Eq m1 m3) with (Pos.compare m1 m3).
  destruct (Z.compare_spec e1 e2), (Z.compare_spec e2 e3), (Z.compare_spec e1 e3);
    try reflexivity; try discriminate; try lia;
    destruct (Pos.compare_spec m1 m2), (Pos.compare_spec m2 m3),
             (Pos.compare_spec m1 m3);
    try reflexivity; try discriminate; try lia.
Qed.

(** Finalization leaves such a value as it is. *)
Lemma finalize_unit (v : f32) :
  in_unit v -> clip1 F32.zero F32.one (nan_to_num1 v) = v.
Proof.
  intros [Hf [H0 H1]].
  assert (E : nan_to_num1 v = v) by (destruct v; try discriminate; reflexivity).
  rewrite E. unfold clip1.
  now rewrite (SFleb_SFltb _ _ H0), (SFleb_SFltb _ _ H1).
Qed.

(** The product of two mask values is a mask value below both. *)
Lemma mul_unit (r hv : f32) :
  unit_value r -> unit_value hv ->
  in_unit (F32.mul r hv)
  /\ SFleb (F32.mul r hv) r = true
  /\ SFleb (F32.mul r hv) hv = true.
Proof.
  intros [Vr [Fr [Zr Or]]] [Vh [Fh [Zh Oh]]].
  destruct r as [sr|sr| |sr mr er]; try discriminate;
    destruct hv as [sh|sh| |sh mh eh]; try discriminate;
    try (destruct sr; try discriminate); try (destruct sh; try discriminate);
    try (repeat split; reflexivity).
  pose proof (le_one_value F32.prec F32.emax ltac:(unfold F32.prec; lia)
                mr 8388608 er ltac:(reflexivity) Vr Or) as [Her Hmr].
  pose proof (le_one_value F32.prec F32.emax ltac:(unfold F32.prec; lia)
                mh 8388608 eh ltac:(reflexivity) Vh Oh) as [Heh Hmh].
  assert (Hhr : SFleb (F32.mul (S754_finite false mr er) (S754_finite false mh eh))
                      (S754_finite false mr er) = true).
  { destruct (SFmul_le_l F32.prec F32.emax ltac:(unfold F32.prec; lia)
                ltac:(unfold F32.prec, F32.emax; lia) mr mh er eh Vr Vh
                ltac:(lia) Hmh) as [Hz|[mf [ef [Hf [Hef Hval]]]]];
      unfold F32.mul; [rewrite Hz; reflexivity|]. rewrite Hf.
    apply (SFleb_of_value mf mr ef er (er + eh)); [lia|].
    now replace (er - (er + eh)) with (- eh) by lia. }
  assert (Hhh : SFleb (F32.mul (S754_finite false mr er) (S754_finite false mh eh))
                      (S754_finite false mh eh) = true).
  { destruct (SFmul_le_r F32.prec F32.emax ltac:(unfold F32.prec; lia)
                ltac:(unfold F32.prec, F32.emax; lia) mr mh er eh Vr Vh
                ltac:(lia) Hmr) as [Hz|[mf [ef [Hf [Hef Hval]]]]];
      unfold F32.mul; [rewrite Hz; reflexivity|]. rewrite Hf.
    apply (SFleb_of_value mf mh ef eh (er + eh)); [lia|].
    now replace (eh - (er + eh)) with (- er) by lia. }
  split; [|split]; auto.
  destruct (SFmul_le_r F32.prec F32.emax ltac:(unfold F32.prec; lia)
              ltac:(unfold F32.prec, F32.emax; lia) mr mh er eh Vr Vh
              ltac:(lia) Hmr) as [Hz|[mf [ef [Hf _]]]];
    unfold F32.mul in *.
  - rewrite Hz. repeat split.
  - rewrite Hf in *. repeat split.
    exact (SFleb_pos_trans _ _ _ _ _ _ Hhh Oh).
Qed.

Lemma Forall3_get3 {A} (P : A -> Prop) (a : arr3 A) y x c v :
  Forall (Forall (Forall P)) a -> get3 a y x c = Some v -> P v.
Proof.
  intros H. unfold get3, get2.
  destruct (nth_error a y) as [row|] eqn:Ey; [|discriminate].
  destruct (nth_error row x) as [px|] eqn:Ex; [|discriminate].
  intros Ec.
  rewrite Forall_forall in H. specialize (H row (nth_error_In _ _ Ey)).
  rewrite Forall_forall in H. specialize (H px (nth_error_In _ _ Ex)).
  rewrite Forall_forall in H. exact (H v (nth_error_In _ _ Ec)).
Qed.

Lemma SFleb_refl (x : spec_float) : is_nan x = false -> SFleb x x = true.
Proof.
  unfold SFleb. destruct x as [s|[]| |[] m e]; simpl; try reflexivity; try discriminate;
    intros _; rewrite Z.compare_refl;
    change (Pos.compare_cont Eq m m) with (Pos.compare m m);
    now rewrite Pos.compare_refl.
Qed.

Lemma finalize1_in_unit (v : f32) : in_unit (finalize1 v).
Proof. apply clip1_unit, nan_to_num1_finite. Qed.

Lemma finalize1_zero_or_nan (v : f32) :
  zero_or_nan v -> nonzero (finalize1 v) = false.
Proof. destruct v; simpl; try tauto; reflexivity. Qed.

Lemma SFleb_zero_l (z x : f32) :
  nonzero z = false -> SFleb F32.zero x = true -> SFleb z x = true.
Proof. destruct z; try discriminate. intros _. exact (fun H => H). Qed.

(** The finalized product is below both finalized factors: for two mask
    values, and for any float against a hull value that is 0 or 1. *)
Lemma finalize1_mul_le (r hv : f32) :
  mask_pair r hv ->
  SFleb (finalize1 (F32.mul r hv)) (finalize1 r) = true
  /\ SFleb (finalize1 (F32.mul r hv)) (finalize1 hv) = true.
Proof.
  intros [[Ur Uh]|[Vr [H|H]]]; [|subst hv|subst hv].
  - destruct (mul_unit r hv Ur Uh) as [Up [L1 L2]].
    unfold finalize1.
    rewrite (finalize_unit _ Up), (finalize_unit r (proj2 Ur)),
      (finalize_unit hv (proj2 Uh)). auto.
  - pose proof (finalize1_zero_or_nan _ (mul_zero_r r F32.zero eq_refl)) as Hz.
    destruct (finalize1_in_unit r) as [_ [H0 _]].
    split; apply SFleb_zero_l; auto.
  - rewrite (f32_mul_one r Vr).
    destruct (finalize1_in_unit r) as [Hf [_ H1]]. split.
    + apply SFleb_refl. destruct (finalize1 r); try reflexivity; discriminate.
    + exact H1.
Qed.

Lemma finalize_mask_get3 (mask : pixels) y x c :
  get3 (Mask.finalize_mask mask) y x c = option_map finalize1 (get3 mask y x c).
Proof. rewrite finalize_mask_pointwise. apply get3_map3. Qed.

(** C9.  [facehull_rect] is the product, entry by entry, of the rectangle
    and of the hull that OpenCV draws.  After finalization it is below the
    [rect] mask and below the [facehull] mask at every entry, as soon as the
    two fields have one shape and either both take their values between 0
    and 1, or the hull is a silhouette of zeros and ones (the rectangle may
    then hold any float, overshoots of the interpolation included). *)
Theorem facehull_rect_below_rect_and_facehull
        {cv : OpenCV} {ext : Collaborators}
        (self : MaskState) (matrix : matrix) (interpolators : Z * Z)
        (detected_face : DetectedFace) (h w k : nat) :
  let kw := {| kw_matrix := matrix;
               kw_interpolators := interpolators;
               kw_landmarks := landmarks_as_xy detected_face;
               kw_image_size := (snd (frame_dims detected_face),
                                 fst (frame_dims detected_face)) |} in
  has_shape h w k (Mask.rect self kw) ->
  has_shape h w k (Mask.facehull kw) ->
  (forall y x c r f,
      get3 (Mask.rect self kw) y x c = Some r ->
      get3 (Mask.facehull kw) y x c = Some f -> mask_pair r f) ->
  Mask.facehull_rect self kw
  = Ok (zip_with3 F32.mul (Mask.rect self kw) (Mask.facehull kw))
  /\ exists both rect hull,
      Mask.get_mask (with_mask_type self "facehull_rect") matrix interpolators
                    detected_face = Ok both
      /\ Mask.get_mask (with_mask_type self "rect") matrix interpolators detected_face
         = Ok rect
      /\ Mask.get_mask (with_mask_type self "facehull") matrix interpolators
                       detected_face = Ok hull
      /\ forall y x c, (y < h)%nat -> (x < w)%nat -> (c < k)%nat ->
         exists b r f,
           get3 both y x c = Some b /\ get3 rect y x c = Some r
           /\ get3 hull y x c = Some f
           /\ SFleb b r = true /\ SFleb b f = true.
Proof.
  intros kw Sr Sh Hp.
  assert (Efr : Mask.facehull_rect self kw
                = Ok (zip_with3 F32.mul (Mask.rect self kw) (Mask.facehull kw))).
  { unfold Mask.facehull_rect. apply (elementwise_ok F32.mul h w k _ _ Sr Sh). }
  split; [exact Efr|].
  unfold Mask.get_mask. simpl mask_mask_type. fold kw.
  change (Mask.dispatch (with_mask_type self "facehull_rect") "facehull_rect" kw)
    with (Mask.facehull_rect self kw).
  change (Mask.dispatch (with_mask_type self "rect") "rect" kw)
    with (Ok (Mask.rect self kw)).
  change (Mask.dispatch (with_mask_type self "facehull") "facehull" kw)
    with (Ok (Mask.facehull kw)).
  rewrite Efr. simpl bind.
  set (r := Mask.rect self kw) in *. set (f := Mask.facehull kw) in *.
  do 3 eexists. repeat split.
  intros y x c Hy Hx Hc.
  destruct (has_shape_get3 h w k r y x c Sr Hy Hx Hc) as [vr Evr].
  destruct (has_shape_get3 h w k f y x c Sh Hy Hx Hc) as [vf Evf].
  exists (finalize1 (F32.mul vr vf)), (finalize1 vr), (finalize1 vf).
  rewrite !finalize_mask_get3, get3_zip_with3, Evr, Evf.
  destruct (finalize1_mul_le vr vf (Hp y x c vr vf Evr Evf)) as [L1 L2].
  repeat split; auto.
Qed.

Lemma facehull_rect_below_rect_and_facehull_witness :
  Mask.get_mask (cv := painting_cv) (ext := white_model 0)
                small_mask identity_matrix (INTER_CUBIC, 3) small_face
  = Ok (zip_with3 F32.mul (np_full 1 2 3 f32_half) (np_full 1 2 3 f32_three_quarters))
  /\ SFleb (F32.mul f32_half f32_three_quarters) f32_half = true
  /\ SFleb (F32.mul f32_half f32_three_quarters) f32_three_quarters = true.
Proof.
  assert (U1 : unit_value f32_half) by (repeat split).
  assert (U2 : unit_value f32_three_quarters) by (repeat split).
  destruct (facehull_rect_below_rect_and_facehull
              (cv := painting_cv) (ext := white_model 0)
              small_mask identity_matrix (INTER_CUBIC, 3) small_face 1 2 3)
    as [_ [both [rect [hull [Eb [Er [Eh Hle]]]]]]];
    [repeat constructor | repeat constructor | |].
  - intros y x c r f Gr Gf. left.
    destruct y as [|y]; [|destruct y; discriminate].
    destruct x as [|[|x]]; [| |destruct x; discriminate];
      (destruct c as [|[|[|c]]]; [| | |destruct c; discriminate]);
      vm_compute in Gr, Gf; injection Gr as <-; injection Gf as <-; split; assumption.
  - vm_compute in Er. vm_compute in Eh. vm_compute in Eb.
    injection Er as <-. injection Eh as <-. injection Eb as <-.
    destruct (Hle 0%nat 1%nat 2%nat) as [b [r [f [Gb [Gr [Gf [L1 L2]]]]]]]; try lia.
    vm_compute in Gb, Gr, Gf.
    injection Gb as <-. injection Gr as <-. injection Gf as <-.
    split; [vm_compute; reflexivity | split; [exact L1 | exact L2]].
Defined.

(** ** The face that the aligner supplies *)

Lemma nth_error_mapi {A B} (f : nat -> A -> B) (l : list A) (i j : nat) :
  nth_error (mapi f i l) j = option_map (f (i + j)%nat) (nth_error l j).
Proof.
  revert i j; induction l as [|a l IH]; intros i [|j]; simpl; auto.
  - now rewrite Nat.add_0_r.
  - rewrite IH. now replace (S i + j)%nat with (i + S j)%nat by lia.
Qed.

(** The entries of a buffer after [a[crop, crop] = patch]. *)
Lemma assign_crop_entries (crop : Z * Z) (patch a a' : pixels) (y x : nat) :
  assign_crop crop patch a = Ok a' ->
  same_shape (crop2 crop crop a) patch = true
  /\ get2 a' y x
     = match nth_error a y with
       | Some row =>
           if in_slice (List.length a) crop y && in_slice (List.length row) crop x
           then option_map
                  (fun px =>
                     nth (x - Z.to_nat (fst (slice_bounds (List.length row) crop)))
                         (nth (y - Z.to_nat (fst (slice_bounds (List.length a) crop)))
                              patch [])
                         px)
                  (nth_error row x)
           else nth_error row x
       | None => None
       end.
Proof.
  unfold assign_crop. destruct (same_shape _ patch); [|discriminate].
  intros [= <-]. split; [reflexivity|].
  unfold get2. rewrite nth_error_mapi. simpl.
  destruct (nth_error a y) as [row|]; simpl; [|reflexivity].
  rewrite nth_error_mapi. simpl.
  destruct (nth_error row x) as [px|]; simpl.
  - destruct (in_slice _ crop y && in_slice _ crop x); reflexivity.
  - destruct (in_slice _ crop y && in_slice _ crop x); reflexivity.
Qed.

Section DetectedFaceWrites.
Context {cv : OpenCV} {ext : Collaborators}.

(** What [get_new_image] leaves of the face: the matrix, the landmarks
    and the frame dimensions (the three projections below), and an
    aligned crop that is either untouched, when the call fails, or the old
    one with the synthesized patch assigned to the coverage region. *)
Lemma get_new_image_face (self : ConvertState) (image : pixels) (face : DetectedFace)
      (mat : matrix) (interpolators : Z * Z) (coverage : Z) :
  let '(face', r) := Convert.get_new_image self image face mat interpolators coverage in
  aligned_matrix face' = aligned_matrix face
  /\ landmarks_as_xy face' = landmarks_as_xy face
  /\ frame_dims face' = frame_dims face
  /\ (is_ok r = false -> aligned_face face' = aligned_face face)
  /\ (is_ok r = true ->
      exists c patch,
        crop self = Some c
        /\ Convert.synthesize self c (aligned_face face) interpolators coverage = Ok patch
        /\ assign_crop c patch (aligned_face face) = Ok (aligned_face face')).
Proof.
  unfold Convert.get_new_image. destruct (crop self) as [c|].
  - destruct (Convert.synthesize self c (aligned_face face) interpolators coverage)
      as [patch|e] eqn:Es; simpl.
    + destruct (assign_crop c patch (aligned_face face)) as [src|e] eqn:Ea; simpl.
      * repeat split; try discriminate. intros _. exists c, patch. auto.
      * repeat split; discriminate.
    + repeat split; discriminate.
  - simpl. repeat split; discriminate.
Qed.

(** C5 (as the code has it).  When [patch_image] returns a frame, the
    matrix, the landmarks and the frame dimensions of the face are those
    the aligner loaded, but the aligned crop is not: it is the loaded crop
    with the synthesized patch (the output of the model for the coverage
    region, resized to the coverage and scaled to [0, 255]) assigned in
    place to the coverage region; outside of the region the crop is as
    loaded. *)
Theorem patch_image_overwrites_coverage
        (self self' : ConvertState) (image : pixels) (face face' : DetectedFace)
        (out : arr3 Z) :
  Convert.patch_image self image face = (self', face', Ok out) ->
  let loaded := load_aligned image (training_size self) false face in
  aligned_matrix face' = aligned_matrix loaded
  /\ landmarks_as_xy face' = landmarks_as_xy loaded
  /\ frame_dims face' = frame_dims loaded
  /\ exists coverage matrix patch,
       Convert.coverage_of self = Ok coverage
       /\ let padding := Convert.padding_of self coverage in
          let c := (padding, training_size self - padding) in
          crop self' = Some c
          /\ Convert.scale_matrix (aligned_matrix loaded)
                                  (training_size self - 2 * padding) padding = Ok matrix
          /\ Convert.synthesize self' c (aligned_face loaded)
                                (get_matrix_scaling matrix) coverage = Ok patch
          /\ assign_crop c patch (aligned_face loaded) = Ok (aligned_face face')
          /\ same_shape (crop2 c c (aligned_face loaded)) patch = true
          /\ forall y x,
               get2 (aligned_face face') y x
               = match nth_error (aligned_face loaded) y with
                 | Some row =>
                     if in_slice (List.length (aligned_face loaded)) c y
                        && in_slice (List.length row) c x
                     then option_map
                            (fun px =>
                               nth (x - Z.to_nat (fst (slice_bounds (List.length row) c)))
                                   (nth (y - Z.to_nat
                                               (fst (slice_bounds
                                                       (List.length (aligned_face loaded))
                                                       c)))
                                        patch [])
                                   px)
                            (nth_error row x)
                     else nth_error row x
                 | None => None
                 end.
Proof.
  unfold Convert.patch_image.
  destruct (Convert.coverage_of self) as [coverage|e] eqn:Ec; [|discriminate].
  set (padding := Convert.padding_of self coverage).
  set (c := (padding, training_size self - padding)).
  set (self1 := set_crop self c).
  set (self2 := match mask self1 with
                | Some _ => self1
                | None => set_mask self1 _
                end).
  assert (Hcrop : crop self2 = Some c).
  { unfold self2. destruct (mask self1); reflexivity. }
  assert (Hsize : training_size self2 = training_size self).
  { unfold self2. destruct (mask self1); reflexivity. }
  rewrite Hsize.
  set (loaded := load_aligned image (training_size self) false face).
  destruct (Convert.scale_matrix _ _ _) as [matrix|e] eqn:Em; [|discriminate].
  pose proof (get_new_image_face self2 image loaded matrix
                (get_matrix_scaling matrix) coverage) as G.
  destruct (Convert.get_new_image self2 image loaded matrix
              (get_matrix_scaling matrix) coverage) as [face1 r].
  destruct G as [Gm [Gl [Gd [_ Gok]]]].
  intros E. injection E as <- <- E.
  destruct r as [new_image|e]; [|discriminate].
  destruct (Gok eq_refl) as [c' [patch [Hc' [Hs Ha]]]].
  rewrite Hcrop in Hc'. injection Hc' as <-.
  repeat split; auto.
  exists coverage, matrix, patch. split; [reflexivity|]. cbv zeta. fold padding. fold c.
  split; [exact Hcrop|].
  split; [exact Em|].
  split; [exact Hs|].
  split; [exact Ha|].
  split; [exact (proj1 (assign_crop_entries c patch _ _ 0 0 Ha))|].
  intros y x. exact (proj2 (assign_crop_entries c patch _ _ y x Ha)).
Qed.
End DetectedFaceWrites.

Lemma patch_image_overwrites_coverage_witness :
  snd patched_4x4 = Ok (astype_uint8 0 (gray 4 4 3 20))
  /\ aligned_matrix (snd (fst patched_4x4)) = identity_matrix
  /\ get2 (aligned_face (snd (fst patched_4x4))) 1 2 = Some [f32_255; f32_255; f32_255]
  /\ get2 (aligned_face (snd (fst patched_4x4))) 0 2
     = Some [F32.of_Z 10; F32.of_Z 10; F32.of_Z 10].
Proof.
  assert (E : patched_4x4
              = (fst (fst patched_4x4), snd (fst patched_4x4),
                 Ok (astype_uint8 0 (gray 4 4 3 20)))) by (vm_compute; reflexivity).
  destruct (patch_image_overwrites_coverage (cv := still_cv) (ext := white_model 0)
              _ _ _ _ _ _ E) as [Hm _].
  split; [vm_compute; reflexivity|].
  split; [rewrite Hm; reflexivity|].
  split; vm_compute; reflexivity.
Defined.

(** C5 (as stated) fails: [patch_image] returns a frame and the aligned
    crop of the face is no longer what it was on entry. *)
Lemma patch_image_changes_aligned_face :
  is_ok (snd patched_4x4) = true
  /\ aligned_face (snd (fst patched_4x4)) <> aligned_face face_4x4.
Proof.
  split; [vm_compute; reflexivity | vm_compute; discriminate].
Qed.

(** ** The index arrays of [np.nonzero] *)

Lemma In_flat_mapi {A B} (f : nat -> A -> list B) (l : list A) (i : nat) (b : B) :
  In b (flat_mapi f i l)
  <-> exists j a, nth_error l j = Some a /\ In b (f (i + j)%nat a).
Proof.
  revert i; induction l as [|a l IH]; intros i; simpl.
  - split; [tauto|]. intros [[|j] [a [E _]]]; discriminate.
  - rewrite in_app_iff, IH. split.
    + intros [H|[j [a' [E H]]]].
      * exists O, a. rewrite Nat.add_0_r. auto.
      * exists (S j), a'. replace (i + S j)%nat with (S i + j)%nat by lia. auto.
    + intros [[|j] [a' [E H]]]; simpl in E.
      * injection E as <-. rewrite Nat.add_0_r in H. auto.
      * right. exists j, a'. replace (S i + j)%nat with (i + S j)%nat by lia. auto.
Qed.

(** [np.nonzero] lists exactly the positions of the non-zero entries. *)
Lemma np_nonzero3_spec (m : pixels) (y x c : nat) :
  In (y, x, c) (np_nonzero3 m)
  <-> exists v, get3 m y x c = Some v /\ nonzero v = true.
Proof.
  unfold np_nonzero3, get3, get2. rewrite In_flat_mapi. split.
  - intros [y' [row [Ey H]]]. rewrite In_flat_mapi in H.
    destruct H as [x' [px [Ex H]]]. rewrite In_flat_mapi in H.
    destruct H as [c' [v [Ec H]]]. simpl in H.
    destruct (nonzero v) eqn:Hv; [|contradiction].
    destruct H as [H|[]]. injection H as <- <- <-.
    rewrite Ey, Ex. eauto.
  - intros [v [E Hv]].
    destruct (nth_error m y) as [row|] eqn:Ey; [|discriminate].
    destruct (nth_error row x) as [px|] eqn:Ex; [|discriminate].
    exists y, row. split; [exact Ey|]. rewrite In_flat_mapi.
    exists x, px. split; [exact Ex|]. rewrite In_flat_mapi.
    exists c, v. split; [exact E|]. simpl. rewrite Hv. now left.
Qed.

Lemma np_nonzero2_spec (m : arr2 f32) (y x : nat) :
  In (y, x) (np_nonzero2 m)
  <-> exists v, get2 m y x = Some v /\ nonzero v = true.
Proof.
  unfold np_nonzero2, get2. rewrite In_flat_mapi. split.
  - intros [y' [row [Ey H]]]. rewrite In_flat_mapi in H.
    destruct H as [x' [v [Ex H]]]. simpl in H.
    destruct (nonzero v) eqn:Hv; [|contradiction].
    destruct H as [H|[]]. injection H as <- <-.
    rewrite Ey. eauto.
  - intros [v [E Hv]].
    destruct (nth_error m y) as [row|] eqn:Ey; [|discriminate].
    exists y, row. split; [exact Ey|]. rewrite In_flat_mapi.
    exists x, v. split; [exact E|]. simpl. rewrite Hv. now left.
Qed.

Lemma Forall3_of_get3 {A} (P : A -> Prop) (a : arr3 A) :
  (forall y x c v, get3 a y x c = Some v -> P v) -> Forall (Forall (Forall P)) a.
Proof.
  intros H. apply Forall_forall; intros row Hrow.
  apply Forall_forall; intros px Hpx. apply Forall_forall; intros v Hv.
  apply In_nth_error in Hrow, Hpx, Hv.
  destruct Hrow as [y Ey], Hpx as [x Ex], Hv as [c Ec].
  apply (H y x c). unfold get3, get2. now rewrite Ey, Ex.
Qed.

Lemma np_nonzero3_nil (m : pixels) : np_nonzero3 m = [] -> all_zero3 m.
Proof.
  intros E. apply Forall3_of_get3. intros y x c v G.
  destruct (nonzero v) eqn:Hv; [|reflexivity].
  assert (H : In (y, x, c) (np_nonzero3 m)) by (apply np_nonzero3_spec; eauto).
  rewrite E in H. destruct H.
Qed.

(** ** The bounding box of the seamless clone *)

Lemma np_min_ok (l : list Z) : l <> [] -> exists v, np_min l = Ok v.
Proof. destruct l; [congruence | simpl; eauto]. Qed.

Lemma np_max_ok (l : list Z) : l <> [] -> exists v, np_max l = Ok v.
Proof. destruct l; [congruence | simpl; eauto]. Qed.

Lemma fold_min_spec (l : list Z) (a : Z) :
  (fold_left Z.min l a = a \/ In (fold_left Z.min l a) l)
  /\ fold_left Z.min l a <= a
  /\ forall x, In x l -> fold_left Z.min l a <= x.
Proof.
  revert a; induction l as [|b l IH]; intros a; simpl.
  - split; [now left|]. split; [lia | tauto].
  - destruct (IH (Z.min a b)) as [Hin [Hle Hall]]. split; [|split].
    + destruct Hin as [E|Hin]; [|now right; right].
      rewrite E. destruct (Z.min_spec a b) as [[_ ->]|[_ ->]]; auto.
    + lia.
    + intros x [<-|Hx]; [lia | auto].
Qed.

Lemma fold_max_spec (l : list Z) (a : Z) :
  (fold_left Z.max l a = a \/ In (fold_left Z.max l a) l)
  /\ a <= fold_left Z.max l a
  /\ forall x, In x l -> x <= fold_left Z.max l a.
Proof.
  revert a; induction l as [|b l IH]; intros a; simpl.
  - split; [now left|]. split; [lia | tauto].
  - destruct (IH (Z.max a b)) as [Hin [Hle Hall]]. split; [|split].
    + destruct Hin as [E|Hin]; [|now right; right].
      rewrite E. destruct (Z.max_spec a b) as [[_ ->]|[_ ->]]; auto.
    + lia.
    + intros x [<-|Hx]; [lia | auto].
Qed.

(** [np.min] and [np.max] return the bound that is reached. *)
Lemma np_min_spec (l : list Z) (m : Z) :
  In m l -> (forall x, In x l -> m <= x) -> np_min l = Ok m.
Proof.
  destruct l as [|a l]; [intros []|]. intros Hin Hall. simpl. f_equal.
  destruct (fold_min_spec l a) as [Hm [Hle Hl]].
  assert (m <= fold_left Z.min l a).
  { apply Hall. destruct Hm as [->|Hm]; [now left | now right]. }
  destruct Hin as [<-|Hin]; [lia|]. specialize (Hl m Hin). lia.
Qed.

Lemma np_max_spec (l : list Z) (m : Z) :
  In m l -> (forall x, In x l -> x <= m) -> np_max l = Ok m.
Proof.
  destruct l as [|a l]; [intros []|]. intros Hin Hall. simpl. f_equal.
  destruct (fold_max_spec l a) as [Hm [Hle Hl]].
  assert (fold_left Z.max l a <= m).
  { apply Hall. destruct Hm as [->|Hm]; [now left | now right]. }
  destruct Hin as [<-|Hin]; [lia|]. specialize (Hl m Hin). lia.
Qed.

(** ** Slices, padding and shapes *)

Lemma py_index_bounds (n i : Z) : 0 <= n -> 0 <= py_index n i <= n.
Proof. unfold py_index. destruct (Z.ltb_spec i 0); lia. Qed.

Lemma py_slice_length {A} (s : Z * Z) (l : list A) :
  List.length (py_slice s l)
  = Z.to_nat (snd (slice_bounds (List.length l) s) - fst (slice_bounds (List.length l) s)).
Proof.
  unfold py_slice, slice_bounds. simpl.
  pose proof (py_index_bounds (Z.of_nat (List.length l)) (fst s) ltac:(lia)).
  pose proof (py_index_bounds (Z.of_nat (List.length l)) (snd s) ltac:(lia)).
  rewrite length_firstn, length_skipn. lia.
Qed.

Lemma In_firstn {A} (n : nat) (l : list A) (a : A) : In a (firstn n l) -> In a l.
Proof.
  revert l; induction n as [|n IH]; intros [|b l]; simpl; try tauto.
  intros [H|H]; auto.
Qed.

Lemma In_skipn {A} (n : nat) (l : list A) (a : A) : In a (skipn n l) -> In a l.
Proof.
  revert l; induction n as [|n IH]; intros [|b l]; simpl; try tauto.
  intros H. right. auto.
Qed.

Lemma py_slice_incl {A} (s : Z * Z) (l : list A) (a : A) : In a (py_slice s l) -> In a l.
Proof.
  unfold py_slice. destruct (slice_bounds _ s) as [lo hi]. intros H.
  apply In_firstn in H. eapply In_skipn; eauto.
Qed.

Lemma Forall_py_slice {A} (P : A -> Prop) (s : Z * Z) (l : list A) :
  Forall P l -> Forall P (py_slice s l).
Proof.
  rewrite !Forall_forall. intros H a Ha. apply H. eapply py_slice_incl; eauto.
Qed.

(** The shape of [a[ys, xs]]. *)
Lemma has_shape_crop2 {A} (h w k : nat) (ys xs : Z * Z) (a : arr3 A) :
  has_shape h w k a ->
  has_shape (Z.to_nat (snd (slice_bounds h ys) - fst (slice_bounds h ys)))
            (Z.to_nat (snd (slice_bounds w xs) - fst (slice_bounds w xs)))
            k (crop2 ys xs a).
Proof.
  intros [Hl Hr]. unfold crop2. split.
  - rewrite length_map, py_slice_length, Hl. reflexivity.
  - apply Forall_map, Forall_py_slice. eapply Forall_impl; [|exact Hr].
    intros row [Hw Hpx]. split.
    + rewrite py_slice_length, Hw. reflexivity.
    + now apply Forall_py_slice.
Qed.

Lemma Forall_repeat {A} (P : A -> Prop) (a : A) (n : nat) : P a -> Forall P (repeat a n).
Proof. intros H. induction n; simpl; constructor; auto. Qed.

(** The shape of [np.pad(a, ((h, h), (w, w), (0, 0)), 'constant')]. *)
Lemma has_shape_np_pad {A} (zero : A) (ph pw : Z) (h w k : nat) (a : arr3 A) :
  has_shape h w k a -> (0 < h)%nat -> (0 < w)%nat ->
  has_shape (Z.to_nat ph + h + Z.to_nat ph) (Z.to_nat pw + w + Z.to_nat pw) k
            (np_pad zero ph pw a).
Proof.
  intros Ha Hh Hw. pose proof (channels_has_shape h w k a Ha Hh Hw) as Hk.
  destruct Ha as [Hl Hr]. unfold np_pad.
  assert (Hwidth : match a with r :: _ => List.length r | [] => O end = w).
  { destruct a as [|row a]; simpl in *; [lia|]. inversion Hr as [|? ? [Hrow _] _]; auto. }
  rewrite Hwidth, Hk.
  assert (Hz : List.length (repeat (repeat zero k) (Z.to_nat pw + w + Z.to_nat pw))
               = (Z.to_nat pw + w + Z.to_nat pw)%nat
               /\ Forall (fun px => List.length px = k)
                         (repeat (repeat zero k) (Z.to_nat pw + w + Z.to_nat pw))).
  { split; [apply repeat_length | apply Forall_repeat, repeat_length]. }
  split.
  - rewrite !length_app, !repeat_length, length_map. lia.
  - apply Forall_app. split; [now apply Forall_repeat|].
    apply Forall_app. split; [|now apply Forall_repeat].
    apply Forall_map. eapply Forall_impl; [|exact Hr].
    intros row [Hrow Hpx]. split.
    + rewrite !length_app, !repeat_length. lia.
    + apply Forall_app. split; [apply Forall_repeat, repeat_length|].
      apply Forall_app. split; [exact Hpx | apply Forall_repeat, repeat_length].
Qed.

Lemma get3_inside {A} (h w k : nat) (a : arr3 A) (y x c : nat) (v : A) :
  has_shape h w k a -> get3 a y x c = Some v -> (y < h)%nat /\ (x < w)%nat /\ (c < k)%nat.
Proof.
  intros [Hl Hr]. unfold get3, get2.
  destruct (nth_error a y) as [row|] eqn:Ey; [|discriminate].
  destruct (nth_error row x) as [px|] eqn:Ex; [|discriminate].
  intros Ec. rewrite Forall_forall in Hr.
  destruct (Hr row (nth_error_In _ _ Ey)) as [Hw Hpx].
  rewrite Forall_forall in Hpx. pose proof (Hpx px (nth_error_In _ _ Ex)) as Hk.
  repeat split.
  - rewrite <- Hl. apply nth_error_Some. congruence.
  - rewrite <- Hw. apply nth_error_Some. congruence.
  - rewrite <- Hk. apply nth_error_Some. congruence.
Qed.

Section SeamlessCloneShape.
Context {cv : OpenCV} {ext : Collaborators}.

(** X2.  The frame is padded by half its height and half its width before
    the clone, and the result is cut back with [blended[h:-h, w:-w, :]].
    As [cv2.seamlessClone] returns an image of the size of its destination,
    the two steps cancel on a frame of at least 2 x 2 pixels: the blended
    buffer has the shape of the frame. *)
Theorem seamless_keeps_frame_shape
        (frame image_mask masked : pixels) (h w k : nat) :
  (forall src dst msk center flags,
      shape3 (cv2_seamlessClone src dst msk center flags) = shape3 dst) ->
  has_shape h w k frame -> (2 <= h)%nat -> (2 <= w)%nat ->
  ~ all_zero3 image_mask ->
  exists out,
    Convert.seamless frame image_mask masked = Ok (Convert.Bytes out)
    /\ has_shape h w k out.
Proof.
  intros Hcv Hf Hh Hw Hne. unfold Convert.seamless.
  assert (Hidx : np_nonzero3 image_mask <> []).
  { intros E. apply Hne, np_nonzero3_nil. exact E. }
  set (idx := np_nonzero3 image_mask) in *.
  destruct (np_min_ok (map (fun i => Z.of_nat (fst (fst i))) idx)) as [y_min ->];
    [destruct idx; [congruence | discriminate]|].
  destruct (np_max_ok (map (fun i => Z.of_nat (fst (fst i))) idx)) as [y_max ->];
    [destruct idx; [congruence | discriminate]|].
  destruct (np_min_ok (map (fun i => Z.of_nat (snd (fst i))) idx)) as [x_min ->];
    [destruct idx; [congruence | discriminate]|].
  destruct (np_max_ok (map (fun i => Z.of_nat (snd (fst i))) idx)) as [x_max ->];
    [destruct idx; [congruence | discriminate]|].
  simpl bind. eexists. split; [reflexivity|].
  assert (Hlen : List.length frame = h) by apply Hf.
  assert (Hwid : List.length (hd [] frame) = w).
  { destruct Hf as [_ Hr]. destruct frame as [|row frame]; simpl in *; [lia|].
    inversion Hr as [|? ? [Hrow _] _]; auto. }
  rewrite Hlen, Hwid.
  set (ph := Z.of_nat h / 2). set (pw := Z.of_nat w / 2).
  assert (Hph : 1 <= ph <= Z.of_nat h).
  { unfold ph. split; [apply Z.div_le_lower_bound; lia|].
    apply Z.div_le_upper_bound; lia. }
  assert (Hpw : 1 <= pw <= Z.of_nat w).
  { unfold pw. split; [apply Z.div_le_lower_bound; lia|].
    apply Z.div_le_upper_bound; lia. }
  pose proof (has_shape_np_pad F32.zero ph pw h w k frame Hf ltac:(lia) ltac:(lia)) as Hp.
  apply (has_shape_map3 (to_uint8 nan_byte)) in Hp.
  fold (astype_uint8 nan_byte (np_pad F32.zero ph pw frame)) in Hp.
  set (prior := astype_uint8 nan_byte (np_pad F32.zero ph pw frame)) in *.
  set (blended := cv2_seamlessClone _ prior _ _ _).
  assert (Hb : has_shape (Z.to_nat ph + h + Z.to_nat ph) (Z.to_nat pw + w + Z.to_nat pw) k
                         blended).
  { apply has_shape_of_shape3. unfold blended. rewrite Hcv.
    now apply shape3_has_shape. }
  pose proof (has_shape_crop2 _ _ _ (ph, - ph) (pw, - pw) blended Hb) as Hc.
  unfold slice_bounds, py_index in Hc. simpl fst in Hc. simpl snd in Hc.
  destruct (Z.ltb_spec ph 0); [lia|]. destruct (Z.ltb_spec (- ph) 0); [|lia].
  destruct (Z.ltb_spec pw 0); [lia|]. destruct (Z.ltb_spec (- pw) 0); [|lia].
  replace (Z.to_nat _) with h in Hc by lia.
  replace (Z.to_nat _) with w in Hc by lia.
  exact Hc.
Qed.

(** X4.  The bounding box of the mask is cut out with
    [slice(min, max)], which leaves the last row and the last column out.
    For a mask whose non-zero entries span the rows [y0] to [y1] and the
    columns [x0] to [x1], the insertion and its mask that
    [cv2.seamlessClone] is called with have [y1 - y0] rows and [x1 - x0]
    columns (none at all when the entries lie in one row or one column), and
    the centre is the rounded middle of the bounds, moved by the padding. *)
Theorem seamless_insertion_shape
        (frame image_mask masked : pixels) (h w k y0 y1 x0 x1 : nat) :
  has_shape h w k masked ->
  has_shape h w k image_mask ->
  bounding_box image_mask y0 y1 x0 x1 ->
  exists insertion insertion_mask,
    Convert.seamless frame image_mask masked
    = Ok (Convert.Bytes
            (crop2 (half_height frame, - half_height frame)
                   (half_width frame, - half_width frame)
                   (cv2_seamlessClone
                      insertion
                      (astype_uint8 nan_byte
                         (np_pad F32.zero (half_height frame) (half_width frame) frame))
                      insertion_mask
                      (round_half_even (Z.of_nat x1 + Z.of_nat x0) 2 + half_width frame,
                       round_half_even (Z.of_nat y1 + Z.of_nat y0) 2 + half_height frame)
                      NORMAL_CLONE)))
    /\ has_shape (y1 - y0) (x1 - x0) k insertion
    /\ has_shape (y1 - y0) (x1 - x0) k insertion_mask.
Proof.
  intros Hs Hm [Hbox [[xa [ca [va [Ga Na]]]] [[xb [cb [vb [Gb Nb]]]]
                      [[yc [cc [vc [Gc Nc]]]] [yd [cd [vd [Gd Nd]]]]]]]].
  unfold Convert.seamless. fold (half_height frame). fold (half_width frame).
  set (idx := np_nonzero3 image_mask).
  assert (Hin : forall y x c, In (y, x, c) idx ->
                  (y0 <= y <= y1)%nat /\ (x0 <= x <= x1)%nat).
  { intros y x c H. apply np_nonzero3_spec in H. destruct H as [v [G N]]. eauto. }
  assert (Hmem : forall y x c v, get3 image_mask y x c = Some v -> nonzero v = true ->
                   In (y, x, c) idx).
  { intros y x c v G N. apply np_nonzero3_spec. eauto. }
  assert (Hrow : forall y x c v, get3 image_mask y x c = Some v -> nonzero v = true ->
                   In (Z.of_nat y) (map (fun i => Z.of_nat (fst (fst i))) idx)).
  { intros y x c v G N. apply in_map_iff. exists (y, x, c). eauto. }
  assert (Hcol : forall y x c v, get3 image_mask y x c = Some v -> nonzero v = true ->
                   In (Z.of_nat x) (map (fun i => Z.of_nat (snd (fst i))) idx)).
  { intros y x c v G N. apply in_map_iff. exists (y, x, c). eauto. }
  rewrite (np_min_spec _ (Z.of_nat y0) (Hrow _ _ _ _ Ga Na)),
    (np_max_spec _ (Z.of_nat y1) (Hrow _ _ _ _ Gb Nb)),
    (np_min_spec _ (Z.of_nat x0) (Hcol _ _ _ _ Gc Nc)),
    (np_max_spec _ (Z.of_nat x1) (Hcol _ _ _ _ Gd Nd));
    try (intros z Hz; apply in_map_iff in Hz; destruct Hz as [[[y x] c] [<- Hz]];
         destruct (Hin y x c Hz); simpl; lia).
  cbn [bind]. do 2 eexists. split; [reflexivity|].
  destruct (get3_inside h w k image_mask y1 xb cb vb Hm Gb) as [Hy1 _].
  destruct (get3_inside h w k image_mask yd x1 cd vd Hm Gd) as [_ [Hx1 _]].
  destruct (Hin y0 xa ca (Hmem _ _ _ _ Ga Na)) as [Hy01 _].
  destruct (Hin yc x0 cc (Hmem _ _ _ _ Gc Nc)) as [_ Hx01].
  assert (Hshape : forall a : pixels, has_shape h w k a ->
            has_shape (y1 - y0) (x1 - x0) k
                      (crop2 (Z.of_nat y0, Z.of_nat y1) (Z.of_nat x0, Z.of_nat x1) a)).
  { intros a Ha.
    pose proof (has_shape_crop2 h w k (Z.of_nat y0, Z.of_nat y1)
                                (Z.of_nat x0, Z.of_nat x1) a Ha) as Hc.
    unfold slice_bounds, py_index in Hc. simpl fst in Hc. simpl snd in Hc.
    destruct (Z.ltb_spec (Z.of_nat y0) 0); [lia|].
    destruct (Z.ltb_spec (Z.of_nat y1) 0); [lia|].
    destruct (Z.ltb_spec (Z.of_nat x0) 0); [lia|].
    destruct (Z.ltb_spec (Z.of_nat x1) 0); [lia|].
    replace (Z.to_nat _) with (y1 - y0)%nat in Hc by lia.
    replace (Z.to_nat _) with (x1 - x0)%nat in Hc by lia.
    exact Hc. }
  split; unfold astype_uint8, np_rint; repeat apply has_shape_map3; now apply Hshape.
Qed.
End SeamlessCloneShape.

Lemma block_mask_box : bounding_box block_mask 0 1 1 2.
Proof.
  assert (Hshape : has_shape 3 3 1 block_mask) by (repeat constructor).
  split; [|repeat split].
  - intros y x c v G N.
    destruct (get3_inside 3 3 1 block_mask y x c v Hshape G) as [Hy [Hx Hc]].
    destruct y as [|[|[|y]]]; try lia; destruct x as [|[|[|x]]]; try lia;
      destruct c; try lia; simpl in G; injection G as <-; try discriminate N; lia.
  - exists 1%nat, 0%nat, F32.one. split; reflexivity.
  - exists 1%nat, 0%nat, F32.one. split; reflexivity.
  - exists 0%nat, 0%nat, F32.one. split; reflexivity.
  - exists 0%nat, 0%nat, F32.one. split; reflexivity.
Qed.

Lemma seamless_insertion_shape_witness :
  exists insertion insertion_mask,
    Convert.seamless (cv := still_cv) (ext := white_model 0)
                     (gray 3 3 1 5) block_mask (gray 3 3 1 9)
    = Ok (Convert.Bytes
            (crop2 (half_height (gray 3 3 1 5), - half_height (gray 3 3 1 5))
                   (half_width (gray 3 3 1 5), - half_width (gray 3 3 1 5))
                   (cv2_seamlessClone (OpenCV := still_cv)
                      insertion
                      (astype_uint8 0
                         (np_pad F32.zero (half_height (gray 3 3 1 5))
                                 (half_width (gray 3 3 1 5)) (gray 3 3 1 5)))
                      insertion_mask
                      (round_half_even (Z.of_nat 2 + Z.of_nat 1) 2
                       + half_width (gray 3 3 1 5),
                       round_half_even (Z.of_nat 1 + Z.of_nat 0) 2
                       + half_height (gray 3 3 1 5))
                      NORMAL_CLONE)))
    /\ has_shape (1 - 0) (2 - 1) 1 insertion
    /\ has_shape (1 - 0) (2 - 1) 1 insertion_mask.
Proof.
  apply (seamless_insertion_shape (cv := still_cv) (ext := white_model 0)
           (gray 3 3 1 5) block_mask (gray 3 3 1 9) 3 3 1 0 1 1 2).
  - repeat constructor.
  - repeat constructor.
  - exact block_mask_box.
Defined.

Lemma centred_mask_not_empty : ~ all_zero3 centred_mask.
Proof. intros H. apply np_nonzero3_zero in H. discriminate H. Qed.

Lemma seamless_keeps_frame_shape_witness :
  exists out,
    Convert.seamless (cv := still_cv) (ext := white_model 0)
                     (gray 5 5 3 5) centred_mask (gray 5 5 3 9) = Ok (Convert.Bytes out)
    /\ has_shape 5 5 3 out.
Proof.
  apply (seamless_keeps_frame_shape (cv := still_cv) (ext := white_model 0)
           (gray 5 5 3 5) centred_mask (gray 5 5 3 9) 5 5 3).
  - reflexivity.
  - repeat constructor.
  - lia.
  - lia.
  - exact centred_mask_not_empty.
Defined.

(** ** The mask that the frame is blended with *)

Lemma clip1_nan (lo hi : f32) : clip1 lo hi S754_nan = S754_nan.
Proof. destruct lo as [|[]| |], hi as [|[]| |]; reflexivity. Qed.

(** A clamp between two floats returns NaN, on NaN, or a value between
    them. *)
Lemma clip1_between (lo hi x : f32) :
  is_nan lo = false -> is_nan hi = false -> SFleb lo hi = true ->
  nan_or_between lo hi (clip1 lo hi x).
Proof.
  intros Hlo Hhi Hle. unfold nan_or_between.
  destruct (is_nan x) eqn:Hx.
  - left. destruct x; try discriminate. now rewrite clip1_nan.
  - right. unfold clip1. destruct (SFltb x lo) eqn:E1.
    + split; [now apply SFleb_refl | exact Hle].
    + destruct (SFltb hi x) eqn:E2.
      * split; [exact Hle | now apply SFleb_refl].
      * split; apply SFltb_false_SFleb; auto.
Qed.

Lemma clip1_id_unit (v : f32) : in_unit v -> clip1 F32.zero F32.one v = v.
Proof.
  intros [_ [H0 H1]]. unfold clip1.
  now rewrite (SFleb_SFltb _ _ H0), (SFleb_SFltb _ _ H1).
Qed.

Lemma np_clip_finalize_mask (mask : pixels) :
  np_clip (Mask.finalize_mask mask) F32.zero F32.one = Mask.finalize_mask mask.
Proof.
  rewrite finalize_mask_pointwise. unfold np_clip, map3.
  rewrite map_map. apply map_ext; intros row.
  rewrite map_map. apply map_ext; intros px.
  rewrite map_map. apply map_ext; intros v.
  apply clip1_id_unit, clip1_unit, nan_to_num1_finite.
Qed.

Section ImageMask.
Context {cv : OpenCV} {ext : Collaborators}.

(** X5.  With erosion and blur both switched off, [get_image_mask] returns
    the mask of [Mask.get_mask] as it is, and fails as it fails: the last
    [np.clip] finds every value already between 0 and 1. *)
Theorem get_image_mask_without_erosion_and_blur
        (self : ConvertState) (m : MaskState) (mat : matrix) (interpolators : Z * Z)
        (landmarks : DetectedFace) :
  mask self = Some m ->
  erosion_size (args self) = 0 ->
  blur_size (args self) = 0 ->
  Convert.get_image_mask self mat interpolators landmarks
  = Mask.get_mask m mat interpolators landmarks.
Proof.
  intros Hm He Hb. unfold Convert.get_image_mask. rewrite Hm, He, Hb. simpl.
  unfold Mask.get_mask.
  destruct (Mask.dispatch m (mask_mask_type m) _) as [raw|e]; simpl; [|reflexivity].
  now rewrite np_clip_finalize_mask.
Qed.

(** X6.  Whatever erosion, dilation and blur do to the mask, every entry
    of the mask that [get_image_mask] returns is between 0 and 1, or NaN:
    unlike [finalize_mask], the last clamp lets NaN through. *)
Theorem get_image_mask_entries
        (self : ConvertState) (mat : matrix) (interpolators : Z * Z)
        (landmarks : DetectedFace) (image_mask : pixels) :
  Convert.get_image_mask self mat interpolators landmarks = Ok image_mask ->
  Forall (Forall (Forall (nan_or_between F32.zero F32.one))) image_mask.
Proof.
  unfold Convert.get_image_mask. destruct (mask self) as [m|]; [|discriminate].
  destruct (Mask.get_mask m mat interpolators landmarks) as [m0|e]; [|discriminate].
  simpl bind.
  destruct (if erosion_size (args self) =? 0 then _ else _) as [m1|e]; [|discriminate].
  simpl bind.
  destruct (if blur_size (args self) =? 0 then _ else _) as [m2|e]; [|discriminate].
  simpl bind.
  intros [= <-]. unfold np_clip, map3.
  rewrite Forall_map. apply Forall_forall; intros row _.
  rewrite Forall_map. apply Forall_forall; intros px _.
  rewrite Forall_map. apply Forall_forall; intros v _.
  now apply clip1_between.
Qed.
End ImageMask.

Lemma get_image_mask_without_erosion_and_blur_witness :
  Convert.get_image_mask (cv := painting_cv) (ext := white_model 0)
                         convert_with_mask identity_matrix (INTER_CUBIC, 3) small_face
  = Mask.get_mask (cv := painting_cv) (ext := white_model 0)
                  small_mask identity_matrix (INTER_CUBIC, 3) small_face.
Proof.
  exact (get_image_mask_without_erosion_and_blur (cv := painting_cv) (ext := white_model 0)
           convert_with_mask small_mask identity_matrix (INTER_CUBIC, 3) small_face
           eq_refl eq_refl eq_refl).
Defined.

Lemma get_image_mask_entries_witness :
  Forall (Forall (Forall (nan_or_between F32.zero F32.one)))
         (zip_with3 F32.mul (np_full 1 2 3 f32_half) (np_full 1 2 3 f32_three_quarters)).
Proof.
  apply (get_image_mask_entries (cv := painting_cv) (ext := white_model 0)
           convert_with_mask identity_matrix (INTER_CUBIC, 3) small_face).
  vm_compute. reflexivity.
Defined.

(** ** The state of the converter *)

Section ConverterState.
Context {cv : OpenCV} {ext : Collaborators}.

(** The converter that [patch_image] leaves. *)
Lemma patch_image_state (self : ConvertState) (image : pixels) (face : DetectedFace) :
  fst (fst (Convert.patch_image self image face))
  = match Convert.coverage_of self with
    | Raised _ => self
    | Ok coverage =>
        let padding := Convert.padding_of self coverage in
        let c := (padding, training_size self - padding) in
        match mask self with
        | None => set_mask (set_crop self c)
                           {| mask_training_size := training_size self;
                              mask_padding := padding;
                              mask_mask_type := mask_type (args self);
                              mask_crop := c |}
        | Some _ => set_crop self c
        end
    end.
Proof.
  unfold Convert.patch_image.
  destruct (Convert.coverage_of self) as [coverage|e]; [|reflexivity].
  cbv zeta. simpl mask.
  destruct (mask self) as [m|];
    destruct (Convert.scale_matrix _ _ _) as [matrix|e]; try reflexivity;
    destruct (Convert.get_new_image _ _ _ _ _ _) as [fd ni]; reflexivity.
Qed.

Lemma coverage_of_set_crop (self : ConvertState) (c : Z * Z) :
  Convert.coverage_of (set_crop self c) = Convert.coverage_of self.
Proof. reflexivity. Qed.

Lemma coverage_of_set_mask (self : ConvertState) (m : MaskState) :
  Convert.coverage_of (set_mask self m) = Convert.coverage_of self.
Proof. reflexivity. Qed.

(** X8.  The first frame settles the converter.  [patch_image] sets the
    crop to [padding : training_size - padding] and makes the mask object
    when there is none; a mask object that exists is kept, and patching
    another frame with the converter that the first call leaves changes
    nothing in it. *)
Theorem patch_image_settles_converter
        (self : ConvertState) (image image' : pixels) (face face' : DetectedFace) :
  let self1 := fst (fst (Convert.patch_image self image face)) in
  fst (fst (Convert.patch_image self1 image' face')) = self1
  /\ (forall m, mask self = Some m -> mask self1 = Some m)
  /\ (forall coverage,
         Convert.coverage_of self = Ok coverage ->
         let padding := Convert.padding_of self coverage in
         crop self1 = Some (padding, training_size self - padding)
         /\ (mask self = None ->
             mask self1 = Some {| mask_training_size := training_size self;
                                  mask_padding := padding;
                                  mask_mask_type := mask_type (args self);
                                  mask_crop := (padding, training_size self - padding) |})).
Proof.
  cbv zeta. rewrite (patch_image_state _ image' face'), (patch_image_state self image face).
  destruct (Convert.coverage_of self) as [coverage|e] eqn:Ec.
  - destruct (mask self) as [m|] eqn:Em.
    + rewrite (coverage_of_set_crop self), Ec. simpl mask. rewrite Em.
      split; [reflexivity|]. split; [auto|].
      intros c [= <-]. split; [reflexivity | discriminate].
    + rewrite (coverage_of_set_mask (set_crop self _)), (coverage_of_set_crop self), Ec.
      simpl mask.
      split; [reflexivity|]. split; [discriminate|].
      intros c [= <-]. split; reflexivity.
  - rewrite Ec. split; [reflexivity|]. split; [auto | discriminate].
Qed.
End ConverterState.

(** ** A margin of odd width *)

Lemma shape3_length {A} (a : arr3 A) : List.length (shape3 a) = List.length a.
Proof. unfold shape3. apply length_map. Qed.

(** An assignment [a[crop, crop] = patch] that succeeds has a patch of as
    many rows as the region. *)
Lemma assign_crop_rows (c : Z * Z) (patch a a' : pixels) :
  assign_crop c patch a = Ok a' ->
  List.length patch
  = Z.to_nat (snd (slice_bounds (List.length a) c) - fst (slice_bounds (List.length a) c)).
Proof.
  unfold assign_crop, same_shape.
  destruct (list_eq_dec _ _ _) as [E|]; [|discriminate]. intros _.
  apply (f_equal (@List.length _)) in E. rewrite !shape3_length in E.
  rewrite <- E. unfold crop2. now rewrite length_map, py_slice_length.
Qed.

Section OddMargin.
Context {cv : OpenCV} {ext : Collaborators}.
Hypothesis resize_rows :
  forall (a : pixels) (dsize : Z * Z) (interpolation : Z),
    List.length (cv2_resize a dsize interpolation) = Z.to_nat (snd dsize).

(** The patch has as many rows as the coverage. *)
Lemma synthesize_rows (self : ConvertState) (c : Z * Z) (src_face patch : pixels)
      (interpolators : Z * Z) (coverage : Z) :
  Convert.synthesize self c src_face interpolators coverage = Ok patch ->
  List.length patch = Z.to_nat coverage.
Proof.
  unfold Convert.synthesize.
  destruct (encoder _) as [|[|new_face [|? ?]] ?]; try discriminate.
  intros [= <-]. unfold map3. now rewrite length_map, resize_rows.
Qed.

(** X9.  The crop [padding : training_size - padding] is one pixel larger
    than the coverage when [training_size - coverage] is odd, and the patch,
    resized to the coverage, does not fit it.  [patch_image] then returns
    no frame, and leaves the aligned crop of the face as it was loaded;
    when the matrix has its three columns and the model returns its patch,
    the error is the [ValueError] of the assignment
    [src_face[self.crop, self.crop] = new_face]. *)
Theorem patch_image_odd_margin_fails
        (self : ConvertState) (image : pixels) (face : DetectedFace) (coverage : Z) :
  Convert.coverage_of self = Ok coverage ->
  2 <= coverage <= training_size self ->
  Z.odd (training_size self - coverage) = true ->
  let loaded := load_aligned image (training_size self) false face in
  let padding := Convert.padding_of self coverage in
  List.length (aligned_face loaded) = Z.to_nat (training_size self) ->
  is_ok (snd (Convert.patch_image self image face)) = false
  /\ aligned_face (snd (fst (Convert.patch_image self image face))) = aligned_face loaded
  /\ forall matrix patch,
       Convert.scale_matrix (aligned_matrix loaded) (training_size self - 2 * padding)
                            padding = Ok matrix ->
       Convert.synthesize self (padding, training_size self - padding)
                          (aligned_face loaded) (get_matrix_scaling matrix) coverage
       = Ok patch ->
       snd (Convert.patch_image self image face)
       = Raised (Exn ValueError "numpy.ndarray.__setitem__").
Proof.
  intros Hcov Hc Hodd loaded padding Hrows.
  assert (Hpad : 2 * padding + 1 = training_size self - coverage).
  { unfold padding, Convert.padding_of.
    apply Z.odd_spec in Hodd. destruct Hodd as [q Hq].
    pose proof (Z.div_mod (training_size self - coverage) 2 ltac:(lia)).
    pose proof (Z.mod_pos_bound (training_size self - coverage) 2 ltac:(lia)). lia. }
  assert (Hassign : forall patch a',
             List.length patch = Z.to_nat coverage ->
             assign_crop (padding, training_size self - padding) patch (aligned_face loaded)
             <> Ok a').
  { intros patch a' Hp Ha. apply assign_crop_rows in Ha.
    rewrite Hrows in Ha. unfold slice_bounds, py_index in Ha.
    simpl fst in Ha. simpl snd in Ha.
    destruct (Z.ltb_spec padding 0); [lia|].
    destruct (Z.ltb_spec (training_size self - padding) 0); lia. }
  unfold Convert.patch_image. rewrite Hcov. fold padding.
  set (c := (padding, training_size self - padding)) in *.
  set (self1 := set_crop self c).
  set (self2 := match mask self1 with
                | Some _ => self1
                | None => set_mask self1 _
                end).
  assert (Hcrop : crop self2 = Some c).
  { unfold self2. destruct (mask self1); reflexivity. }
  assert (Hsize : training_size self2 = training_size self).
  { unfold self2. destruct (mask self1); reflexivity. }
  assert (Hsyn : forall src interpolators,
             Convert.synthesize self2 c src interpolators coverage
             = Convert.synthesize self c src interpolators coverage).
  { intros src interpolators. unfold self2. destruct (mask self1); reflexivity. }
  rewrite Hsize. fold loaded.
  destruct (Convert.scale_matrix (aligned_matrix loaded) _ padding) as [matrix|e] eqn:Es.
  - unfold Convert.get_new_image. rewrite Hcrop, Hsyn.
    destruct (Convert.synthesize self c (aligned_face loaded)
                                 (get_matrix_scaling matrix) coverage) as [patch|e] eqn:Ep.
    + simpl bind.
      destruct (assign_crop c patch (aligned_face loaded)) as [a'|e] eqn:Ea.
      * exfalso. exact (Hassign patch a' (synthesize_rows _ _ _ _ _ _ Ep) Ea).
      * simpl. split; [reflexivity|]. split; [reflexivity|].
        intros matrix' patch' [= <-] _.
        unfold assign_crop in Ea. destruct (same_shape _ patch); [discriminate|].
        now injection Ea as <-.
    + simpl. split; [reflexivity|]. split; [reflexivity|].
      intros matrix' patch' [= <-] Ep'. rewrite Ep in Ep'. discriminate.
  - simpl. split; [reflexivity|]. split; [reflexivity|]. discriminate.
Qed.
End OddMargin.

Lemma patch_image_odd_margin_fails_witness :
  snd (Convert.patch_image (cv := sizing_cv) (ext := white_model 0)
                           convert_5x5 (gray 5 5 3 20) face_5x5)
  = Raised (Exn ValueError "numpy.ndarray.__setitem__").
Proof.
  destruct (patch_image_odd_margin_fails (cv := sizing_cv) (ext := white_model 0)
              ltac:(intros a dsize i; simpl; unfold np_full; apply repeat_length)
              convert_5x5 (gray 5 5 3 20) face_5x5 2
              eq_refl ltac:(simpl; lia) eq_refl eq_refl) as [_ [_ H]].
  eapply H; reflexivity.
Defined.

(** ** What [hist_match] writes *)

(** [put] writes at the positions it is given, and nowhere else. *)
Lemma put_flat_spec (indices : list nat) (values flat flat' : list f32) (i : nat) :
  put_flat flat indices values i = Ok flat' ->
  List.length flat' = List.length flat
  /\ forall p, ~ In p indices -> nth_error flat' p = nth_error flat p.
Proof.
  revert flat i; induction indices as [|k indices IH]; intros flat i; simpl.
  - intros [= <-]. auto.
  - destruct (Nat.ltb_spec k (List.length flat)); [|discriminate].
    intros H'. apply IH in H'. destruct H' as [Hl Hp].
    rewrite update_length in Hl. split; [exact Hl|].
    intros p Hn. rewrite Hp by tauto. rewrite nth_error_update.
    destruct (Nat.eqb_spec k p); [exfalso; apply Hn; auto | reflexivity].
Qed.

(** Cutting the flattened array back into rows gives the rows again. *)
Lemma reshape_like_concat {A B} (a : arr2 A) (flat : list B) :
  List.length flat = List.length (concat a) ->
  concat (reshape_like a flat) = flat
  /\ map (@List.length B) (reshape_like a flat) = map (@List.length A) a.
Proof.
  revert flat; induction a as [|row a IH]; intros flat; simpl.
  - destruct flat; [auto | discriminate].
  - rewrite length_app. intros Hl.
    destruct (IH (skipn (List.length row) flat)) as [Hc Hm].
    { rewrite length_skipn. lia. }
    rewrite Hc, Hm, firstn_skipn, length_firstn. split; [reflexivity|].
    f_equal. lia.
Qed.

(** An indexing [a[rows, cols]] that succeeds reads inside of [a]. *)
Lemma take2_inside {A} (a : arr2 A) (idx : list (nat * nat)) (l : list A) :
  take2 a idx = Ok l ->
  forall y x, In (y, x) idx -> exists v, get2 a y x = Some v.
Proof.
  revert l; induction idx as [|[y0 x0] idx IH]; intros l; simpl; [tauto|].
  destruct (take2 a idx) as [l'|e]; [|discriminate]. simpl.
  intros H y x [[= <- <-]|Hin]; [|eapply IH; eauto].
  unfold get2. destruct (nth_error a y0) as [row|]; [|discriminate].
  destruct (nth_error row x0) as [v|]; [eauto | discriminate].
Qed.

(** The entry at row [y] and column [x] of an array of width [w] is the
    entry at position [y * w + x] of the flattened array. *)
Lemma nth_error_concat {A} (a : arr2 A) (w y x : nat) :
  Forall (fun row => List.length row = w) a -> (x < w)%nat ->
  nth_error (concat a) (y * w + x) = get2 a y x.
Proof.
  intros Ha Hx. revert y; induction Ha as [|row a Hrow _ IH]; intros y.
  - unfold get2. simpl. destruct y; simpl; now rewrite ?nth_error_nil.
  - destruct y as [|y]; unfold get2; simpl.
    + rewrite nth_error_app1 by lia. reflexivity.
    + rewrite nth_error_app2 by lia.
      replace (w + y * w + x - List.length row)%nat with (y * w + x)%nat by lia.
      apply IH.
Qed.

Lemma get2_outside {A} (a : arr2 A) (w y x : nat) :
  Forall (fun row => List.length row = w) a -> (w <= x)%nat -> get2 a y x = None.
Proof.
  intros Ha Hx. unfold get2. destruct (nth_error a y) as [row|] eqn:Ey; [|reflexivity].
  apply nth_error_None. rewrite Forall_forall in Ha.
  rewrite (Ha row (nth_error_In _ _ Ey)). exact Hx.
Qed.

Lemma get2_inside {A} (a : arr2 A) (w y x : nat) (v : A) :
  Forall (fun row => List.length row = w) a -> get2 a y x = Some v ->
  (y < List.length a)%nat /\ (x < w)%nat.
Proof.
  intros Ha. unfold get2. destruct (nth_error a y) as [row|] eqn:Ey; [|discriminate].
  intros Ex. split.
  - apply nth_error_Some. congruence.
  - rewrite Forall_forall in Ha. rewrite <- (Ha row (nth_error_In _ _ Ey)).
    apply nth_error_Some. congruence.
Qed.

Lemma row_lengths_uniform {A B} (a : arr2 A) (b : arr2 B) (w : nat) :
  map (@List.length B) b = map (@List.length A) a ->
  Forall (fun row => List.length row = w) a -> Forall (fun row => List.length row = w) b.
Proof.
  intros E Ha.
  assert (H : Forall (fun n => n = w) (map (@List.length B) b)).
  { rewrite E. now rewrite Forall_map. }
  now rewrite Forall_map in H.
Qed.

Section HistMatch.
Context {cv : OpenCV} {ext : Collaborators}.

Lemma hist_match_spec (new frame image_mask out : arr2 f32) :
  Convert.hist_match new frame image_mask = Ok out ->
  map (@List.length _) out = map (@List.length _) new
  /\ (forall y x, In (y, x) (np_nonzero2 image_mask) -> exists v, get2 new y x = Some v)
  /\ forall p,
       (forall y x, In (y, x) (np_nonzero2 image_mask) -> p <> y /\ p <> x) ->
       nth_error (concat out) p = nth_error (concat new) p.
Proof.
  unfold Convert.hist_match.
  destruct (np_nonzero2 image_mask) as [|i idx] eqn:Eidx.
  - simpl. intros [= <-]. repeat split; auto. intros y x [].
  - cbn [List.length Nat.eqb].
    destruct (take2 new (i :: idx)) as [m_new|e] eqn:En; cbn [bind]; [|discriminate].
    destruct (take2 frame (i :: idx)) as [m_frame|e]; cbn [bind]; [|discriminate].
    destruct (np_unique m_new) as [[s_values bin_idx] s_counts].
    destruct (np_unique m_frame) as [[t_values t_inv] t_counts].
    destruct (divide_by_last (np_cumsum s_counts)) as [s_quants|e]; cbn [bind];
      [|discriminate].
    destruct (divide_by_last (np_cumsum t_counts)) as [t_quants|e]; cbn [bind];
      [|discriminate].
    destruct (np_interp s_quants t_quants t_values) as [interp_s_values|e]; cbn [bind];
      [|discriminate].
    destruct (take _ interp_s_values bin_idx) as [values|e]; cbn [bind]; [|discriminate].
    unfold ndarray_put. cbn [fst snd].
    set (ind := map fst (i :: idx) ++ map snd (i :: idx)).
    assert (Hput : forall flat',
               put_flat (concat new) ind (map f64_to_f32 values) 0 = Ok flat' ->
               map (@List.length _) (reshape_like new flat') = map (@List.length _) new
               /\ forall p, ~ In p ind ->
                            nth_error (concat (reshape_like new flat')) p
                            = nth_error (concat new) p).
    { intros flat' Hp. apply put_flat_spec in Hp. destruct Hp as [Hl Hp].
      destruct (reshape_like_concat new flat' Hl) as [Hc Hm].
      rewrite Hc. auto. }
    assert (Hres : (flat <- put_flat (concat new) ind (map f64_to_f32 values) 0 ;;
                    Ok (reshape_like new flat)) = Ok out ->
                   map (@List.length _) out = map (@List.length _) new
                   /\ forall p, ~ In p ind ->
                                nth_error (concat out) p = nth_error (concat new) p).
    { destruct (put_flat _ ind _ 0) as [flat'|e] eqn:Ep; [|discriminate].
      simpl. intros [= <-]. now apply Hput. }
    intros H.
    assert (H' : map (@List.length _) out = map (@List.length _) new
                 /\ forall p, ~ In p ind ->
                              nth_error (concat out) p = nth_error (concat new) p).
    { destruct values as [|v values]; [discriminate H|].
      apply Hres. destruct ind; exact H. }
    destruct H' as [Hm Hp]. split; [exact Hm|]. split.
    + intros y x Hin. eapply take2_inside; eauto.
    + intros p Hfree. apply Hp. unfold ind. rewrite in_app_iff, !in_map_iff.
      intros [[[y x] [E Hin]]|[[y x] [E Hin]]]; simpl in E; subst p;
        destruct (Hfree y x Hin); congruence.
Qed.

(** X10.  [hist_match] hands the row and column numbers of the masked
    pixels to [put], which reads them as positions in the flattened
    channel.  The channel keeps its shape, and an entry changes only if its
    flat position is the row number or the column number of a non-zero
    entry of the mask.  In a channel that is at least as wide as it is
    high, all these numbers are below the width: no row but the first is
    ever changed, wherever the mask is. *)
Theorem hist_match_writes_flat_positions (new frame image_mask out : arr2 f32) :
  Convert.hist_match new frame image_mask = Ok out ->
  map (@List.length _) out = map (@List.length _) new
  /\ (forall p,
         (forall y x v, get2 image_mask y x = Some v -> nonzero v = true ->
                        p <> y /\ p <> x) ->
         nth_error (concat out) p = nth_error (concat new) p)
  /\ (forall w,
         Forall (fun row => List.length row = w) new ->
         (List.length new <= w)%nat ->
         forall y x, (1 <= y)%nat -> get2 out y x = get2 new y x).
Proof.
  intros H. destruct (hist_match_spec _ _ _ _ H) as [Hm [Hin Hp]].
  split; [exact Hm|]. split.
  - intros p Hfree. apply Hp. intros y x Hyx.
    apply np_nonzero2_spec in Hyx. destruct Hyx as [v [G Hv]]. eauto.
  - intros w Hw Hh y x Hy.
    pose proof (row_lengths_uniform new out w Hm Hw) as Hw'.
    destruct (Nat.lt_ge_cases x w) as [Hx|Hx].
    + rewrite <- (nth_error_concat out w y x Hw' Hx),
        <- (nth_error_concat new w y x Hw Hx).
      apply Hp. intros y' x' Hyx. destruct (Hin y' x' Hyx) as [v G].
      destruct (get2_inside new w y' x' v Hw G). nia.
    + now rewrite (get2_outside out w y x Hw' Hx), (get2_outside new w y x Hw Hx).
Qed.
End HistMatch.

Lemma hist_match_writes_flat_positions_witness :
  Convert.hist_match channel_1234 channel_9876 corner_mask
  = Ok [[F32.of_Z 1; F32.of_Z 6]; [F32.of_Z 3; F32.of_Z 4]]
  /\ forall y x, (1 <= y)%nat ->
       get2 [[F32.of_Z 1; F32.of_Z 6]; [F32.of_Z 3; F32.of_Z 4]] y x
       = get2 channel_1234 y x.
Proof.
  assert (E : Convert.hist_match channel_1234 channel_9876 corner_mask
              = Ok [[F32.of_Z 1; F32.of_Z 6]; [F32.of_Z 3; F32.of_Z 4]])
    by (vm_compute; reflexivity).
  split; [exact E|].
  destruct (hist_match_writes_flat_positions _ _ _ _ E) as [_ [_ H]].
  apply (H 2%nat); [repeat constructor | simpl; lia].
Defined.

(** ** Histogram matching of the three channels *)

Lemma update_nth_same {A} (l : list A) (c : nat) (d : A) :
  update l c (nth c l d) = l.
Proof.
  revert c; induction l as [|a l IH]; intros [|c]; simpl; auto. now rewrite IH.
Qed.

(** Writing back the channel that was read changes nothing. *)
Lemma set_channel_channel (c : nat) (a : pixels) : set_channel c a (channel c a) = a.
Proof.
  unfold set_channel, channel. rewrite zip_with_map_r.
  rewrite <- (map_id a) at 2. apply map_ext; intros row.
  rewrite zip_with_map_r. rewrite <- (map_id row) at 2. apply map_ext; intros px.
  apply update_nth_same.
Qed.

Lemma get_channel_ok (c n : nat) (a : pixels) :
  has_channels n a -> (c < n)%nat -> Convert.get_channel c a = Ok (channel c a).
Proof.
  intros Ha Hc. unfold Convert.get_channel.
  assert (E : forallb (forallb (fun px => (c <? List.length px)%nat)) a = true).
  { apply forallb_forall; intros row Hrow. apply forallb_forall; intros px Hpx.
    unfold has_channels in Ha. rewrite Forall_forall in Ha.
    specialize (Ha row Hrow). rewrite Forall_forall in Ha. specialize (Ha px Hpx).
    apply Nat.ltb_lt. lia. }
  now rewrite E.
Qed.

Lemma get_channel_missing (c h w k : nat) (a : pixels) :
  has_shape h w k a -> (0 < h)%nat -> (0 < w)%nat -> (k <= c)%nat ->
  Convert.get_channel c a = raise IndexError "numpy.ndarray.__getitem__".
Proof.
  intros [Hl Hr] Hh Hw Hc. unfold Convert.get_channel.
  destruct a as [|row a]; simpl in Hl; [lia|].
  inversion Hr as [|? ? [Hrow Hpx] _]; subst.
  destruct row as [|px row]; simpl in Hw; [lia|].
  inversion Hpx as [|? ? Hk _]; subst. simpl.
  destruct (Nat.ltb_spec c (List.length px)); [lia | reflexivity].
Qed.

Lemma all_zero3_channel (c : nat) (image_mask : pixels) :
  all_zero3 image_mask -> all_zero2 (channel c image_mask).
Proof.
  unfold all_zero3, all_zero2, channel. intros H.
  rewrite Forall_map. eapply Forall_impl; [|exact H]. intros row Hrow.
  rewrite Forall_map. eapply Forall_impl; [|exact Hrow]. intros px Hpx.
  destruct (nth_in_or_default c px F32.zero) as [Hin|E].
  - rewrite Forall_forall in Hpx. now apply Hpx.
  - now rewrite E.
Qed.

Lemma has_shape_set_channel (c h w k : nat) (a : pixels) (ch : arr2 f32) :
  has_shape h w k a ->
  map (@List.length _) ch = map (@List.length _) a ->
  has_shape h w k (set_channel c a ch).
Proof.
  intros [Hl Hr] E. unfold set_channel. subst h.
  revert ch E; induction Hr as [|row a [Hrow Hpx] _ IH]; intros [|r ch] E;
    simpl in E; try discriminate.
  - split; [reflexivity | constructor].
  - injection E as Er E. destruct (IH ch E) as [Hl' Hr'].
    split; [simpl; now rewrite Hl'|]. constructor; [|exact Hr']. split.
    + rewrite zip_with_length; congruence.
    + clear -Hpx. revert r; induction Hpx as [|px row Hp _ IH]; intros [|v r]; simpl;
        constructor; auto. now rewrite update_length.
Qed.

Lemma channel_row_lengths (c : nat) (a : pixels) :
  map (@List.length _) (channel c a) = map (@List.length _) a.
Proof.
  unfold channel. rewrite map_map. apply map_ext; intros row. apply length_map.
Qed.

Section ColourHistMatch.
Context {cv : OpenCV} {ext : Collaborators}.

(** One turn of the loop [for channel in [0, 1, 2]]. *)
Lemma hist_step_empty_mask (c : nat) (new frame image_mask : pixels) :
  has_channels 3 new -> has_channels 3 frame -> has_channels 3 image_mask ->
  all_zero3 image_mask -> (c < 3)%nat ->
  (nc <- Convert.get_channel c new ;;
   fc <- Convert.get_channel c frame ;;
   mc <- Convert.get_channel c image_mask ;;
   matched <- Convert.hist_match nc fc mc ;;
   Ok (set_channel c new matched)) = Ok new.
Proof.
  intros Hn Hf Hm Hz Hc.
  rewrite (get_channel_ok c 3 new Hn Hc), (get_channel_ok c 3 frame Hf Hc),
    (get_channel_ok c 3 image_mask Hm Hc). cbn [bind].
  rewrite (hist_match_early_return _ _ _ (np_nonzero2_zero _ (all_zero3_channel c _ Hz))).
  cbn [bind]. now rewrite set_channel_channel.
Qed.

(** X11.  With a mask that has no non-zero entry, the histogram matching
    of the three channels returns the image as it came in: each channel is
    read, handed back unchanged by [hist_match], and written where it was
    read. *)
Theorem color_hist_match_empty_mask (new frame image_mask : pixels) :
  has_channels 3 new -> has_channels 3 frame -> has_channels 3 image_mask ->
  all_zero3 image_mask ->
  Convert.color_hist_match new frame image_mask = Ok new.
Proof.
  intros Hn Hf Hm Hz. unfold Convert.color_hist_match. cbn [fold_left bind].
  rewrite (hist_step_empty_mask 0 new frame image_mask Hn Hf Hm Hz ltac:(lia)).
  cbn [bind].
  rewrite (hist_step_empty_mask 1 new frame image_mask Hn Hf Hm Hz ltac:(lia)).
  cbn [bind].
  apply (hist_step_empty_mask 2 new frame image_mask Hn Hf Hm Hz ltac:(lia)).
Qed.

(** One turn of the loop keeps the shape of the image, when it does not
    fail. *)
Lemma hist_step_shape (c h w k : nat) (new frame image_mask new' : pixels) :
  has_shape h w k new ->
  (nc <- Convert.get_channel c new ;;
   fc <- Convert.get_channel c frame ;;
   mc <- Convert.get_channel c image_mask ;;
   matched <- Convert.hist_match nc fc mc ;;
   Ok (set_channel c new matched)) = Ok new' ->
  has_shape h w k new'.
Proof.
  intros Hs. unfold Convert.get_channel at 1.
  destruct (forallb _ new); cbn [bind]; [|discriminate].
  destruct (Convert.get_channel c frame) as [fc|e]; cbn [bind]; [|discriminate].
  destruct (Convert.get_channel c image_mask) as [mc|e]; cbn [bind]; [|discriminate].
  destruct (Convert.hist_match (channel c new) fc mc) as [matched|e] eqn:Eh; cbn [bind];
    [|discriminate].
  intros [= <-]. apply has_shape_set_channel; [exact Hs|].
  destruct (hist_match_spec _ _ _ _ Eh) as [Hm _].
  now rewrite Hm, channel_row_lengths.
Qed.

(** X12.  The loop runs over the channels 0, 1 and 2 whatever the image
    is: on an image of fewer than three channels [color_hist_match] never
    returns, as the channel that is missing cannot be read. *)
Theorem color_hist_match_needs_three_channels
        (new frame image_mask : pixels) (h w k : nat) :
  has_shape h w k new -> (0 < h)%nat -> (0 < w)%nat -> (k < 3)%nat ->
  is_ok (Convert.color_hist_match new frame image_mask) = false.
Proof.
  intros Hs Hh Hw Hk. unfold Convert.color_hist_match. cbn [fold_left bind].
  assert (Hmiss : forall c a, has_shape h w k a -> (k <= c)%nat ->
            (nc <- Convert.get_channel c a ;;
             fc <- Convert.get_channel c frame ;;
             mc <- Convert.get_channel c image_mask ;;
             matched <- Convert.hist_match nc fc mc ;;
             Ok (set_channel c a matched))
            = raise IndexError "numpy.ndarray.__getitem__").
  { intros c a Ha Hc. now rewrite (get_channel_missing c h w k a Ha Hh Hw Hc). }
  destruct (Nat.eq_dec k 0) as [->|].
  { now rewrite (Hmiss 0%nat new Hs ltac:(lia)). }
  destruct (nc <- Convert.get_channel 0 new ;; _) as [new0|e] eqn:E0; cbn [bind];
    [|reflexivity].
  pose proof (hist_step_shape 0 h w k _ _ _ _ Hs E0) as Hs0.
  destruct (Nat.eq_dec k 1) as [->|].
  { now rewrite (Hmiss 1%nat new0 Hs0 ltac:(lia)). }
  destruct (nc <- Convert.get_channel 1 new0 ;; _) as [new1|e] eqn:E1; cbn [bind];
    [|reflexivity].
  pose proof (hist_step_shape 1 h w k _ _ _ _ Hs0 E1) as Hs1.
  now rewrite (Hmiss 2%nat new1 Hs1 ltac:(lia)).
Qed.
End ColourHistMatch.

Lemma color_hist_match_empty_mask_witness :
  Convert.color_hist_match (gray 1 2 3 9) (gray 1 2 3 5) (np_zeros 1 2 3)
  = Ok (gray 1 2 3 9).
Proof.
  apply color_hist_match_empty_mask; repeat constructor.
Defined.

Lemma color_hist_match_needs_three_channels_witness :
  is_ok (Convert.color_hist_match (gray 1 2 2 9) (gray 1 2 2 5) (gray 1 2 2 1)) = false.
Proof.
  apply (color_hist_match_needs_three_channels _ _ _ 1 2 2); [repeat constructor | lia..].
Defined.

(** ** [hist_match] on channels of one shape *)

Lemma In_insert_sorted (x y : f32 * nat) (l : list (f32 * nat)) :
  In y (insert_sorted x l) <-> y = x \/ In y l.
Proof.
  induction l as [|z l IH]; simpl.
  - split; intros [H|H]; auto.
  - destruct (sort_lt (fst z) (fst x)); simpl; rewrite ?IH; intuition auto.
Qed.

Lemma In_argsort (l : list f32) (p : f32 * nat) :
  In p (argsort l) <-> In p (combine l (seq 0 (List.length l))).
Proof.
  unfold argsort. induction (combine l (seq 0 (List.length l))) as [|x xs IH]; simpl.
  - tauto.
  - rewrite In_insert_sorted, IH. intuition auto.
Qed.

Lemma combine_seq_In {A} (l : list A) (s i : nat) :
  (i < List.length l)%nat -> exists v, In (v, (s + i)%nat) (combine l (seq s (List.length l))).
Proof.
  revert s i; induction l as [|a l IH]; intros s i Hi; simpl in *; [lia|].
  destruct i as [|i].
  - exists a. left. now rewrite Nat.add_0_r.
  - destruct (IH (S s) i ltac:(lia)) as [v Hv]. exists v. right.
    now replace (s + S i)%nat with (S s + i)%nat by lia.
Qed.

(** Every position of the array is in one of the runs of its sort. *)
Lemma runs_cover (l : list (f32 * nat)) (v : f32) (i : nat) :
  In (v, i) l -> exists r, In r (runs l) /\ In i (snd r).
Proof.
  induction l as [|[v0 i0] l IH]; simpl; [tauto|].
  intros [[= -> ->]|Hin].
  - destruct (runs l) as [|[v' ps] rs].
    + exists (v, [i]). simpl. auto.
    + destruct (np_ne v' v).
      * exists (v, [i]). simpl. auto.
      * exists (v, i :: ps). simpl. auto.
  - destruct (IH Hin) as [r [Hr Hi]].
    destruct (runs l) as [|[v' ps] rs]; [destruct Hr|].
    destruct (np_ne v' v0).
    + exists r. split; [right; exact Hr | exact Hi].
    + destruct Hr as [<-|Hr].
      * exists (v0, i0 :: ps). simpl. auto.
      * exists r. simpl. auto.
Qed.

Lemma run_of_bound (i : nat) (rs : list (f32 * list nat)) :
  (exists r, In r rs /\ In i (snd r)) -> (run_of i rs < List.length rs)%nat.
Proof.
  induction rs as [|[v ps] rs IH]; simpl.
  - intros [r [[] _]].
  - intros [r [[<-|Hr] Hi]]; simpl in *.
    + assert (E : existsb (Nat.eqb i) ps = true).
      { apply existsb_exists. exists i. split; [exact Hi | apply Nat.eqb_refl]. }
      rewrite E. lia.
    + destruct (existsb (Nat.eqb i) ps); [lia|].
      assert (run_of i rs < List.length rs)%nat by (apply IH; eauto). lia.
Qed.

(** The inverse indices of [np.unique] point into the distinct values,
    and there is one count for each of these. *)
Lemma np_unique_spec (a : list f32) :
  let '(values, inverse, counts) := np_unique a in
  List.length counts = List.length values
  /\ List.length inverse = List.length a
  /\ Forall (fun j => (j < List.length values)%nat) inverse
  /\ (a <> [] -> values <> []).
Proof.
  unfold np_unique. rewrite !length_map, length_seq.
  split; [reflexivity|]. split; [reflexivity|]. split.
  - rewrite Forall_map. apply Forall_forall. intros i Hi.
    apply in_seq in Hi. apply run_of_bound.
    destruct (combine_seq_In a 0 i ltac:(lia)) as [v Hv]. simpl in Hv.
    apply (runs_cover _ v i). now apply In_argsort.
  - intros Ha Hnil. destruct a as [|v a]; [congruence|].
    destruct (combine_seq_In (v :: a) 0 0 ltac:(simpl; lia)) as [v0 Hv]. simpl plus in Hv.
    apply In_argsort in Hv. destruct (runs_cover _ _ _ Hv) as [r [Hr _]].
    destruct (runs (argsort (v :: a))); [destruct Hr | discriminate].
Qed.

Lemma np_cumsum_length (counts : list Z) :
  List.length (np_cumsum counts) = List.length counts.
Proof.
  destruct counts as [|c l]; simpl; [reflexivity|]. f_equal.
  generalize (F32.of_Z c). induction l as [|d l IH]; intros acc; simpl; auto.
Qed.

Lemma divide_by_last_ok (q : list f32) :
  q <> [] -> exists q', divide_by_last q = Ok q' /\ List.length q' = List.length q.
Proof.
  intros Hq. unfold divide_by_last. destruct (rev q) as [|d r] eqn:E.
  - apply (f_equal (@List.length _)) in E. rewrite length_rev in E.
    destruct q; [congruence | discriminate].
  - eexists. split; [reflexivity | apply length_map].
Qed.

Lemma np_interp_ok (x xp fp : list f32) :
  xp <> [] -> List.length xp = List.length fp ->
  exists r, np_interp x xp fp = Ok r /\ List.length r = List.length x.
Proof.
  intros Hx Hl. unfold np_interp. destruct xp as [|v xp]; [congruence|].
  rewrite Hl, Nat.eqb_refl. eexists. split; [reflexivity|]. now rewrite !length_map.
Qed.

Lemma take_ok {A} (fname : string) (a : list A) (idx : list nat) :
  Forall (fun i => (i < List.length a)%nat) idx ->
  exists l, take fname a idx = Ok l /\ List.length l = List.length idx.
Proof.
  induction 1 as [|i idx Hi _ [l [El Hl]]]; simpl.
  - exists []. auto.
  - rewrite El. cbn [bind]. destruct (nth_error a i) as [v|] eqn:E.
    + exists (v :: l). simpl. auto.
    + apply nth_error_None in E. lia.
Qed.

Lemma take2_ok {A} (a : arr2 A) (idx : list (nat * nat)) :
  (forall y x, In (y, x) idx -> exists v, get2 a y x = Some v) ->
  exists l, take2 a idx = Ok l /\ List.length l = List.length idx.
Proof.
  induction idx as [|[y x] idx IH]; intros H; simpl.
  - exists []. auto.
  - destruct IH as [l [El Hl]]; [intros; apply H; now right|].
    rewrite El. cbn [bind]. destruct (H y x (or_introl eq_refl)) as [v G].
    unfold get2 in G. destruct (nth_error a y) as [row|]; [|discriminate].
    rewrite G. exists (v :: l). simpl. auto.
Qed.

Lemma put_flat_ok (indices : list nat) (values flat : list f32) (i : nat) :
  Forall (fun k => (k < List.length flat)%nat) indices ->
  exists flat', put_flat flat indices values i = Ok flat'.
Proof.
  intros H; revert flat i H. induction indices as [|k indices IH]; intros flat i H; simpl.
  - eauto.
  - inversion H as [|? ? Hk Hrest]; subst.
    destruct (Nat.ltb_spec k (List.length flat)); [|lia].
    apply IH. now rewrite update_length.
Qed.

Lemma concat_length_uniform {A} (h w : nat) (a : arr2 A) :
  has_shape2 h w a -> List.length (concat a) = (h * w)%nat.
Proof.
  intros [Hl Hr]. subst h. induction Hr as [|row a Hrow _ IH]; simpl; [reflexivity|].
  rewrite length_app, IH, Hrow. reflexivity.
Qed.

Lemma has_shape2_get2 {A} (h w : nat) (a : arr2 A) (y x : nat) :
  has_shape2 h w a -> (y < h)%nat -> (x < w)%nat -> exists v, get2 a y x = Some v.
Proof.
  intros [Hl Hr] Hy Hx. unfold get2.
  destruct (nth_error a y) as [row|] eqn:Ey.
  - rewrite Forall_forall in Hr. pose proof (Hr row (nth_error_In _ _ Ey)) as Hw.
    destruct (nth_error row x) as [v|] eqn:Ex; [eauto|].
    apply nth_error_None in Ex. lia.
  - apply nth_error_None in Ey. lia.
Qed.

Section HistMatchReturns.
Context {cv : OpenCV} {ext : Collaborators}.

(** On three channels of one shape [hist_match] returns a channel. *)
Lemma hist_match_ok (h w : nat) (new frame image_mask : arr2 f32) :
  has_shape2 h w new -> has_shape2 h w frame -> has_shape2 h w image_mask ->
  exists out, Convert.hist_match new frame image_mask = Ok out.
Proof.
  intros Hn Hf Hm. unfold Convert.hist_match.
  destruct (np_nonzero2 image_mask) as [|i idx] eqn:Eidx; [simpl; eauto|].
  cbn [List.length Nat.eqb].
  assert (Hin : forall y x, In (y, x) (i :: idx) -> (y < h)%nat /\ (x < w)%nat).
  { intros y x Hyx. rewrite <- Eidx in Hyx. apply np_nonzero2_spec in Hyx.
    destruct Hyx as [v [G _]]. destruct Hm as [Hl Hr].
    destruct (get2_inside image_mask w y x v Hr G). lia. }
  destruct (take2_ok new (i :: idx)) as [m_new [-> Ln]].
  { intros y x Hyx. destruct (Hin y x Hyx). eapply has_shape2_get2; eauto. }
  destruct (take2_ok frame (i :: idx)) as [m_frame [-> Lf]].
  { intros y x Hyx. destruct (Hin y x Hyx). eapply has_shape2_get2; eauto. }
  cbn [bind].
  pose proof (np_unique_spec m_new) as Us. pose proof (np_unique_spec m_frame) as Ut.
  destruct (np_unique m_new) as [[s_values bin_idx] s_counts].
  destruct (np_unique m_frame) as [[t_values t_inv] t_counts].
  destruct Us as [Ls [Lb [Bs Ns]]], Ut as [Lt [_ [_ Nt]]].
  assert (Hs : s_values <> []) by (apply Ns; destruct m_new; discriminate).
  assert (Ht : t_values <> []) by (apply Nt; destruct m_frame; discriminate).
  destruct (divide_by_last_ok (np_cumsum s_counts)) as [s_quants [-> Lsq]].
  { intros E. apply (f_equal (@List.length _)) in E. rewrite np_cumsum_length, Ls in E.
    destruct s_values; [congruence | discriminate]. }
  destruct (divide_by_last_ok (np_cumsum t_counts)) as [t_quants [-> Ltq]].
  { intros E. apply (f_equal (@List.length _)) in E. rewrite np_cumsum_length, Lt in E.
    destruct t_values; [congruence | discriminate]. }
  cbn [bind]. rewrite np_cumsum_length in Lsq, Ltq.
  destruct (np_interp_ok s_quants t_quants t_values) as [interp_s_values [-> Li]].
  { intros E. subst t_quants. simpl in Ltq. destruct t_values; [congruence|].
    simpl in Lt. lia. }
  { lia. }
  cbn [bind].
  destruct (take_ok "numpy.ndarray.__getitem__" interp_s_values bin_idx) as [values [-> Lv]].
  { eapply Forall_impl; [|exact Bs]. intros j Hj. simpl in Hj. lia. }
  cbn [bind]. unfold ndarray_put. cbn [fst snd].
  destruct values as [|v values]; [simpl in Lv, Ln; lia|].
  destruct (put_flat_ok (map fst (i :: idx) ++ map snd (i :: idx))
                        (map f64_to_f32 (v :: values)) (concat new) 0) as [flat' Ep].
  { rewrite (concat_length_uniform h w new Hn).
    apply Forall_app. split; apply Forall_forall; intros p Hp;
      apply in_map_iff in Hp; destruct Hp as [[y x] [E Hyx]]; simpl in E; subst p;
      destruct (Hin y x Hyx); nia. }
  rewrite Ep. cbn [bind].
  destruct (map fst (i :: idx) ++ map snd (i :: idx)); eauto.
Qed.
End HistMatchReturns.

Lemma has_shape_has_channels (n h w k : nat) (a : pixels) :
  has_shape h w k a -> (n <= k)%nat -> has_channels n a.
Proof.
  intros [_ Hr] Hk. unfold has_channels. eapply Forall_impl; [|exact Hr].
  intros row [_ Hpx]. eapply Forall_impl; [|exact Hpx]. intros px Hp. simpl in Hp. lia.
Qed.

Lemma has_shape2_channel (c h w k : nat) (a : pixels) :
  has_shape h w k a -> has_shape2 h w (channel c a).
Proof.
  intros [Hl Hr]. unfold channel. split; [now rewrite length_map|].
  rewrite Forall_map. eapply Forall_impl; [|exact Hr].
  intros row [Hw _]. simpl. now rewrite length_map.
Qed.

Section ColourHistMatchReturns.
Context {cv : OpenCV} {ext : Collaborators}.
Variables (h w k : nat) (frame image_mask : pixels).
Hypothesis Hk : (3 <= k)%nat.
Hypothesis Hframe : has_shape h w k frame.
Hypothesis Hmask : has_shape h w k image_mask.

Lemma hist_step_ok (c : nat) (new : pixels) :
  (c < 3)%nat -> has_shape h w k new ->
  exists new',
    (nc <- Convert.get_channel c new ;;
     fc <- Convert.get_channel c frame ;;
     mc <- Convert.get_channel c image_mask ;;
     matched <- Convert.hist_match nc fc mc ;;
     Ok (set_channel c new matched)) = Ok new'
    /\ has_shape h w k new'.
Proof.
  intros Hc Hn.
  destruct (hist_match_ok h w (channel c new) (channel c frame) (channel c image_mask))
    as [matched Em]; try (eapply has_shape2_channel; eassumption).
  assert (E : (nc <- Convert.get_channel c new ;;
               fc <- Convert.get_channel c frame ;;
               mc <- Convert.get_channel c image_mask ;;
               matched <- Convert.hist_match nc fc mc ;;
               Ok (set_channel c new matched)) = Ok (set_channel c new matched)).
  { rewrite (get_channel_ok c 3 new), (get_channel_ok c 3 frame),
      (get_channel_ok c 3 image_mask); try lia;
      try (eapply has_shape_has_channels; eassumption).
    cbn [bind]. rewrite Em. reflexivity. }
  exists (set_channel c new matched). split; [exact E|].
  exact (hist_step_shape c h w k new frame image_mask _ Hn E).
Qed.

Lemma color_hist_match_ok (new : pixels) :
  has_shape h w k new ->
  exists out,
    Convert.color_hist_match new frame image_mask = Ok out /\ has_shape h w k out.
Proof.
  intros Hn. unfold Convert.color_hist_match. cbn [fold_left bind].
  destruct (hist_step_ok 0 new ltac:(lia) Hn) as [new0 [-> H0]]. cbn [bind].
  destruct (hist_step_ok 1 new0 ltac:(lia) H0) as [new1 [-> H1]]. cbn [bind].
  exact (hist_step_ok 2 new1 ltac:(lia) H1).
Qed.

(** X13.  On an image, a frame and a mask of one shape, of three channels
    or more, the histogram matching returns: [hist_match] returns a channel
    of the shape of the one it is given, for every channel, and
    [color_hist_match] an image of the shape of the image.  None of the
    indexings, of the divisions by the last quantile, of the interpolations
    and of the write-backs fails. *)
Theorem hist_match_returns (new : pixels) :
  has_shape h w k new ->
  (forall c, exists out,
      Convert.hist_match (channel c new) (channel c frame) (channel c image_mask) = Ok out
      /\ has_shape2 h w out)
  /\ exists out,
       Convert.color_hist_match new frame image_mask = Ok out /\ has_shape h w k out.
Proof.
  intros Hn. split; [|now apply color_hist_match_ok].
  intros c.
  pose proof (has_shape2_channel c h w k new Hn) as [Hl Hr].
  destruct (hist_match_ok h w (channel c new) (channel c frame) (channel c image_mask))
    as [out E]; try (eapply has_shape2_channel; eassumption).
  exists out. split; [exact E|].
  destruct (hist_match_spec _ _ _ _ E) as [Hm _]. split.
  - apply (f_equal (@List.length _)) in Hm. rewrite !length_map in Hm. congruence.
  - exact (row_lengths_uniform _ _ w Hm Hr).
Qed.
End ColourHistMatchReturns.

Lemma hist_match_returns_witness :
  exists out,
    Convert.color_hist_match (gray 2 2 3 9) (gray 2 2 3 5) (gray 2 2 3 1) = Ok out
    /\ has_shape 2 2 3 out.
Proof.
  apply (hist_match_returns 2 2 3 (gray 2 2 3 5) (gray 2 2 3 1));
    [lia | repeat constructor..].
Defined.

(** ** The frame that [apply_fixes] returns *)

Lemma has_shape_add_per_channel (h w k : nat) (a : pixels) (adjustment : list f32) :
  has_shape h w k a -> List.length adjustment = k ->
  has_shape h w k (Convert.add_per_channel a adjustment).
Proof.
  intros [Hl Hr] Hlen. unfold Convert.add_per_channel. split.
  - now rewrite length_map.
  - apply Forall_map. eapply Forall_impl; [|exact Hr].
    intros row [Hrow Hpx]. split; [now rewrite length_map|].
    apply Forall_map. eapply Forall_impl; [|exact Hpx].
    intros px Hp. cbv beta in Hp. rewrite zip_with_length; congruence.
Qed.

Section ReturnedFrame.
Context {cv : OpenCV} {ext : Collaborators}.
Variables (h w k : nat) (frame image_mask : pixels).
Hypothesis Hh : (0 < h)%nat.
Hypothesis Hw : (0 < w)%nat.
Hypothesis Hk : (3 <= k)%nat.
Hypothesis Hframe : has_shape h w k frame.
Hypothesis Hmask : has_shape h w k image_mask.

Lemma avg_color_round_ok (masked : pixels) :
  has_shape h w k masked ->
  exists masked',
    Convert.avg_color_round frame image_mask masked = Ok masked' /\ has_shape h w k masked'.
Proof.
  intros Hm. unfold Convert.avg_color_round.
  set (clipped := np_clip masked F32.zero f32_255).
  assert (Hcl : has_shape h w k clipped) by (apply has_shape_map3; auto).
  rewrite (elementwise_ok F32.sub h w k frame clipped Hframe Hcl). cbn [bind].
  assert (Hd : has_shape h w k (zip_with3 F32.sub frame clipped))
    by (apply has_shape_zip_with3; auto).
  rewrite (elementwise_ok F32.mul h w k _ image_mask Hd Hmask). cbn [bind].
  eexists; split; [reflexivity|].
  apply has_shape_add_per_channel; auto.
  assert (Hz : has_shape h w k (zip_with3 F32.mul (zip_with3 F32.sub frame clipped)
                                          image_mask))
    by (apply has_shape_zip_with3; auto).
  assert (C1 : channels (zip_with3 F32.mul (zip_with3 F32.sub frame clipped)
                                   image_mask) = k)
    by (apply (channels_has_shape h w k _ Hz); auto).
  assert (C2 : channels image_mask = k)
    by (apply (channels_has_shape h w k _ Hmask); auto).
  rewrite zip_with_length; rewrite !np_sum01_length; congruence.
Qed.

Lemma color_correct_ok (a : Arguments) (masked : pixels) :
  has_shape h w k masked ->
  exists masked',
    Convert.color_correct a frame image_mask masked = Ok masked' /\ has_shape h w k masked'.
Proof.
  intros Hm. unfold Convert.color_correct.
  assert (Havg : exists m1,
             (if avg_color_adjust a
              then masked0 <- Convert.avg_color_round frame image_mask masked ;;
                   Convert.avg_color_round frame image_mask masked0
              else Ok masked) = Ok m1 /\ has_shape h w k m1).
  { destruct (avg_color_adjust a); [|eauto].
    destruct (avg_color_round_ok masked Hm) as [m0 [-> H0]]. cbn [bind].
    exact (avg_color_round_ok m0 H0). }
  destruct Havg as [m1 [-> H1]]. cbn [bind].
  destruct (match_histogram a); [|eauto].
  apply (color_hist_match_ok h w k frame image_mask Hk Hframe Hmask).
  now apply has_shape_map3.
Qed.

(** X14.  Without seamless clone and transparent background,
    [apply_fixes] returns a frame of the shape of its inputs, whatever the
    values are and whichever of the colour corrections are switched on: on
    a frame, a mask and a sharpened image of one shape (three channels or
    more, not empty) no step of the average colour adjustment, of the
    histogram matching and of the blend fails. *)
Theorem apply_fixes_returns_frame
        (a : Arguments) (new_image : pixels) (image_size : Z * Z) :
  seamless_clone a = false ->
  draw_transparent a = false ->
  has_shape h w k (Convert.sharpen (sharpen_image a) new_image) ->
  exists out,
    Convert.apply_fixes a frame new_image image_mask image_size = Ok out
    /\ has_shape h w k out.
Proof.
  intros Hclone Htr Hs.
  unfold Convert.apply_fixes, Convert.apply_fixes_blended.
  rewrite Htr, Hclone. cbn [bind andb negb].
  destruct (color_correct_ok a _ Hs) as [masked [-> Hm]]. cbn [bind].
  unfold Convert.linear_blend.
  rewrite (elementwise_ok F32.mul h w k masked image_mask Hm Hmask). cbn [bind].
  rewrite (elementwise_ok F32.mul h w k frame _ Hframe (has_shape_map3 _ h w k _ Hmask)).
  cbn [bind].
  rewrite (elementwise_ok F32.add h w k);
    [|now apply has_shape_zip_with3
     |apply has_shape_zip_with3; auto; now apply has_shape_map3].
  cbn [bind Convert.to_frame]. eexists; split; [reflexivity|].
  unfold astype_uint8, np_rint, np_clip. repeat apply has_shape_map3.
  repeat apply has_shape_zip_with3; auto. now apply has_shape_map3.
Qed.
End ReturnedFrame.

Lemma apply_fixes_returns_frame_witness :
  exists out,
    Convert.apply_fixes (cv := still_cv) (ext := white_model 0) correcting_args
                        (gray 2 2 3 5) (gray 2 2 3 9) (gray 2 2 3 1) (2, 2) = Ok out
    /\ has_shape 2 2 3 out.
Proof.
  apply (apply_fixes_returns_frame (cv := still_cv) (ext := white_model 0)
           2 2 3 (gray 2 2 3 5) (gray 2 2 3 1));
    try reflexivity; try lia; repeat constructor.
Defined.

(** ** The sizes of the erosion kernel and of the blur *)

Section Signs.
Variables prec emax : Z.

(** Rounding keeps the sign it is given. *)
Lemma binary_round_aux_sign (s : bool) (m e : Z) (l : location) :
  match binary_round_aux prec emax s m e l with
  | S754_nan => True
  | S754_zero s' | S754_infinity s' | S754_finite s' _ _ => s' = s
  end.
Proof.
  unfold binary_round_aux.
  destruct (shr_fexp prec emax m e l) as [mrs' e'].
  destruct (shr_fexp prec emax _ e' loc_Exact) as [mrs'' e''].
  destruct (shr_m mrs''); auto. destruct (e'' <=? emax - prec); reflexivity.
Qed.

(** The magnitude of a rounded number does not depend on the sign. *)
Lemma binary_round_aux_abs (s s' : bool) (m e : Z) (l : location) :
  SFabs (binary_round_aux prec emax s m e l) = SFabs (binary_round_aux prec emax s' m e l).
Proof.
  unfold binary_round_aux.
  destruct (shr_fexp prec emax m e l) as [mrs' e'].
  destruct (shr_fexp prec emax _ e' loc_Exact) as [mrs'' e''].
  destruct (shr_m mrs''); auto. destruct (e'' <=? emax - prec); reflexivity.
Qed.

Lemma binary_normalize_abs (n : Z) :
  SFabs (binary_normalize prec emax (- n) 0 false)
  = SFabs (binary_normalize prec emax n 0 false).
Proof.
  destruct n as [|p|p]; simpl; try reflexivity; unfold binary_round;
    destruct (shl_align p 0 _) as [mz ez]; apply binary_round_aux_abs.
Qed.

Lemma binary_normalize_negative (n : Z) :
  n < 0 -> not_positive (binary_normalize prec emax n 0 false).
Proof.
  destruct n as [|p|p]; try lia. intros _. simpl. unfold binary_round.
  destruct (shl_align p 0 _) as [mz ez].
  pose proof (binary_round_aux_sign true (Zpos mz) ez loc_Exact) as H.
  destruct (binary_round_aux prec emax true (Zpos mz) ez loc_Exact); simpl; auto.
Qed.

Lemma SFdiv_abs (x x' y : spec_float) :
  SFabs x = SFabs x' -> SFabs (SFdiv prec emax x y) = SFabs (SFdiv prec emax x' y).
Proof.
  destruct x as [sx|sx| |sx mx ex], x' as [sx'|sx'| |sx' mx' ex']; simpl;
    try discriminate; intros E; destruct y as [sy|sy| |sy my ey]; simpl; try reflexivity.
  injection E as -> ->.
  destruct (SFdiv_core_binary prec emax (Zpos mx') ex' (Zpos my) ey) as [[mz ez] lz].
  apply binary_round_aux_abs.
Qed.

Lemma SFmul_abs (x x' y : spec_float) :
  SFabs x = SFabs x' -> SFabs (SFmul prec emax x y) = SFabs (SFmul prec emax x' y).
Proof.
  destruct x as [sx|sx| |sx mx ex], x' as [sx'|sx'| |sx' mx' ex']; simpl;
    try discriminate; intros E; destruct y as [sy|sy| |sy my ey]; simpl; try reflexivity.
  injection E as -> ->. apply binary_round_aux_abs.
Qed.

(** A quotient by a positive float, and a product with a float that is
    not negative, are not positive when the first operand is not. *)
Lemma SFdiv_not_positive (x : spec_float) (my : positive) (ey : Z) :
  not_positive x -> not_positive (SFdiv prec emax x (S754_finite false my ey)).
Proof.
  destruct x as [sx|sx| |sx mx ex]; simpl; auto.
  - intros ->. reflexivity.
  - intros ->. destruct (SFdiv_core_binary prec emax (Zpos mx) ex (Zpos my) ey)
      as [[mz ez] lz].
    pose proof (binary_round_aux_sign true mz ez lz) as H. simpl.
    destruct (binary_round_aux prec emax true mz ez lz); simpl; auto.
Qed.

Lemma SFdiv_not_negative (x : spec_float) (my : positive) (ey : Z) :
  not_negative x -> not_negative (SFdiv prec emax x (S754_finite false my ey)).
Proof.
  destruct x as [sx|sx| |sx mx ex]; simpl; auto.
  - intros ->. reflexivity.
  - intros ->. destruct (SFdiv_core_binary prec emax (Zpos mx) ex (Zpos my) ey)
      as [[mz ez] lz].
    pose proof (binary_round_aux_sign false mz ez lz) as H. simpl.
    destruct (binary_round_aux prec emax false mz ez lz); simpl; auto.
Qed.

Lemma SFmul_not_positive (x y : spec_float) :
  not_positive x -> not_negative y -> not_positive (SFmul prec emax x y).
Proof.
  destruct x as [sx|sx| |sx mx ex], y as [sy|sy| |sy my ey]; simpl; auto;
    try (intros -> ->; reflexivity).
  intros -> ->.
  pose proof (binary_round_aux_sign true (Zpos (mx * my)) (ex + ey) loc_Exact) as H.
  simpl. destruct (binary_round_aux prec emax true _ _ loc_Exact); simpl; auto.
Qed.

Lemma SFsqrt_not_negative (x : spec_float) : not_negative (SFsqrt prec emax x).
Proof.
  destruct x as [sx|[]| |[] mx ex]; simpl; auto.
  destruct (SFsqrt_core_binary prec emax (Zpos mx) ex) as [[mz ez] lz].
  pose proof (binary_round_aux_sign false mz ez lz) as H.
  destruct (binary_round_aux prec emax false mz ez lz); simpl; auto.
Qed.

Lemma binary_round_not_negative (x : spec_float) :
  not_negative x ->
  not_negative (match x with
                | S754_finite s m e => binary_round prec emax s m e
                | _ => x
                end).
Proof.
  destruct x as [sx|sx| |sx mx ex]; simpl; auto. intros ->.
  unfold binary_round. destruct (shl_align mx ex _) as [mz ez].
  pose proof (binary_round_aux_sign false (Zpos mz) ez loc_Exact) as H.
  destruct (binary_round_aux prec emax false (Zpos mz) ez loc_Exact); simpl; auto.
Qed.
End Signs.

Lemma trunc_not_positive (x : spec_float) : not_positive x -> trunc x <= 0.
Proof.
  destruct x as [s|s| |s m e]; unfold not_positive, trunc; try lia.
  intros ->. unfold cond_Zopp.
  destruct (Z.leb_spec 0 e).
  - assert (0 < 2 ^ e) by (apply Z.pow_pos_nonneg; lia).
    assert (0 <= Zpos m * 2 ^ e) by (apply Z.mul_nonneg_nonneg; lia). lia.
  - assert (0 < 2 ^ (- e)) by (apply Z.pow_pos_nonneg; lia).
    assert (0 <= Zpos m / 2 ^ (- e)) by (apply Z.div_pos; lia). lia.
Qed.

Section KernelSizes.
Context {cv : OpenCV} {ext : Collaborators}.

Lemma mask_radius_not_negative (mask : pixels) : not_negative (Convert.mask_radius mask).
Proof.
  unfold Convert.mask_radius.
  remember (F64.of_Z 2) as two eqn:E2. vm_compute in E2. subst two.
  apply SFdiv_not_negative. unfold f32_to_f64, F64.round.
  apply binary_round_not_negative. apply SFsqrt_not_negative.
Qed.

(** X15.  The side of the erosion kernel is taken from the absolute value
    of [erosion_ratio * mask_radius]: an erosion size and its opposite give
    the same kernel, one to erode with and one to dilate with. *)
Theorem set_erosion_kernel_symmetric (self self' : ConvertState) (mask : pixels) :
  erosion_size (args self') = - erosion_size (args self) ->
  Convert.set_erosion_kernel self' mask = Convert.set_erosion_kernel self mask.
Proof.
  intros E. unfold Convert.set_erosion_kernel. rewrite E.
  assert (H : SFabs (F64.mul (F64.div (F64.of_Z (- erosion_size (args self)))
                                      (F64.of_Z 100)) (Convert.mask_radius mask))
              = SFabs (F64.mul (F64.div (F64.of_Z (erosion_size (args self)))
                                        (F64.of_Z 100)) (Convert.mask_radius mask))).
  { apply SFmul_abs, SFdiv_abs, binary_normalize_abs. }
  now rewrite H.
Qed.

(** X16.  A negative blur size is not refused and does not blur: the
    product [blur_ratio * mask_radius] is then not above zero, its integer
    part is not either, and [max(1, ...)] makes the side of the blur kernel
    1, unless [int] fails on a radius that is not finite. *)
Theorem set_blur_size_negative (self : ConvertState) (mask : pixels) :
  blur_size (args self) < 0 ->
  Convert.set_blur_size self mask = Ok 1
  \/ exists e, Convert.set_blur_size self mask = Raised e /\ raised_in e = "int".
Proof.
  intros Hneg. unfold Convert.set_blur_size.
  assert (Hp : not_positive (F64.mul (F64.div (F64.of_Z (blur_size (args self)))
                                              (F64.of_Z 100))
                                     (Convert.mask_radius mask))).
  { apply SFmul_not_positive; [|apply mask_radius_not_negative].
    remember (F64.of_Z 100) as d eqn:Ed. vm_compute in Ed. subst d.
    apply SFdiv_not_positive. now apply binary_normalize_negative. }
  pose proof (trunc_not_positive _ Hp) as Ht.
  destruct (F64.mul _ (Convert.mask_radius mask)) as [s|s| |s m e]; unfold py_int;
    cbn [bind].
  - left. reflexivity.
  - right. eexists. split; reflexivity.
  - right. eexists. split; reflexivity.
  - left. now rewrite Z.max_l by lia.
Qed.
End KernelSizes.

Lemma set_erosion_kernel_symmetric_witness :
  Convert.set_erosion_kernel (cv := measuring_cv) (convert_sized (-90) 0) (gray 4 4 3 1)
  = Ok [[3; 3]]
  /\ Convert.set_erosion_kernel (cv := measuring_cv) (convert_sized 90 0) (gray 4 4 3 1)
     = Ok [[3; 3]].
Proof.
  pose proof (set_erosion_kernel_symmetric (cv := measuring_cv)
                (convert_sized 90 0) (convert_sized (-90) 0) (gray 4 4 3 1) eq_refl) as E.
  split; [rewrite E|]; vm_compute; reflexivity.
Defined.

Lemma set_blur_size_negative_witness :
  Convert.set_blur_size (convert_sized 0 (-20)) (gray 4 4 3 1) = Ok 1.
Proof.
  destruct (set_blur_size_negative (convert_sized 0 (-20)) (gray 4 4 3 1))
    as [H|[e [H _]]].
  - simpl. lia.
  - exact H.
  - vm_compute in H. discriminate H.
Defined.
